(** * assistant_app: calendar reconciliation, free-time computation and task
  scheduling

  A shallow embedding of the parts of the assistant that carry logic:

  - [time/index.js]: [calculateFreeTimeIntervals], [syncEvents],
    [hasEventChanged], [insertEvent], [deleteEvent];
  - [time/mongo_calendar.js], [time/google_calendar.js] and
    [tasks/tasks_data.js]: the store operations those functions call;
  - [tasks/scheduling_interface.js]: [scheduleTask], [unscheduleTask],
    [suggestTimeSlots];
  - [progress/language_tracker.js]: [logWordsLearned],
    [getMonthlyProgress], [setMonthlyGoals], and the operations of
    [progress/progress_data.js] behind them;
  - [health/fitbit_api.js]: [extractAccessToken], [fetchSleepData].

  Collections are finite maps keyed by their identifier, [$set] updates
  overwrite exactly the keys the patch carries (the object under [start]
  or [end] as a whole), and asynchronous functions are state-passing
  computations that either return or throw. *)

From Stdlib Require Import QArith Ascii.
From stdpp Require Import gmap strings list fin_maps sorting pretty infinite.

Local Open Scope Z_scope.

(** ** JavaScript completions *)

Module Js.

(** The three kinds of exception the modelled code raises. [Error] is what
    [throw new Error(message)] creates; [TypeError] and [ReferenceError]
    are raised by the language itself. *)
Inductive Exception : Type :=
| Error (message : string)
| TypeError (message : string)
| ReferenceError (message : string).

Inductive Completion (A : Type) : Type :=
| Return (a : A)
| Throw (e : Exception).
Arguments Return {A} a.
Arguments Throw {A} e.

(** Truthiness of a string-valued property that may be absent or [null]:
    only a non-empty string passes [if (x)]. *)
Definition truthy (x : option string) : bool :=
  match x with
  | Some s => negb (String.eqb s "")
  | None => false
  end.

(** An asynchronous function over a state [S] (the stores it can reach): it
    either returns or throws, and what it did before throwing stays done. *)
Definition Async (S A : Type) : Type := S → Completion A * S.

Definition ret {S A} (a : A) : Async S A := λ w, (Return a, w).

Definition throw {S A} (e : Exception) : Async S A := λ w, (Throw e, w).

Definition bind {S A B} (m : Async S A) (k : A → Async S B) : Async S B :=
  λ w, match m w with
       | (Return a, w') => k a w'
       | (Throw e, w') => (Throw e, w')
       end.

(** A synchronous expression evaluated inside an asynchronous function. *)
Definition eval {S A} (c : Completion A) : Async S A := λ w, (c, w).

(** [try { m } catch (error) { handler(error) }] *)
Definition try_catch {S A} (m : Async S A) (handler : Exception → Async S A)
  : Async S A :=
  λ w, match m w with
       | (Return a, w') => (Return a, w')
       | (Throw e, w') => handler e w'
       end.

(** [catch (error) { console.error(...); throw error; }] *)
Definition rethrow {S A} (e : Exception) : Async S A := throw e.

(** [for (const x of l) { body(x) }] *)
Fixpoint for_of {S A} (l : list A) (body : A → Async S unit) : Async S unit :=
  match l with
  | [] => ret tt
  | x :: l' => bind (body x) (λ _, for_of l' body)
  end.

Notation "x <- m ;; k" := (bind m (λ x, k))
  (at level 100, m at next level, right associativity).
Notation "m ;;; k" := (bind m (λ _, k))
  (at level 100, right associativity).

End Js.

(** ** The free-time calculator ([time/index.js]) *)

Module FreeTime.

(** An event as the calculator reads it: [start] and [end_] are the
    millisecond timestamps of [new Date(event.start.dateTime)] and
    [new Date(event.end.dateTime)], for an event whose two [dateTime]
    strings are dates. An event without them (an all-day event) gives an
    Invalid Date: every comparison with it is false and the comparator of
    the sort returns [NaN], which leaves the order to the implementation.
    Such events are not values of this type, and what is proved of the
    calculator is proved of lists of events with valid dates. *)
Record Event : Type := mkEvent { start : Z; end_ : Z }.

(** A free interval [{start, end}]. *)
Record Interval : Type := mkInterval { ivStart : Z; ivEnd : Z }.

Definition valid (ev : Event) : Prop := start ev < end_ ev.

(** [events.sort((a, b) => a.start - b.start)]: the sort is stable, so
    events with equal starts keep their order. *)
Fixpoint insert_by_start (ev : Event) (l : list Event) : list Event :=
  match l with
  | [] => [ev]
  | ev' :: l' =>
      if start ev <=? start ev' then ev :: ev' :: l'
      else ev' :: insert_by_start ev l'
  end.

Definition sort_by_start (events : list Event) : list Event :=
  foldr insert_by_start [] events.

(** One iteration of the [for (const event of events)] loop, on the pair
    [(freeTimeIntervals, currentFreeTimeStart)]. *)
Definition loop_body (st : list Interval * Z) (event : Event)
  : list Interval * Z :=
  let '(freeTimeIntervals, currentFreeTimeStart) := st in
  let eventStart := start event in
  let eventEnd := end_ event in
  (if currentFreeTimeStart <? eventStart
   then freeTimeIntervals ++ [mkInterval currentFreeTimeStart eventStart]
   else freeTimeIntervals,
   eventEnd).

(** [calculateFreeTimeIntervals(events)]. The function reads the clock:
    [now] is the value of the first [new Date()], [endOfDay] is the second
    one moved to 23:59:59.999. *)
Definition calculateFreeTimeIntervals (now endOfDay : Z)
    (events : list Event) : list Interval :=
  let sorted := sort_by_start events in
  let '(freeTimeIntervals, currentFreeTimeStart) :=
    foldl loop_body ([], now) sorted in
  if currentFreeTimeStart <? endOfDay
  then freeTimeIntervals ++ [mkInterval currentFreeTimeStart endOfDay]
  else freeTimeIntervals.

(** The loop states, from the initial one to the one after the last
    iteration; their second components are the successive values of
    [currentFreeTimeStart]. *)
Fixpoint loop_states (st : list Interval * Z) (events : list Event)
  : list (list Interval * Z) :=
  match events with
  | [] => [st]
  | event :: rest => st :: loop_states (loop_body st event) rest
  end.

Definition cursor_trace (now : Z) (events : list Event) : list Z :=
  map snd (loop_states ([], now) (sort_by_start events)).

(** *** Measures used by the properties *)

Definition length_of (iv : Interval) : Z := ivEnd iv - ivStart iv.

Definition total_free (ivs : list Interval) : Z :=
  foldr (λ iv acc, length_of iv + acc) 0 ivs.

(** Length of the part of a busy event that lies in the window [[s, e)]. *)
Definition busy_within (s e : Z) (ev : Event) : Z :=
  0 `max` (e `min` end_ ev - s `max` start ev).

Definition total_busy (s e : Z) (events : list Event) : Z :=
  foldr (λ ev acc, busy_within s e ev + acc) 0 events.

(** A free interval and a busy event overlap when they share an instant. *)
Definition overlaps (iv : Interval) (ev : Event) : bool :=
  (ivStart iv `max` start ev <? ivEnd iv `min` end_ ev).

(** Two busy events are disjoint when one ends before the other starts. *)
Definition disjoint (a b : Event) : Prop :=
  end_ a ≤ start b ∨ end_ b ≤ start a.

Definition sorted_by_start (events : list Event) : Prop :=
  StronglySorted (λ a b, start a ≤ start b) events.

Definition non_overlapping (events : list Event) : Prop :=
  ForallOrdPairs disjoint events.

(** The loop unfolded from a given cursor: the intervals it pushes and
    the cursor it ends with. *)
Fixpoint gaps (cursor : Z) (events : list Event) : list Interval :=
  match events with
  | [] => []
  | event :: rest =>
      (if cursor <? start event then [mkInterval cursor (start event)]
       else [])
      ++ gaps (end_ event) rest
  end.

Fixpoint last_cursor (cursor : Z) (events : list Event) : Z :=
  match events with
  | [] => cursor
  | event :: rest => last_cursor (end_ event) rest
  end.

(** Sorted, valid and pairwise disjoint, said in one recursion: every
    event ends before all the later ones start. *)
Fixpoint chained (events : list Event) : Prop :=
  match events with
  | [] => True
  | event :: rest =>
      valid event ∧ Forall (λ ev', end_ event ≤ start ev') rest ∧ chained rest
  end.

End FreeTime.

(** ** The stores behind the adapters *)

Module Stores.
Import Js.

(** A MongoDB [ObjectId] is a 12-byte value. The driver this code is
    written for ([ObjectId(id)] called without [new],
    [client.isConnected()]) reads it from a string of 24 hexadecimal digits
    or from any string of 12 characters, whose characters are then the 12
    bytes; [ObjectId.isValid] accepts exactly these strings. *)
Definition hex_digit (a : Ascii.ascii) : option N :=
  let n := Ascii.N_of_ascii a in
  (if (48 <=? n) && (n <=? 57) then Some (n - 48)
   else if (97 <=? n) && (n <=? 102) then Some (n - 87)
   else if (65 <=? n) && (n <=? 70) then Some (n - 55)
   else None)%N.

Fixpoint hex_value (acc : N) (s : string) : option N :=
  match s with
  | EmptyString => Some acc
  | String a s' =>
      match hex_digit a with
      | Some d => hex_value (16 * acc + d)%N s'
      | None => None
      end
  end.

Fixpoint bytes_value (acc : N) (s : string) : N :=
  match s with
  | EmptyString => acc
  | String a s' => bytes_value (256 * acc + Ascii.N_of_ascii a)%N s'
  end.

Definition ObjectId_isValid (s : string) : bool :=
  (String.length s =? 12)%nat
  || (String.length s =? 24)%nat && bool_decide (is_Some (hex_value 0 s)).

Definition ObjectId (s : string) : N :=
  if (String.length s =? 12)%nat then bytes_value 0 s
  else default 0%N (hex_value 0 s).

(** The object under [start] or [end] of an event. Of its keys the
    program reads [dateTime] only; an all-day event of the calendar has a
    [start] without [dateTime]. *)
Record TimePoint : Type := mkTimePoint { dateTime : option string }.

Global Instance TimePoint_eq_dec : EqDecision TimePoint.
Proof. solve_decision. Defined.

(** An event as a JavaScript object. One shape serves the objects the
    calendar service returns ([id_] set), the documents of the events
    collection ([_id] set, [googleEventId] set once linked), the resources
    sent to the calendar and the [$set] patches: a key that an object does
    not carry is [None]. [start] and [end_] are the keys [start] and
    [end]. *)
Record EventObject : Type := new_EventObject {
  _id : option N;
  id_ : option string;
  googleEventId : option string;
  summary : option string;
  start : option TimePoint;
  end_ : option TimePoint;
  description : option string;
}.

Global Instance EventObject_eq_dec : EqDecision EventObject.
Proof. solve_decision. Defined.

(** [{ dateTime: s }] when there is an [s], no object otherwise. *)
Definition at_dateTime (s : option string) : option TimePoint :=
  (λ s', mkTimePoint (Some s')) <$> s.

(** The event object whose [start] and [end], where it has them, hold a
    [dateTime]. *)
Definition mkEventObject (_id : option N)
    (id_ googleEventId summary start_dateTime end_dateTime description
       : option string) : EventObject :=
  new_EventObject _id id_ googleEventId summary (at_dateTime start_dateTime)
    (at_dateTime end_dateTime) description.

(** [event.start.dateTime] and [event.end.dateTime] where the objects are
    there; [None] stands for [undefined]. *)
Definition start_dateTime (event : EventObject) : option string :=
  start event ≫= dateTime.

Definition end_dateTime (event : EventObject) : option string :=
  end_ event ≫= dateTime.

(** [{...o, googleEventId: v}] *)
Definition with_googleEventId (v : option string) (o : EventObject)
  : EventObject :=
  new_EventObject (_id o) (id_ o) v (summary o) (start o) (end_ o)
    (description o).

(** The document [o] as read back from the collection under [_id] [k]. *)
Definition with__id (k : N) (o : EventObject) : EventObject :=
  new_EventObject (Some k) (id_ o) (googleEventId o) (summary o) (start o)
    (end_ o) (description o).

(** [{ $set: patch }] on a document: every key of the patch is written, the
    other keys of the document stay as they are. The value written under
    [start] or [end] is the whole object of the patch. *)
Definition set_fields (patch doc : EventObject) : EventObject :=
  new_EventObject
    (_id patch ∪ _id doc)
    (id_ patch ∪ id_ doc)
    (googleEventId patch ∪ googleEventId doc)
    (summary patch ∪ summary doc)
    (start patch ∪ start doc)
    (end_ patch ∪ end_ doc)
    (description patch ∪ description doc).

(** A task document. [duration] is a number of hours, whole here.
    [scheduled] and [calendarEventId] are absent until a scheduling call
    writes them; [None] stands for absent or [null]. *)
Record Task : Type := mkTask {
  title : string;
  duration : Z;
  scheduled : option bool;
  calendarEventId : option string;
}.

Global Instance Task_eq_dec : EqDecision Task.
Proof. solve_decision. Defined.

(** The two patches the scheduler writes: a key is [Some v] when the patch
    carries it, and [calendarEventId: null] is [Some None]. *)
Record TaskPatch : Type := mkTaskPatch {
  p_scheduled : option bool;
  p_calendarEventId : option (option string);
}.

Definition set_task_fields (patch : TaskPatch) (t : Task) : Task :=
  mkTask (title t) (duration t)
    (p_scheduled patch ∪ scheduled t)
    (default (calendarEventId t) (p_calendarEventId patch)).

(** What the calendar service keeps of an event: the four properties the
    reconciliation compares. The service assigns the identifier, which is
    the key of the event in [google] below. *)
Record Details : Type := new_Details {
  d_summary : option string;
  d_start : option TimePoint;
  d_end : option TimePoint;
  d_description : option string;
}.

Global Instance Details_eq_dec : EqDecision Details.
Proof. solve_decision. Defined.

(** The details whose [start] and [end], where they are there, hold a
    [dateTime]. *)
Definition mkDetails (summary start_dateTime end_dateTime description
                        : option string) : Details :=
  new_Details summary (at_dateTime start_dateTime)
    (at_dateTime end_dateTime) description.

Definition details_of (o : EventObject) : Details :=
  new_Details (summary o) (start o) (end_ o) (description o).

(** The object the calendar service returns for the event stored under
    [k]. *)
Definition google_event (k : string) (d : Details) : EventObject :=
  new_EventObject None (Some k) None (d_summary d) (d_start d) (d_end d)
    (d_description d).

(** Every request that reaches the calendar service or a collection. *)
Inductive Call : Type :=
| GoogleList
| GoogleInsert (resource : EventObject) (newId : string)
| GoogleDelete (eventId : string)
| EventsFind
| EventsInsertOne (key : N) (doc : EventObject)
| EventsUpdateOne (key : option N) (patch : EventObject)
| EventsDeleteOne (key : N)
| TasksFindOne (key : N)
| TasksUpdateOne (key : N) (patch : TaskPatch).

(** The calendar of the remote service, the [events] and [tasks]
    collections, and the requests made so far (oldest first). *)
Record World : Type := mkWorld {
  google : gmap string Details;
  events : gmap N EventObject;
  tasks : gmap N Task;
  calls : list Call;
}.

Abbreviation M := (Async World).

Definition record (c : Call) (w : World) : World :=
  mkWorld (google w) (events w) (tasks w) (calls w ++ [c]).

(** Calling [object.name(...)] where [object] is a module whose exported
    names are [exports]: the call runs [f] when the name is exported and
    raises a [TypeError] when the property is [undefined]. *)
Definition call_member {A} (object : string) (exports : list string)
    (name : string) (f : M A) : M A :=
  if bool_decide (name ∈ exports) then f
  else throw (TypeError (object +:+ "." +:+ name +:+ " is not a function")).

End Stores.

(** ** [time/google_calendar.js] *)

Module GoogleCalendar.
Import Js Stores.

(** [authenticate()]: the credential flow is outside the model; a run
    starts with usable credentials. *)
Definition authenticate : M unit := ret tt.

(** Identifiers the service will not hand out again: those of its events
    and those that documents and tasks still refer to. *)
Definition known_ids (w : World) : gset string :=
  dom (google w)
  ∪ list_to_set (omap (λ kv, googleEventId kv.2) (map_to_list (events w)))
  ∪ list_to_set (omap (λ kv, calendarEventId kv.2) (map_to_list (tasks w))).

(** [fetchEvents(auth, calendarId, startTime, endTime)]: the events of the
    calendar that fall in the requested window. *)
Definition listed (in_window : EventObject → bool) (w : World)
  : list EventObject :=
  List.filter in_window
    (map (λ kv, google_event kv.1 kv.2) (map_to_list (google w))).

Definition fetchEvents (in_window : EventObject → bool)
  : M (list EventObject) :=
  λ w, (Return (listed in_window w), record GoogleList w).

(** [createEvent(auth, calendarId, eventData)]: the service stores the
    event under a new identifier and returns it. *)
Definition createEvent (eventData : EventObject) : M EventObject :=
  λ w, let newId := fresh (known_ids w) in
       (Return (google_event newId (details_of eventData)),
        record (GoogleInsert eventData newId)
          (mkWorld (<[newId := details_of eventData]> (google w))
             (events w) (tasks w) (calls w))).

(** [deleteEvent(auth, calendarId, eventId)]: the service answers
    "Not Found" for an identifier it does not hold. *)
Definition deleteEvent (eventId : string) : M unit :=
  λ w, match google w !! eventId with
       | Some _ =>
           (Return tt,
            record (GoogleDelete eventId)
              (mkWorld (delete eventId (google w)) (events w) (tasks w)
                 (calls w)))
       | None => (Throw (Error "Not Found"), record (GoogleDelete eventId) w)
       end.

End GoogleCalendar.

(** ** [time/mongo_calendar.js] *)

Module MongoCalendar.
Import Js Stores.

(** A new [ObjectId] differs from every identifier in use. *)
Definition new_ObjectId (w : World) : N :=
  fresh (dom (events w) ∪ dom (tasks w)).

(** [fetchEvents({})]: every document, with its [_id]. *)
Definition documents (w : World) : list EventObject :=
  map (λ kv, with__id kv.1 kv.2) (map_to_list (events w)).

Definition fetchEvents : M (list EventObject) :=
  λ w, (Return (documents w), record EventsFind w).

(** [insertEvent(eventData)]: [insertOne] keeps an [_id] the document
    brings and creates one otherwise; a key already present is refused. *)
Definition insertEvent (eventData : EventObject) : M N :=
  try_catch
    (λ w, let key := default (new_ObjectId w) (_id eventData) in
          match events w !! key with
          | Some _ =>
              (Throw (Error "E11000 duplicate key error collection"),
               record (EventsInsertOne key eventData) w)
          | None =>
              (Return key,
               record (EventsInsertOne key eventData)
                 (mkWorld (google w)
                    (<[key := with__id key eventData]> (events w))
                    (tasks w) (calls w)))
          end)
    rethrow.

(** [updateEvent(eventId, eventData)] with an [ObjectId] (or [undefined])
    as [eventId]: [updateOne({_id: eventId}, {$set: eventData})]. *)
Definition updateEvent (eventId : option N) (eventData : EventObject)
  : M unit :=
  try_catch
    (λ w, (Return tt,
           record (EventsUpdateOne eventId eventData)
             (mkWorld (google w)
                (match eventId with
                 | Some key => alter (set_fields eventData) key (events w)
                 | None => events w
                 end)
                (tasks w) (calls w))))
    rethrow.

(** [deleteEvent(eventId)] with an [ObjectId] as [eventId]. *)
Definition deleteEvent (eventId : N) : M unit :=
  try_catch
    (λ w, (Return tt,
           record (EventsDeleteOne eventId)
             (mkWorld (google w) (delete eventId (events w)) (tasks w)
                (calls w))))
    rethrow.

(** [closeConnection()] touches neither collection. *)
Definition closeConnection : M unit := ret tt.

End MongoCalendar.

(** ** [tasks/tasks_data.js] *)

Module TasksData.
Import Js Stores.

(** [retrieveTaskById(taskId)] with a string as [taskId]: the found
    document with its [_id], or [null]. *)
Definition retrieveTaskById (taskId : string) : M (option (N * Task)) :=
  try_catch
    (if negb (ObjectId_isValid taskId)
     then throw (Error "Invalid taskId provided.")
     else λ w, let key := ObjectId taskId in
               (Return (pair key <$> tasks w !! key),
                record (TasksFindOne key) w))
    rethrow.

(** [updateTaskData(taskId, updatedData)] with a string as [taskId]. *)
Definition updateTaskData (taskId : string) (updatedData : TaskPatch)
  : M unit :=
  try_catch
    (if negb (ObjectId_isValid taskId)
     then throw (Error "Invalid taskId provided.")
     else λ w, let key := ObjectId taskId in
               (Return tt,
                record (TasksUpdateOne key updatedData)
                  (mkWorld (google w) (events w)
                     (alter (set_task_fields updatedData) key (tasks w))
                     (calls w))))
    rethrow.

End TasksData.

(** ** [time/index.js] *)

Module Time.
Import Js Stores.

(** The names of [module.exports]. *)
Definition exports : list string :=
  ["syncEvents"; "insertEvent"; "updateEvent"; "deleteEvent";
   "calculateFreeTimeIntervals"]%string.

(** [object.dateTime], where [object] is what an event has under [start]
    or [end]: reading a property of [undefined] is a [TypeError]. *)
Definition dateTime_of (object : option TimePoint)
  : Completion (option string) :=
  match object with
  | Some o => Return (dateTime o)
  | None =>
      Throw (TypeError
               "Cannot read properties of undefined (reading 'dateTime')")
  end.

(** [hasEventChanged(googleEvent, mongoEvent)]: [!==] on four properties,
    joined by [||], so a comparison is evaluated only when those before it
    found no difference, and the left operand of each before the right. *)
Definition hasEventChanged (googleEvent mongoEvent : EventObject)
  : Completion bool :=
  if bool_decide (summary googleEvent ≠ summary mongoEvent) then Return true
  else
    match dateTime_of (start googleEvent), dateTime_of (start mongoEvent) with
    | Throw e, _ | Return _, Throw e => Throw e
    | Return googleStart, Return mongoStart =>
        if bool_decide (googleStart ≠ mongoStart) then Return true
        else
          match dateTime_of (end_ googleEvent),
                dateTime_of (end_ mongoEvent) with
          | Throw e, _ | Return _, Throw e => Throw e
          | Return googleEnd, Return mongoEnd =>
              if bool_decide (googleEnd ≠ mongoEnd) then Return true
              else Return (bool_decide (description googleEvent
                                        ≠ description mongoEvent))
          end
    end.

(** The [Map] filled by [mongoEvents.forEach]: a later document with the
    same [googleEventId] replaces an earlier one. *)
Definition index_by_googleEventId (mongoEvents : list EventObject)
  : gmap string EventObject :=
  foldl (λ mongoEventsMap event,
           match googleEventId event with
           | Some g =>
               if truthy (Some g) then <[g := event]> mongoEventsMap
               else mongoEventsMap
           | None => mongoEventsMap
           end)
    ∅ mongoEvents.

(** The body of the first loop, "Sync from Google Calendar to MongoDB". *)
Definition sync_from_google (mongoEventsMap : gmap string EventObject)
    (googleEvent : EventObject) : M unit :=
  match id_ googleEvent ≫= (λ k, mongoEventsMap !! k) with
  | None =>
      _ <- MongoCalendar.insertEvent
             (with_googleEventId (id_ googleEvent) googleEvent) ;;
      ret tt
  | Some mongoEvent =>
      changed <- eval (hasEventChanged googleEvent mongoEvent) ;;
      if changed
      then MongoCalendar.updateEvent (_id mongoEvent)
             (with_googleEventId (id_ googleEvent) googleEvent)
      else ret tt
  end.

(** The body of the second loop, "Sync from MongoDB to Google Calendar". *)
Definition sync_to_google (googleEvents : list EventObject)
    (mongoEvent : EventObject) : M unit :=
  if negb (truthy (googleEventId mongoEvent)) then ret tt
  else
    match List.find (λ event, bool_decide (id_ event = googleEventId mongoEvent))
            googleEvents with
    | Some _ => ret tt
    | None =>
        newGoogleEvent <- GoogleCalendar.createEvent mongoEvent ;;
        MongoCalendar.updateEvent (_id mongoEvent)
          (with_googleEventId (id_ newGoogleEvent) mongoEvent)
    end.

(** [syncEvents()]. [in_window] says which events of the calendar lie in
    the seven days that the run asks for. An exception is logged and
    swallowed; the connection is closed in every case. *)
Definition syncEvents (in_window : EventObject → bool) : M unit :=
  try_catch
    (_ <- GoogleCalendar.authenticate ;;
     googleEvents <- GoogleCalendar.fetchEvents in_window ;;
     mongoEvents <- MongoCalendar.fetchEvents ;;
     let mongoEventsMap := index_by_googleEventId mongoEvents in
     for_of googleEvents (sync_from_google mongoEventsMap) ;;;
     for_of mongoEvents (sync_to_google googleEvents))
    (λ _, ret tt) ;;;
  MongoCalendar.closeConnection.

(** [insertEvent(eventData)]: into the calendar, then into the collection
    with the new [googleEventId]; returns [{googleEventId, mongoEventId}]. *)
Definition insertEvent (eventData : EventObject) : M (option string * N) :=
  try_catch
    (_ <- GoogleCalendar.authenticate ;;
     googleEvent <- GoogleCalendar.createEvent eventData ;;
     mongoEventId <- MongoCalendar.insertEvent
                       (with_googleEventId (id_ googleEvent) eventData) ;;
     ret (id_ googleEvent, mongoEventId))
    rethrow.

(** [deleteEvent(googleEventId, mongoEventId)] *)
Definition deleteEvent (googleEventId : string) (mongoEventId : N) : M unit :=
  try_catch
    (_ <- GoogleCalendar.authenticate ;;
     GoogleCalendar.deleteEvent googleEventId ;;;
     MongoCalendar.deleteEvent mongoEventId)
    rethrow.

(** The requests of a run that change a store: the operations of the
    synchronization plan, in the order they were made. *)
Definition is_mutation (c : Call) : bool :=
  match c with
  | GoogleInsert _ _ | GoogleDelete _ | EventsInsertOne _ _
  | EventsUpdateOne _ _ | EventsDeleteOne _ | TasksUpdateOne _ _ => true
  | GoogleList | EventsFind | TasksFindOne _ => false
  end.

Definition plan_of (before after : World) : list Call :=
  List.filter is_mutation (drop (length (calls before)) (calls after)).

(** The test of the second loop: a linked document whose [googleEventId]
    no event of [googleEvents] carries. *)
Definition missing_in (googleEvents : list EventObject)
    (mongoEvent : EventObject) : bool :=
  truthy (googleEventId mongoEvent)
  && negb (existsb (λ event, bool_decide (id_ event = googleEventId mongoEvent))
             googleEvents).

(** The requests of one iteration of the first loop that returns, for the
    fetched event [googleEvent]: the insert of a copy linked to the event
    when the [Map] has no document for its identifier, the update of the
    document that the [Map] has when the comparison finds a difference,
    nothing when it finds none. An iteration in which the comparison
    throws does not return. *)
Definition first_loop_requests (mongoEventsMap : gmap string EventObject)
    (googleEvent : EventObject) (cs : list Call) : Prop :=
  let copy := with_googleEventId (id_ googleEvent) googleEvent in
  match id_ googleEvent ≫= (λ k, mongoEventsMap !! k) with
  | None => ∃ key, cs = [EventsInsertOne key copy]
  | Some mongoEvent =>
      match hasEventChanged googleEvent mongoEvent with
      | Return true => cs = [EventsUpdateOne (_id mongoEvent) copy]
      | Return false => cs = []
      | Throw _ => False
      end
  end.

(** The requests of one iteration of the second loop, for the document
    [mongoEvent] of the snapshot: when the document is linked and no event
    of [googleEvents] carries its [googleEventId], the creation of an event
    from it in the calendar and the update that links the document to the
    new event; nothing otherwise. *)
Definition second_loop_requests (googleEvents : list EventObject)
    (mongoEvent : EventObject) (cs : list Call) : Prop :=
  if missing_in googleEvents mongoEvent
  then ∃ newId,
         cs = [GoogleInsert mongoEvent newId;
               EventsUpdateOne (_id mongoEvent)
                 (with_googleEventId (Some newId) mongoEvent)]
  else cs = [].

(** Whether a request writes to the document stored under [key] or sends
    that document to the calendar. *)
Definition targets (key : N) (doc : EventObject) (c : Call) : bool :=
  match c with
  | EventsInsertOne k _ | EventsDeleteOne k => bool_decide (k = key)
  | EventsUpdateOne k _ => bool_decide (k = Some key)
  | GoogleInsert resource _ => bool_decide (resource = with__id key doc)
  | _ => false
  end.

End Time.

(** ** [tasks/scheduling_interface.js] *)

Module SchedulingInterface.
Import Js Stores.

Section scheduling.

(** [moment.tz(t, timeZone).utc().format()] and
    [moment.tz(d, "UTC").tz(timeZone).format()]. *)
Variable utc_format : string → string → string.
Variable zone_format : Z → string → string.

(** The two clock readings of [calculateFreeTimeIntervals] and the
    timestamp [new Date(s)] of a [dateTime] string. *)
Variables now endOfDay : Z.
Variable Date_of : option string → Z.

(** [time/index.js] exports no [fetchEvents]; what a property of that name
    would do if there were one is left open. *)
Variable fetchEvents_if_exported : M (list EventObject).

Record TimeSlot : Type := mkTimeSlot { slot_start : string; slot_end : string }.

Definition not_found (taskId : string) : Exception :=
  Error ("Task with ID " +:+ taskId +:+ " not found.").

Definition invalid_id : Exception := Error "Invalid taskId provided.".

(** The string [taskId] names a task of the collection. *)
Definition existing_task (w : World) (taskId : string) : Prop :=
  ObjectId_isValid taskId = true ∧ is_Some (tasks w !! ObjectId taskId).

(** [scheduleTask(taskId, timeSlot, timeZone)] *)
Definition scheduleTask (taskId : string) (timeSlot : TimeSlot)
    (timeZone : string) : M string :=
  try_catch
    (found <- TasksData.retrieveTaskById taskId ;;
     match found with
     | None => throw (not_found taskId)
     | Some (_, task) =>
         let startDateTime := utc_format (slot_start timeSlot) timeZone in
         let endDateTime := utc_format (slot_end timeSlot) timeZone in
         let eventData :=
           mkEventObject None None None (Some (title task))
             (Some startDateTime) (Some endDateTime)
             (Some ("Task ID: " +:+ taskId)) in
         event <- call_member "timeModule" Time.exports "insertEvent"
                    (Time.insertEvent eventData) ;;
         TasksData.updateTaskData taskId
           (mkTaskPatch (Some true) (Some (fst event))) ;;;
         ret ("Task scheduled successfully. Calendar Event ID: "
              +:+ default "undefined" (fst event))
     end)
    rethrow.

(** [unscheduleTask(taskId)] *)
Definition unscheduleTask (taskId : string) : M string :=
  try_catch
    (found <- TasksData.retrieveTaskById taskId ;;
     match found with
     | None => throw (not_found taskId)
     | Some (task_id, task) =>
         (match calendarEventId task with
          | Some eventId =>
              if truthy (Some eventId)
              then call_member "timeModule" Time.exports "deleteEvent"
                     (Time.deleteEvent eventId task_id)
              else ret tt
          | None => ret tt
          end) ;;;
         TasksData.updateTaskData taskId
           (mkTaskPatch (Some false) (Some None)) ;;;
         ret "Task unscheduled successfully."
     end)
    rethrow.

(** The filter of [suggestTimeSlots]: the intervals at least as long as
    the task, [task.duration] being in hours and the timestamps in
    milliseconds. *)
Definition long_enough (task : Task) (interval : FreeTime.Interval) : bool :=
  duration task * 60 * 60 * 1000
  <=? FreeTime.ivEnd interval - FreeTime.ivStart interval.

Definition suggestedTimeSlots (task : Task)
    (freeTimeIntervals : list FreeTime.Interval) : list FreeTime.Interval :=
  List.filter (long_enough task) freeTimeIntervals.

(** [suggestTimeSlots(taskId, timeZone)] *)
Definition suggestTimeSlots (taskId : string) (timeZone : string)
  : M (list (string * string)) :=
  try_catch
    (found <- TasksData.retrieveTaskById taskId ;;
     match found with
     | None => throw (not_found taskId)
     | Some (_, task) =>
         events <- call_member "timeModule" Time.exports "fetchEvents"
                     fetchEvents_if_exported ;;
         let freeTimeIntervals :=
           FreeTime.calculateFreeTimeIntervals now endOfDay
             (map (λ event,
                     FreeTime.mkEvent (Date_of (start_dateTime event))
                       (Date_of (end_dateTime event)))
                events) in
         ret (map (λ interval,
                     (zone_format (FreeTime.ivStart interval) timeZone,
                      zone_format (FreeTime.ivEnd interval) timeZone))
                (suggestedTimeSlots task freeTimeIntervals))
     end)
    rethrow.

End scheduling.

End SchedulingInterface.

(** ** [progress/language_tracker.js] *)

Module LanguageTracker.
Import Js.

(** The functions [progress_data.js] exports. *)
Inductive Native : Type :=
| connectToDatabase
| closeConnection
| storeProgressData
| retrieveProgressData
| updateProgressData
| deleteProgressData.

(** The values the three functions handle. Numbers are exact rationals. *)
#[warnings="-register-all"]
Inductive Value : Type :=
| VUndefined
| VNumber (q : Q)
| VNaN
| VInfinity (negative : bool)
| VString (s : string)
| VDate (ms : Z)
| VObjectId (n : nat)
| VObject (properties : list (string * Value))
| VArray (items : list Value)
| VFunction (f : Native).

(** A [const] binding is created when its block is entered and cannot be
    read before its declaration has been evaluated. *)
Inductive Binding : Type :=
| Uninitialized
| Initialized (v : Value).

Definition Scope : Type := list (string * Binding).

(** The scope chain, innermost block first. *)
Definition Env : Type := list Scope.

Fixpoint assoc {A} (x : string) (l : list (string * A)) : option A :=
  match l with
  | [] => None
  | (y, a) :: l' => if String.eqb x y then Some a else assoc x l'
  end.

(** Reading the identifier [x]. *)
Fixpoint resolve (x : string) (env : Env) : Completion Value :=
  match env with
  | [] => Throw (ReferenceError (x +:+ " is not defined"))
  | scope :: outer =>
      match assoc x scope with
      | Some (Initialized v) => Return v
      | Some Uninitialized =>
          Throw (ReferenceError
                   ("Cannot access '" +:+ x +:+ "' before initialization"))
      | None => resolve x outer
      end
  end.

(** Evaluating the declaration [const x = v] of the innermost block. *)
Definition initialize (x : string) (v : Value) (env : Env) : Env :=
  match env with
  | [] => []
  | scope :: outer =>
      map (λ b, if String.eqb (fst b) x then (x, Initialized v) else b) scope
      :: outer
  end.

(** [object.name] *)
Definition get (object : Value) (name : string) : Completion Value :=
  match object with
  | VUndefined =>
      Throw (TypeError ("Cannot read properties of undefined (reading '"
                        +:+ name +:+ "')"))
  | VObject properties => Return (default VUndefined (assoc name properties))
  | VArray items =>
      Return (if String.eqb name "length"
              then VNumber (inject_Z (Z.of_nat (length items)))
              else VUndefined)
  | _ => Return VUndefined
  end.

(** [a + b] and [a / b] on numbers. *)
Definition add (a b : Value) : Value :=
  match a, b with
  | VNumber x, VNumber y => VNumber (Qred (x + y)%Q)
  | _, _ => VNaN
  end.

Definition divide (a b : Value) : Value :=
  match a, b with
  | VNumber x, VNumber y =>
      if Qeq_bool y 0%Q
      then (if Qeq_bool x 0%Q then VNaN else VInfinity (negb (Qle_bool 0%Q x)))
      else VNumber (Qred (x / y)%Q)
  | _, _ => VNaN
  end.

Definition multiply (a b : Value) : Value :=
  match a, b with
  | VNumber x, VNumber y => VNumber (Qred (x * y)%Q)
  | VInfinity s, VNumber _ => VInfinity s
  | _, _ => VNaN
  end.

Section tracker.

(** The clock and the calendar arithmetic of [Date]: [new Date()], the
    start of that day, and the first and last day of that month. *)
Variable now : Z.
Variables start_of_day start_of_month end_of_month : Z → Z.

(** Whether a document of the collection satisfies a query object. *)
Variable matches : Value → Value → bool.

(** The [progress] collection, oldest document first. *)
Definition Collection : Type := list Value.

Definition same_id (recordId : Value) (doc : Value) : bool :=
  match recordId, get doc "_id" with
  | VObjectId n, Return (VObjectId m) => Nat.eqb n m
  | _, _ => false
  end.

(** [{ $set: updatedData }] *)
Definition set_properties (updatedData doc : Value) : Value :=
  match updatedData, doc with
  | VObject patch, VObject properties =>
      VObject (patch ++ List.filter (λ p, negb (bool_decide (is_Some (assoc (fst p) patch))))
                          properties)
  | _, _ => doc
  end.

(** Calling one of the functions of [progress_data.js]. *)
Definition native (f : Native) (args : list Value)
  : Async Collection Value :=
  match f with
  | storeProgressData =>
      λ c, let insertedId := VObjectId (length c) in
           (Return insertedId,
            c ++ [match nth 0 args VUndefined with
                  | VObject properties =>
                      VObject (("_id", insertedId) :: properties)
                  | v => v
                  end])
  | retrieveProgressData =>
      λ c, (Return (VArray (List.filter (matches (nth 0 args VUndefined)) c)), c)
  | updateProgressData =>
      λ c, (Return VUndefined,
            map (λ doc, if same_id (nth 0 args VUndefined) doc
                        then set_properties (nth 1 args VUndefined) doc
                        else doc) c)
  | deleteProgressData =>
      λ c, (Return VUndefined,
            List.filter (λ doc, negb (same_id (nth 0 args VUndefined) doc)) c)
  | connectToDatabase | closeConnection => ret VUndefined
  end.

(** [callee(args)], where [expression] is the text of the callee. *)
Definition call (callee : Value) (expression : string) (args : list Value)
  : Async Collection Value :=
  match callee with
  | VFunction f => native f args
  | _ => throw (TypeError (expression +:+ " is not a function"))
  end.

(** [const progressData = require("./progress_data")] at module level. *)
Definition progress_data : Value :=
  VObject [("connectToDatabase", VFunction connectToDatabase);
           ("closeConnection", VFunction closeConnection);
           ("storeProgressData", VFunction storeProgressData);
           ("retrieveProgressData", VFunction retrieveProgressData);
           ("updateProgressData", VFunction updateProgressData);
           ("deleteProgressData", VFunction deleteProgressData)]%string.

Definition module_scope : Scope :=
  [("progressData", Initialized progress_data)]%string.

(** [logWordsLearned(language, wordCount)] *)
Definition logWordsLearned (language wordCount : Value)
  : Async Collection Value :=
  try_catch
    (let env0 : Env :=
       [[("today", Uninitialized); ("progressData", Uninitialized)];
        [("language", Initialized language);
         ("wordCount", Initialized wordCount)];
        module_scope]%string in
     let env1 := initialize "today" (VDate (start_of_day now)) env0 in
     language' <- eval (resolve "language" env1) ;;
     today' <- eval (resolve "today" env1) ;;
     wordCount' <- eval (resolve "wordCount" env1) ;;
     let env2 :=
       initialize "progressData"
         (VObject [("language", language'); ("date", today');
                   ("wordCount", wordCount')]%string) env1 in
     receiver <- eval (resolve "progressData" env2) ;;
     callee <- eval (get receiver "storeProgressData") ;;
     argument <- eval (resolve "progressData" env2) ;;
     _ <- call callee "progressData.storeProgressData" [argument] ;;
     ret (VString "Words learned logged successfully."))
    rethrow.

(** [progressData.reduce((sum, data) => sum + data.wordCount, 0)] *)
Definition sum_wordCount (progressData : Value) : Completion Value :=
  match progressData with
  | VArray items =>
      foldl (λ acc data,
               match acc, get data "wordCount" with
               | Return sum, Return n => Return (add sum n)
               | Throw e, _ | _, Throw e => Throw e
               end)
        (Return (VNumber 0%Q)) items
  | VUndefined =>
      Throw (TypeError "Cannot read properties of undefined (reading 'reduce')")
  | _ => Throw (TypeError "progressData.reduce is not a function")
  end.

(** [getMonthlyProgress(language)] *)
Definition getMonthlyProgress (language : Value) : Async Collection Value :=
  try_catch
    (let env0 : Env :=
       [[("today", Uninitialized); ("startOfMonth", Uninitialized);
         ("endOfMonth", Uninitialized); ("progressData", Uninitialized);
         ("totalWordsLearned", Uninitialized);
         ("monthlyGoalData", Uninitialized); ("monthlyGoal", Uninitialized)];
        [("language", Initialized language)];
        module_scope]%string in
     let env1 := initialize "today" (VDate now) env0 in
     let env2 := initialize "startOfMonth" (VDate (start_of_month now)) env1 in
     let env3 := initialize "endOfMonth" (VDate (end_of_month now)) env2 in
     (* const progressData = await progressData.retrieveProgressData({...}) *)
     receiver <- eval (resolve "progressData" env3) ;;
     callee <- eval (get receiver "retrieveProgressData") ;;
     language' <- eval (resolve "language" env3) ;;
     startOfMonth' <- eval (resolve "startOfMonth" env3) ;;
     endOfMonth' <- eval (resolve "endOfMonth" env3) ;;
     found <- call callee "progressData.retrieveProgressData"
                [VObject [("language", language');
                          ("date", VObject [("$gte", startOfMonth');
                                            ("$lte", endOfMonth')])]%string] ;;
     let env4 := initialize "progressData" found env3 in
     (* const totalWordsLearned = progressData.reduce(...) *)
     progressData' <- eval (resolve "progressData" env4) ;;
     total <- eval (sum_wordCount progressData') ;;
     let env5 := initialize "totalWordsLearned" total env4 in
     (* const monthlyGoalData = await progressData.retrieveProgressData({...}) *)
     receiver' <- eval (resolve "progressData" env5) ;;
     callee' <- eval (get receiver' "retrieveProgressData") ;;
     goals <- call callee' "progressData.retrieveProgressData"
                [VObject [("language", language'); ("date", startOfMonth');
                          ("type", VString "monthlyGoal")]%string] ;;
     let env6 := initialize "monthlyGoalData" goals env5 in
     (* const monthlyGoal = monthlyGoalData.length > 0 ? ... : 0 *)
     monthlyGoalData' <- eval (resolve "monthlyGoalData" env6) ;;
     goal <- eval (match monthlyGoalData' with
                   | VArray (first :: _) => get first "wordCount"
                   | _ => Return (VNumber 0%Q)
                   end) ;;
     let env7 := initialize "monthlyGoal" goal env6 in
     totalWordsLearned' <- eval (resolve "totalWordsLearned" env7) ;;
     monthlyGoal' <- eval (resolve "monthlyGoal" env7) ;;
     ret (VObject
            [("totalWordsLearned", totalWordsLearned');
             ("monthlyGoal", monthlyGoal');
             ("progressPercentage",
              multiply (divide totalWordsLearned' monthlyGoal')
                (VNumber 100%Q))]%string))
    rethrow.

(** [setMonthlyGoals(language, wordCount)] *)
Definition setMonthlyGoals (language wordCount : Value)
  : Async Collection Value :=
  try_catch
    (let env0 : Env :=
       [[("today", Uninitialized); ("startOfMonth", Uninitialized);
         ("existingGoal", Uninitialized)];
        [("language", Initialized language);
         ("wordCount", Initialized wordCount)];
        module_scope]%string in
     let env1 := initialize "today" (VDate now) env0 in
     let env2 := initialize "startOfMonth" (VDate (start_of_month now)) env1 in
     receiver <- eval (resolve "progressData" env2) ;;
     callee <- eval (get receiver "retrieveProgressData") ;;
     language' <- eval (resolve "language" env2) ;;
     startOfMonth' <- eval (resolve "startOfMonth" env2) ;;
     found <- call callee "progressData.retrieveProgressData"
                [VObject [("language", language'); ("date", startOfMonth');
                          ("type", VString "monthlyGoal")]%string] ;;
     let env3 := initialize "existingGoal" found env2 in
     existingGoal' <- eval (resolve "existingGoal" env3) ;;
     wordCount' <- eval (resolve "wordCount" env3) ;;
     match existingGoal' with
     | VArray (first :: _) =>
         receiver' <- eval (resolve "progressData" env3) ;;
         callee' <- eval (get receiver' "updateProgressData") ;;
         recordId <- eval (get first "_id") ;;
         _ <- call callee' "progressData.updateProgressData"
                [recordId; VObject [("wordCount", wordCount')]%string] ;;
         ret (VString "Monthly goal updated successfully.")
     | _ =>
         receiver' <- eval (resolve "progressData" env3) ;;
         callee' <- eval (get receiver' "storeProgressData") ;;
         _ <- call callee' "progressData.storeProgressData"
                [VObject [("language", language'); ("date", startOfMonth');
                          ("wordCount", wordCount');
                          ("type", VString "monthlyGoal")]%string] ;;
         ret (VString "Monthly goal set successfully.")
     end)
    rethrow.

End tracker.

End LanguageTracker.

(** ** What a run keeps and establishes *)

Module SyncInvariants.
Import Js Stores Time.

(** Some document of the collection is linked to the calendar event. *)
Definition has_document (event : EventObject) (v : World) : Prop :=
  ∃ k d, events v !! k = Some d ∧ googleEventId d = id_ event.

(** A usable [googleEventId] names an event of the calendar. *)
Definition names_event (v : World) (d : EventObject) : Prop :=
  truthy (googleEventId d) = true →
  ∃ n, googleEventId d = Some n ∧ is_Some (google v !! n).

(** From [v] to [v'] every document stays, with the same [googleEventId]. *)
Definition links_kept (v v' : World) : Prop :=
  ∀ k d, events v !! k = Some d →
    ∃ d', events v' !! k = Some d' ∧ googleEventId d' = googleEventId d.

(** From [w] to [v] every document stays, and its [googleEventId] is the
    same or is that of an event created since. *)
Definition links_kept_or_renewed (w v : World) : Prop :=
  ∀ k d, events w !! k = Some d →
    ∃ d', events v !! k = Some d'
          ∧ (googleEventId d' = googleEventId d
             ∨ ∃ n, googleEventId d' = Some n ∧ google w !! n = None
                    ∧ is_Some (google v !! n)).

(** The documents that were not in [w] name events of the calendar. *)
Definition new_documents_named (w v : World) : Prop :=
  ∀ k d, events v !! k = Some d → events w !! k = None → names_event v d.

(** The documents that [googleEventId] [g] selects. *)
Definition linked_to (g : string) (event : EventObject) : bool :=
  bool_decide (googleEventId event = Some g) && truthy (Some g).

(** Every compared property that the document has, the event has too. *)
Definition covers (googleEvent mongoEvent : EventObject) : Prop :=
  (summary googleEvent = None → summary mongoEvent = None)
  ∧ (start_dateTime googleEvent = None → start_dateTime mongoEvent = None)
  ∧ (end_dateTime googleEvent = None → end_dateTime mongoEvent = None)
  ∧ (description googleEvent = None → description mongoEvent = None).

(** The event or document has an object under [start] and one under
    [end]. *)
Definition has_times (event : EventObject) : Prop :=
  is_Some (start event) ∧ is_Some (end_ event).

(** The first loop writes nothing for the pair: the comparison finds no
    difference, or it throws. *)
Definition quiet (googleEvent mongoEvent : EventObject) : Prop :=
  hasEventChanged googleEvent mongoEvent ≠ Return true.

(** Where the first loop stands when it has gone through the fetched
    events [seen], from the snapshot [w] to [v]: the calendar and the tasks
    are as they were; every document linked to an event of [seen] is quiet
    with it, and there is one for each; the documents of the snapshot are
    there with their link, unchanged unless linked to an event of [seen];
    the documents added since are linked to events of [seen]. *)
Definition settled (seen : list EventObject) (w v : World) : Prop :=
  google v = google w ∧ tasks v = tasks w
  ∧ (∀ k d g, events v !! k = Some d → g ∈ seen →
       googleEventId d = id_ g → quiet g d)
  ∧ (∀ g, g ∈ seen →
       ∃ k d, events v !! k = Some d ∧ googleEventId d = id_ g)
  ∧ (∀ k d0, events w !! k = Some d0 →
       ∃ d, events v !! k = Some d ∧ googleEventId d = googleEventId d0
            ∧ (d = d0 ∨ ∃ g, g ∈ seen ∧ googleEventId d = id_ g))
  ∧ (∀ k d, events v !! k = Some d → events w !! k = None →
       ∃ g, g ∈ seen ∧ googleEventId d = id_ g).

End SyncInvariants.

(** ** [health/fitbit_api.js] *)

Module Fitbit.
Import Js.

(** [s] without the prefix [p], when it has it. *)
Fixpoint strip_prefix (p s : string) : option string :=
  match p with
  | EmptyString => Some s
  | String a p' =>
      match s with
      | String b s' => if Ascii.eqb a b then strip_prefix p' s' else None
      | EmptyString => None
      end
  end.

(** What [[^&]*] takes at the start of [s]. *)
Fixpoint token (s : string) : string :=
  match s with
  | EmptyString => EmptyString
  | String c s' =>
      if Ascii.eqb c "&"%char then EmptyString else String c (token s')
  end.

(** The regular expression [/#access_token=([^&]+)/] tried at the start of
    [s]: the captured group. *)
Definition match_here (s : string) : option string :=
  match strip_prefix "#access_token=" s with
  | Some rest => if String.eqb (token rest) "" then None else Some (token rest)
  | None => None
  end.

(** [extractAccessToken(redirectUrl)]: the group of the leftmost match, or
    [null]. *)
Fixpoint extractAccessToken (redirectUrl : string) : option string :=
  match match_here redirectUrl with
  | Some t => Some t
  | None =>
      match redirectUrl with
      | EmptyString => None
      | String _ rest => extractAccessToken rest
      end
  end.

(** Whether the character [c] occurs in [s]. *)
Fixpoint contains (c : Ascii.ascii) (s : string) : bool :=
  match s with
  | EmptyString => false
  | String b s' => Ascii.eqb c b || contains c s'
  end.

(** The module variable [accessToken] and the requests sent through the
    client, as [(path, token)], oldest first. *)
Record State : Type := mkState {
  accessToken : option string;
  requests : list (string * string);
}.

(** [setAccessToken(token)] *)
Definition setAccessToken (token : option string) : Async State unit :=
  λ st, (Return tt, mkState token (requests st)).

Definition not_authenticated : Exception :=
  Error "Fitbit API not authenticated.".

Section client.

(** The answer of the Fitbit service to [client.get(path, token)]: the
    array it resolves with, or the error it rejects with. *)
Variable Response : Type.
Variable client_get : string → string → Completion (list Response).

(** [fetchSleepData(date)]: [response[0]], which is [undefined] ([None])
    for an empty array. *)
Definition fetchSleepData (date : string) : Async State (option Response) :=
  try_catch
    (λ st,
       match accessToken st with
       | Some token =>
           if truthy (Some token)
           then
             let path := "/1.2/user/-/sleep/date/" +:+ date +:+ ".json" in
             (match client_get path token with
              | Return response => Return (head response)
              | Throw e => Throw e
              end,
              mkState (accessToken st) (requests st ++ [(path, token)]))
           else (Throw not_authenticated, st)
       | None => (Throw not_authenticated, st)
       end)
    rethrow.

End client.

End Fitbit.

(** ** The goal of the month in the [progress] collection *)

Module ProgressStore.
Import Js LanguageTracker.

(** The query by which [setMonthlyGoals] and [getMonthlyProgress] look for
    the goal of the month. *)
Definition goal_query (language : Value) (startOfMonth : Z) : Value :=
  VObject [("language", language); ("date", VDate startOfMonth);
           ("type", VString "monthlyGoal")]%string.

(** A document as the driver stores it: an object with an [ObjectId]
    under [_id]. *)
Definition is_document (doc : Value) : bool :=
  match doc with
  | VObject properties =>
      match assoc "_id" properties with
      | Some (VObjectId _) => true
      | _ => false
      end
  | _ => false
  end.

(** Equality of two strings or two dates. *)
Definition same_scalar (a b : Value) : bool :=
  match a, b with
  | VString x, VString y => String.eqb x y
  | VDate x, VDate y => Z.eqb x y
  | _, _ => false
  end.

(** A query of strings and dates: the documents that have these values
    under these keys. *)
Definition equal_fields (query doc : Value) : bool :=
  match query with
  | VObject conditions =>
      forallb (λ condition,
                 match get doc (fst condition) with
                 | Return v => same_scalar v (snd condition)
                 | Throw _ => false
                 end)
        conditions
  | _ => false
  end.

(** [updateProgressData(recordId, { wordCount })] on one document. *)
Definition updated (recordId wordCount doc : Value) : Value :=
  if same_id recordId doc
  then set_properties (VObject [("wordCount", wordCount)]%string) doc
  else doc.

Section goals.

Variable now : Z.
Variable start_of_month : Z → Z.
Variable matches : Value → Value → bool.

(** A document that has the language, the date and the type of the goal
    query is found by it. *)
Definition finds_goals : Prop :=
  ∀ (language : string) doc,
    get doc "language" = Return (VString language) →
    get doc "date" = Return (VDate (start_of_month now)) →
    get doc "type" = Return (VString "monthlyGoal") →
    matches (goal_query (VString language) (start_of_month now)) doc = true.

(** Whether the goal query finds a document depends on these three
    properties only. *)
Definition looks_at_query_keys : Prop :=
  ∀ language doc doc',
    get doc "language" = get doc' "language" →
    get doc "date" = get doc' "date" →
    get doc "type" = get doc' "type" →
    matches (goal_query language (start_of_month now)) doc
    = matches (goal_query language (start_of_month now)) doc'.

End goals.

End ProgressStore.

(** ** The unscheduled items ([tasks/scheduling_interface.js]) *)

Module SchedulingQueries.
Import Js Stores.

(** The query [{ scheduled: false }]: the documents whose [scheduled] is
    [false]; a document without the key is not among them. *)
Definition scheduled_false (task : Task) : bool :=
  bool_decide (scheduled task = Some false).

(** [tasksData.retrieveTasks(query)]: the matching documents, each with its
    [_id]. A read: the stores are as before, and the finds of this module
    are not entered in [calls]. *)
Definition retrieveTasks (query : Task → bool) : M (list (N * Task)) :=
  try_catch
    (λ w, (Return (List.filter (λ kv, query kv.2) (map_to_list (tasks w))), w))
    rethrow.

Section other_collections.

(** The [todos] and [studies] collections are written by no function of
    the scheduling interface: [todos] and [studies] are what the query
    [{ scheduled: false }] finds in them. *)
Variables ToDo Study : Type.
Variable todos : list ToDo.
Variable studies : list Study.

Inductive Item : Type :=
| TaskItem (task : N * Task)
| ToDoItem (todo : ToDo)
| StudyItem (study : Study).

(** [getUnscheduledTasks()] *)
Definition getUnscheduledTasks : M (list Item) :=
  try_catch
    (tasks <- retrieveTasks scheduled_false ;;
     todos' <- ret todos ;;
     studies' <- ret studies ;;
     ret (map TaskItem tasks ++ map ToDoItem todos' ++ map StudyItem studies'))
    rethrow.

End other_collections.

Arguments TaskItem {ToDo Study} task.
Arguments ToDoItem {ToDo Study} todo.
Arguments StudyItem {ToDo Study} study.

End SchedulingQueries.

(** * Properties *)

(** ** Free-time calculator *)

Module FreeTimeProps.
Import FreeTime.

Lemma foldl_loop_body acc cursor events :
  foldl loop_body (acc, cursor) events
  = (acc ++ gaps cursor events, last_cursor cursor events).
Proof.
  revert acc cursor.
  induction events as [|ev rest IH]; intros acc cursor; simpl.
  - by rewrite app_nil_r.
  - rewrite IH. destruct (cursor <? start ev); simpl.
    + by rewrite <- app_assoc.
    + done.
Qed.

Lemma calculateFreeTimeIntervals_unfold now endOfDay events :
  calculateFreeTimeIntervals now endOfDay events
  = let sorted := sort_by_start events in
    gaps now sorted
    ++ (if last_cursor now sorted <? endOfDay
        then [mkInterval (last_cursor now sorted) endOfDay] else []).
Proof.
  unfold calculateFreeTimeIntervals. rewrite foldl_loop_body. simpl.
  destruct (_ <? _); [done | by rewrite app_nil_r].
Qed.

Lemma insert_by_start_least ev l :
  Forall (λ ev', start ev ≤ start ev') l → insert_by_start ev l = ev :: l.
Proof.
  destruct l as [|ev' l']; [done|].
  intros H. apply Forall_cons in H as [H _]. simpl.
  destruct (Z.leb_spec (start ev) (start ev')); [done | lia].
Qed.

(** A stable sort leaves a sorted array as it is. *)
Lemma sort_by_start_sorted events :
  sorted_by_start events → sort_by_start events = events.
Proof.
  induction 1 as [|ev l Hl IH Hev]; [done|].
  unfold sort_by_start in *. simpl. rewrite IH.
  by apply insert_by_start_least.
Qed.

Lemma chained_intro events :
  Forall valid events → sorted_by_start events → non_overlapping events →
  chained events.
Proof.
  intros Hv Hs Hd. induction events as [|ev rest IH]; [done|].
  apply Forall_cons in Hv as [Hev Hv].
  apply StronglySorted_inv in Hs as [Hs Hle].
  inversion Hd as [|? ? Hdis Hd']; subst.
  simpl. split_and!; [done| |by apply IH].
  rewrite Forall_forall in Hv, Hle, Hdis. apply Forall_forall.
  intros ev' Hin.
  specialize (Hv _ Hin). specialize (Hle _ Hin). specialize (Hdis _ Hin).
  unfold valid, disjoint in *. lia.
Qed.

Lemma chained_valid events : chained events → Forall valid events.
Proof.
  induction events as [|ev rest IH]; [done|].
  intros (Hev & _ & Hch). constructor; [done | by apply IH].
Qed.

Lemma total_free_app ivs ivs' :
  total_free (ivs ++ ivs') = total_free ivs + total_free ivs'.
Proof. induction ivs as [|iv ivs IH]; simpl; lia. Qed.

(** Moving the left edge of the window does not change what events
    starting at or after both edges contribute. *)
Lemma total_busy_shift s s' e events :
  Forall (λ ev, s ≤ start ev ∧ s' ≤ start ev) events →
  total_busy s e events = total_busy s' e events.
Proof.
  induction 1 as [|ev l [H1 H2] _ IH]; [done|].
  simpl. rewrite IH. unfold busy_within. lia.
Qed.

Lemma accounting_from_cursor e events : ∀ cursor,
  chained events →
  Forall (λ ev, cursor ≤ end_ ev ∧ start ev ≤ e) events →
  total_free (gaps cursor events
              ++ (if last_cursor cursor events <? e
                  then [mkInterval (last_cursor cursor events) e] else []))
  + total_busy cursor e events
  = 0 `max` (e - cursor).
Proof.
  induction events as [|ev rest IH]; intros cursor Hch Hwin.
  - simpl. destruct (Z.ltb_spec cursor e); simpl; unfold length_of; simpl; lia.
  - destruct Hch as (Hev & Hnext & Hch).
    apply Forall_cons in Hwin as [[Hc He] Hwin].
    assert (Forall (λ ev', end_ ev ≤ end_ ev' ∧ start ev' ≤ e) rest) as Hwin'.
    { pose proof (chained_valid _ Hch) as Hv.
      rewrite Forall_forall in Hnext, Hwin, Hv. apply Forall_forall.
      intros ev' Hin. specialize (Hnext _ Hin). specialize (Hwin _ Hin).
      specialize (Hv _ Hin). unfold valid in Hv. lia. }
    specialize (IH (end_ ev) Hch Hwin').
    assert (total_busy cursor e rest = total_busy (end_ ev) e rest) as Hshift.
    { apply total_busy_shift. rewrite Forall_forall in Hnext.
      apply Forall_forall. intros ev' Hin. specialize (Hnext _ Hin). lia. }
    simpl. rewrite <- app_assoc, total_free_app, Hshift.
    unfold valid in Hev. unfold busy_within.
    destruct (Z.ltb_spec cursor (start ev)); simpl; unfold length_of; simpl; lia.
Qed.

Lemma insert_by_start_Forall (P : Event → Prop) ev l :
  P ev → Forall P l → Forall P (insert_by_start ev l).
Proof.
  intros Hev. induction 1 as [|ev' l' Hev' Hl IH]; simpl.
  - by repeat constructor.
  - destruct (start ev <=? start ev'); by repeat constructor.
Qed.

Lemma sort_by_start_Forall (P : Event → Prop) events :
  Forall P events → Forall P (sort_by_start events).
Proof.
  unfold sort_by_start. induction 1; simpl; [done|].
  by apply insert_by_start_Forall.
Qed.

Lemma insert_by_start_sorted ev l :
  sorted_by_start l → sorted_by_start (insert_by_start ev l).
Proof.
  unfold sorted_by_start.
  induction 1 as [|ev' l' Hl IH Hle]; simpl.
  - by repeat constructor.
  - destruct (Z.leb_spec (start ev) (start ev')).
    + constructor; [by constructor|].
      constructor; [done|].
      eapply Forall_impl; [exact Hle|]. simpl. intros. lia.
    + constructor; [done|].
      apply insert_by_start_Forall; [lia | done].
Qed.

Lemma sort_by_start_is_sorted events : sorted_by_start (sort_by_start events).
Proof.
  unfold sort_by_start. induction events as [|ev l IH]; simpl.
  - constructor.
  - by apply insert_by_start_sorted.
Qed.

(** Every interval the function returns has [start < end], whatever the
    events are: both pushes are guarded by a strict comparison. *)
Lemma free_intervals_positive now endOfDay events :
  Forall (λ iv, ivStart iv < ivEnd iv)
    (calculateFreeTimeIntervals now endOfDay events).
Proof.
  rewrite calculateFreeTimeIntervals_unfold. simpl.
  generalize (sort_by_start events). intros l. revert now.
  induction l as [|ev rest IH]; intros cursor; simpl.
  - destruct (Z.ltb_spec cursor endOfDay); by repeat constructor.
  - rewrite <- app_assoc. apply Forall_app. split; [|apply IH].
    destruct (Z.ltb_spec cursor (start ev)); by repeat constructor.
Qed.

Lemma gaps_lower_bound m endOfDay events : ∀ cursor,
  m ≤ cursor → Forall valid events → Forall (λ ev, m ≤ start ev) events →
  Forall (λ iv, m ≤ ivStart iv)
    (gaps cursor events
     ++ (if last_cursor cursor events <? endOfDay
         then [mkInterval (last_cursor cursor events) endOfDay] else [])).
Proof.
  induction events as [|ev rest IH]; intros cursor Hm Hv Hlow; simpl.
  - destruct (_ <? _); by repeat constructor.
  - apply Forall_cons in Hv as [Hev Hv]. apply Forall_cons in Hlow as [Hs Hlow].
    rewrite <- app_assoc. apply Forall_app. split.
    + destruct (_ <? _); by repeat constructor.
    + apply IH; [unfold valid in Hev; lia | done | done].
Qed.

(** With valid events the returned intervals are in ascending order and do
    not overlap each other, overlapping events or not. *)
Lemma free_intervals_ordered now endOfDay events :
  Forall valid events →
  StronglySorted (λ a b, ivEnd a ≤ ivStart b)
    (calculateFreeTimeIntervals now endOfDay events).
Proof.
  intros Hv. rewrite calculateFreeTimeIntervals_unfold. simpl.
  pose proof (sort_by_start_is_sorted events) as Hs.
  apply sort_by_start_Forall in Hv.
  revert Hv Hs. generalize (sort_by_start events). intros l. revert now.
  induction l as [|ev rest IH]; intros cursor Hv Hs; simpl.
  - destruct (_ <? _); by repeat constructor.
  - apply Forall_cons in Hv as [Hev Hv].
    apply StronglySorted_inv in Hs as [Hs Hle].
    rewrite <- app_assoc.
    destruct (Z.ltb_spec cursor (start ev)); simpl; [|by apply IH].
    constructor; [by apply IH|]. simpl.
    apply gaps_lower_bound; [unfold valid in Hev; lia | done | done].
Qed.

(** A busy event that ends before the reference start pulls the cursor
    back to its end, and the free time then begins in the past. *)
Example calculateFreeTimeIntervals_event_before_start :
  calculateFreeTimeIntervals 5 10 [mkEvent 1 2] = [mkInterval 2 10].
Proof. reflexivity. Qed.

(** C1, on the code. With nested busy events the loop sets
    [currentFreeTimeStart] to the end of each event in turn, so the cursor
    goes from 14 back to 12, and the interval from 12 to 13 that is then
    returned as free lies inside the busy event from 10 to 14. *)
Theorem calculateFreeTimeIntervals_cursor_goes_back :
  let events := [mkEvent 10 14; mkEvent 11 12; mkEvent 13 15] in
  Forall valid events
  ∧ cursor_trace 9 events = [9; 14; 12; 15]
  ∧ calculateFreeTimeIntervals 9 24 events
    = [mkInterval 9 10; mkInterval 12 13; mkInterval 15 24]
  ∧ overlaps (mkInterval 12 13) (mkEvent 10 14) = true.
Proof.
  simpl. split_and!; try reflexivity.
  repeat constructor; unfold valid; simpl; lia.
Qed.

(** C2 as stated fails: a busy event that starts after the end of the day
    is not clipped, so the free interval before it runs past the window. *)
Lemma free_time_accounting_unrestricted_fails :
  ¬ (∀ (B : list Event) (s e : Z),
       Forall valid B → sorted_by_start B → non_overlapping B → s < e →
       total_free (calculateFreeTimeIntervals s e B) + total_busy s e B
       = e - s).
Proof.
  intros H.
  assert (total_free (calculateFreeTimeIntervals 5 24 [mkEvent 25 30])
          + total_busy 5 24 [mkEvent 25 30] = 24 - 5) as Habs.
  { apply H; [repeat constructor.. | lia]. }
  vm_compute in Habs. discriminate Habs.
Qed.

(** C2, amended. For busy events that are valid, sorted by start and
    pairwise disjoint, none of which ends before the reference start [s] or
    starts after the day end [e], the free intervals and the parts of the
    busy events inside [[s, e)] add up to [e - s]. *)
Theorem free_time_accounting (B : list Event) (s e : Z) :
  Forall valid B → sorted_by_start B → non_overlapping B → s < e →
  Forall (λ ev, s ≤ end_ ev ∧ start ev ≤ e) B →
  total_free (calculateFreeTimeIntervals s e B) + total_busy s e B = e - s.
Proof.
  intros Hv Hs Hd Hse Hwin.
  rewrite calculateFreeTimeIntervals_unfold. simpl.
  rewrite sort_by_start_sorted by done.
  rewrite accounting_from_cursor; [lia | by apply chained_intro | done].
Qed.

Lemma free_time_accounting_witness :
  total_free (calculateFreeTimeIntervals 9 12 [mkEvent 10 11])
  + total_busy 9 12 [mkEvent 10 11] = 12 - 9.
Proof.
  apply free_time_accounting.
  - repeat constructor.
  - repeat constructor.
  - repeat constructor.
  - lia.
  - repeat constructor; simpl; lia.
Defined.

End FreeTimeProps.

(** ** Completions, loops and lookups *)

Module JsProps.
Import Js.

Lemma bind_run {S A B} (m : Async S A) (k : A → Async S B) w a w' :
  m w = (Return a, w') → bind m k w = k a w'.
Proof. unfold bind. by intros ->. Qed.

Lemma bind_throw {S A B} (m : Async S A) (k : A → Async S B) w e w' :
  m w = (Throw e, w') → bind m k w = (Throw e, w').
Proof. unfold bind. by intros ->. Qed.

Lemma try_catch_return {S A} (m : Async S A) h w a w' :
  m w = (Return a, w') → try_catch m h w = (Return a, w').
Proof. unfold try_catch. by intros ->. Qed.

Lemma try_catch_rethrow {S A} (m : Async S A) w e w' :
  m w = (Throw e, w') → try_catch m rethrow w = (Throw e, w').
Proof. unfold try_catch. by intros ->. Qed.

Lemma existsb_find {A} (f : A → bool) l :
  existsb f l = match List.find f l with Some _ => true | None => false end.
Proof. induction l as [|x l IH]; simpl; [done|]. by destruct (f x). Qed.

End JsProps.

(** ** Reconciliation *)

Module SyncProps.
Import Js Stores Time JsProps.

(** A loop whose body always returns: [I] is kept, and the requests of the
    run are those of the iterations, one group per element. *)
Lemma for_of_run {A} (I : World → Prop) (P : A → list Call → Prop)
    (l : list A) (body : A → M unit) :
  (∀ x w, x ∈ l → I w →
     ∃ w' cs, body x w = (Return tt, w') ∧ I w'
              ∧ calls w' = calls w ++ cs ∧ P x cs) →
  ∀ w, I w →
    ∃ w' css, for_of l body w = (Return tt, w') ∧ I w'
              ∧ calls w' = calls w ++ concat css ∧ Forall2 P l css.
Proof.
  induction l as [|x l IH]; intros Hbody w Hw.
  - exists w, []. simpl. rewrite app_nil_r. by split_and!.
  - destruct (Hbody x w) as (w1 & cs & Hrun & Hw1 & Hcalls & HP);
      [by left | done |].
    destruct (IH (λ y w Hy, Hbody y w (list_elem_of_further _ _ _ Hy)) w1 Hw1)
      as (w2 & css & Hrun' & Hw2 & Hcalls' & HPs).
    exists w2, (cs :: css). simpl.
    rewrite (bind_run _ _ _ _ _ Hrun). split_and!; try done.
    + by rewrite Hcalls', Hcalls, app_assoc.
    + by constructor.
Qed.

(** A loop whose iterations return, or throw before they have changed
    anything. The loop goes through a prefix [seen] of the list: [I] holds
    of the prefix, the requests are those of its iterations, one group per
    element, and either the prefix is the whole list and the loop returns,
    or the iteration of the next element throws and the loop with it. *)
Lemma for_of_trace {A} (I : list A → World → Prop)
    (P : A → list Call → Prop) (l : list A) (body : A → M unit) :
  (∀ seen x rest w, l = seen ++ x :: rest → I seen w →
     (∃ w' cs, body x w = (Return tt, w') ∧ I (seen ++ [x]) w'
               ∧ calls w' = calls w ++ cs ∧ P x cs)
     ∨ (∃ e, body x w = (Throw e, w))) →
  ∀ w, I [] w →
    ∃ r w' seen css,
      for_of l body w = (r, w') ∧ I seen w'
      ∧ calls w' = calls w ++ concat css ∧ Forall2 P seen css
      ∧ ((r = Return tt ∧ seen = l)
         ∨ (∃ e x rest, r = Throw e ∧ l = seen ++ x :: rest
                        ∧ body x w' = (Throw e, w'))).
Proof.
  intros Hbody.
  assert (∀ todo before w, l = before ++ todo → I before w →
            ∃ r w' seen css,
              for_of todo body w = (r, w') ∧ I (before ++ seen) w'
              ∧ calls w' = calls w ++ concat css ∧ Forall2 P seen css
              ∧ ((r = Return tt ∧ seen = todo)
                 ∨ (∃ e x rest, r = Throw e ∧ todo = seen ++ x :: rest
                                ∧ body x w' = (Throw e, w')))) as Hgen.
  { induction todo as [|x todo IH]; intros before w Hl Hw.
    - exists (Return tt), w, [], []. simpl. rewrite !app_nil_r.
      split_and!; try done. by left.
    - destruct (Hbody before x todo w Hl Hw)
        as [(w1 & cs & Hrun & Hw1 & Hcalls & HP)|(e & Hthrow)].
      + destruct (IH (before ++ [x]) w1) as (r & w2 & seen & css & Hrun'
          & Hw2 & Hcalls' & HPs & Hend); [by rewrite <- app_assoc | done |].
        exists r, w2, (x :: seen), (cs :: css). simpl.
        rewrite (bind_run _ _ _ _ _ Hrun).
        rewrite <- app_assoc in Hw2. split_and!; try done.
        * by rewrite Hcalls', Hcalls, app_assoc.
        * by constructor.
        * destruct Hend as [[-> ->]|(e & y & rest & -> & -> & Hthrow)];
            [by left|].
          right. by exists e, y, rest.
      + exists (Throw e), w, [], []. simpl.
        rewrite (bind_throw _ _ _ _ _ Hthrow), !app_nil_r.
        split_and!; try done. right. by exists e, x, todo. }
  intros w Hw. by apply (Hgen l [] w).
Qed.

Lemma new_ObjectId_fresh w : events w !! MongoCalendar.new_ObjectId w = None.
Proof.
  apply not_elem_of_dom. unfold MongoCalendar.new_ObjectId.
  pose proof (is_fresh (dom (events w) ∪ dom (tasks w))). set_solver.
Qed.

Lemma new_google_id_fresh w :
  google w !! fresh (GoogleCalendar.known_ids w) = None.
Proof.
  apply not_elem_of_dom.
  pose proof (is_fresh (GoogleCalendar.known_ids w)) as H.
  unfold GoogleCalendar.known_ids in H at 2. set_solver.
Qed.

(** The ways one iteration of the first loop can go, with what the
    comparison said. *)
Lemma sync_from_google_outcome m x v g :
  _id x = None → id_ x = Some g →
  let copy := with_googleEventId (id_ x) x in
  (∃ ev, m !! g = Some ev ∧ hasEventChanged x ev = Return false
         ∧ sync_from_google m x v = (Return tt, v))
  ∨ (∃ ev, m !! g = Some ev ∧ hasEventChanged x ev = Return true
           ∧ sync_from_google m x v
             = (Return tt,
                record (EventsUpdateOne (_id ev) copy)
                  (mkWorld (google v)
                     (match _id ev with
                      | Some k => alter (set_fields copy) k (events v)
                      | None => events v
                      end) (tasks v) (calls v))))
  ∨ (m !! g = None
     ∧ ∃ k, events v !! k = None
          ∧ sync_from_google m x v
            = (Return tt,
               record (EventsInsertOne k copy)
                 (mkWorld (google v) (<[k := with__id k copy]> (events v))
                    (tasks v) (calls v))))
  ∨ (∃ ev e, m !! g = Some ev ∧ hasEventChanged x ev = Throw e
             ∧ sync_from_google m x v = (Throw e, v)).
Proof.
  intros Hid Hg copy. subst copy. unfold sync_from_google.
  rewrite !Hg. simpl.
  destruct (m !! g) as [ev|] eqn:Hm.
  - destruct (hasEventChanged x ev) as [[]|e] eqn:Hc.
    + right; left. by exists ev.
    + left. by exists ev.
    + right; right; right. by exists ev, e.
  - right; right; left. split; [done|].
    exists (MongoCalendar.new_ObjectId v).
    split; [apply new_ObjectId_fresh|].
    unfold MongoCalendar.insertEvent, bind, try_catch. simpl.
    rewrite Hid. simpl. by rewrite new_ObjectId_fresh.
Qed.

(** What one iteration of the second loop does. *)
Lemma sync_to_google_step gs x w :
  ∃ w' cs, sync_to_google gs x w = (Return tt, w')
    ∧ calls w' = calls w ++ cs ∧ tasks w' = tasks w
    ∧ ((missing_in gs x = false ∧ cs = [] ∧ w' = w)
       ∨ (missing_in gs x = true
          ∧ ∃ newId, cs = [GoogleInsert x newId;
                           EventsUpdateOne (_id x)
                             (with_googleEventId (Some newId) x)]
              ∧ google w !! newId = None
              ∧ google w' = <[newId := details_of x]> (google w)
              ∧ events w' = match _id x with
                            | Some k =>
                                alter (set_fields
                                         (with_googleEventId (Some newId) x))
                                  k (events w)
                            | None => events w
                            end)).
Proof.
  unfold sync_to_google, missing_in. rewrite existsb_find.
  destruct (truthy (googleEventId x)); simpl.
  - destruct (List.find _ gs).
    + exists w, []. rewrite app_nil_r. split_and!; try done. by left.
    + eexists _, _. split; [reflexivity|]. simpl. split_and!.
      * by rewrite <- app_assoc.
      * done.
      * right. split; [done|]. eexists. split_and!; try done.
        apply new_google_id_fresh.
  - exists w, []. rewrite app_nil_r. split_and!; try done. by left.
Qed.

Lemma listed_stored in_window w x :
  x ∈ GoogleCalendar.listed in_window w →
  ∃ k d, x = google_event k d ∧ google w !! k = Some d.
Proof.
  unfold GoogleCalendar.listed. rewrite list_elem_of_In, filter_In.
  intros [Hin _]. apply list_elem_of_In, list_elem_of_fmap in Hin.
  destruct Hin as ([k d] & -> & Hin). apply elem_of_map_to_list in Hin.
  by exists k, d.
Qed.

Lemma listed_no__id in_window w x :
  x ∈ GoogleCalendar.listed in_window w → _id x = None.
Proof. by intros (k & d & -> & _)%listed_stored. Qed.

Lemma listed_id in_window w x :
  x ∈ GoogleCalendar.listed in_window w → ∃ g, id_ x = Some g.
Proof. intros (k & d & -> & _)%listed_stored. by exists k. Qed.

Lemma documents_stored w x :
  x ∈ MongoCalendar.documents w →
  ∃ k d, x = with__id k d ∧ events w !! k = Some d.
Proof.
  unfold MongoCalendar.documents. rewrite list_elem_of_fmap.
  intros ([k d] & -> & Hin). apply elem_of_map_to_list in Hin. by exists k, d.
Qed.

Lemma index_by_googleEventId_lookup l g ev :
  index_by_googleEventId l !! g = Some ev →
  ev ∈ l ∧ truthy (googleEventId ev) = true.
Proof.
  unfold index_by_googleEventId.
  assert (∀ acc : gmap string EventObject,
            (∀ g ev, acc !! g = Some ev →
                     ev ∈ l ∧ truthy (googleEventId ev) = true) →
            ∀ l', l' ⊆ l →
            foldl (λ mongoEventsMap event,
                     match googleEventId event with
                     | Some g =>
                         if truthy (Some g) then <[g := event]> mongoEventsMap
                         else mongoEventsMap
                     | None => mongoEventsMap
                     end) acc l' !! g = Some ev →
            ev ∈ l ∧ truthy (googleEventId ev) = true) as Hgen.
  { intros acc Hacc l'. revert acc Hacc.
    induction l' as [|x l' IH]; intros acc Hacc Hsub; simpl.
    - apply Hacc.
    - apply IH; [|intros y Hy; apply Hsub; by right].
      intros g' ev'. destruct (googleEventId x) as [gx|] eqn:Hgx; [|apply Hacc].
      destruct (truthy (Some gx)) eqn:Ht; simpl in Ht |- *; rewrite Ht;
        [|apply Hacc].
      rewrite lookup_insert. case_decide as Hg; [|apply Hacc].
      intros [= <-]. split; [apply Hsub; by left | by rewrite Hgx]. }
  apply (Hgen ∅); [by intros ? ?; rewrite lookup_empty | done].
Qed.

(** A run whose two loops return: it returns with the world the second
    loop leaves. *)
Lemma syncEvents_run in_window w w1 w2 :
  let googleEvents := GoogleCalendar.listed in_window w in
  let mongoEvents := MongoCalendar.documents w in
  for_of googleEvents (sync_from_google (index_by_googleEventId mongoEvents))
    (record EventsFind (record GoogleList w)) = (Return tt, w1) →
  for_of mongoEvents (sync_to_google googleEvents) w1 = (Return tt, w2) →
  syncEvents in_window w = (Return tt, w2).
Proof.
  intros googleEvents mongoEvents Hrun1 Hrun2. unfold syncEvents.
  erewrite bind_run; [reflexivity|].
  apply try_catch_return.
  unfold GoogleCalendar.authenticate.
  do 3 (erewrite bind_run by reflexivity).
  erewrite bind_run by exact Hrun1.
  exact Hrun2.
Qed.

(** A run whose first loop throws: the exception is caught, the second
    loop is not entered, and the run returns with the world the first loop
    left. *)
Lemma syncEvents_aborted in_window w w1 e :
  let googleEvents := GoogleCalendar.listed in_window w in
  let mongoEvents := MongoCalendar.documents w in
  for_of googleEvents (sync_from_google (index_by_googleEventId mongoEvents))
    (record EventsFind (record GoogleList w)) = (Throw e, w1) →
  syncEvents in_window w = (Return tt, w1).
Proof.
  intros googleEvents mongoEvents Hrun1. unfold syncEvents.
  erewrite bind_run; [reflexivity|].
  unfold try_catch, GoogleCalendar.authenticate.
  do 3 (erewrite bind_run by reflexivity).
  erewrite bind_throw by exact Hrun1. done.
Qed.

(** C6. The requests of a run are the listing of the calendar and the find
    on the collection, then those of the first loop, one group for each
    fetched event it went through, in the order of the fetched list, then
    those of the second loop, one group for each document of the snapshot,
    in order. Either the first loop has gone through all the fetched
    events, or a comparison has thrown at the next one and the second loop
    makes no request at all: the second loop never starts before the first
    is over. What the second loop requests for a document is decided by
    the list fetched at the start: an event that the run creates in the
    calendar is not in that list, and nothing the run has written in
    between enters the test. *)
Theorem syncEvents_passes_in_order (in_window : EventObject → bool)
    (w : World) :
  let googleEvents := GoogleCalendar.listed in_window w in
  let mongoEvents := MongoCalendar.documents w in
  let mongoEventsMap := index_by_googleEventId mongoEvents in
  ∃ w' compared pass2 pass3,
    syncEvents in_window w = (Return tt, w')
    ∧ calls w'
      = calls w ++ [GoogleList; EventsFind] ++ concat pass2 ++ concat pass3
    ∧ Forall2 (first_loop_requests mongoEventsMap) compared pass2
    ∧ ((compared = googleEvents
        ∧ Forall2 (second_loop_requests googleEvents) mongoEvents pass3)
       ∨ (pass3 = []
          ∧ ∃ x rest mongoEvent e,
              googleEvents = compared ++ x :: rest
              ∧ id_ x ≫= (λ k, mongoEventsMap !! k) = Some mongoEvent
              ∧ hasEventChanged x mongoEvent = Throw e)).
Proof.
  intros googleEvents mongoEvents mongoEventsMap.
  set (w0 := record EventsFind (record GoogleList w)).
  destruct (for_of_trace (λ _ _, True) (first_loop_requests mongoEventsMap)
              googleEvents (sync_from_google mongoEventsMap))
    with (w := w0)
    as (r & w1 & compared & pass2 & Hrun1 & _ & Hcalls1 & Hpass2 & Hend);
    [|done|].
  { intros seen x rest v Hl _.
    assert (x ∈ googleEvents) as Hx.
    { rewrite Hl. apply elem_of_app. right. by left. }
    destruct (listed_id _ _ _ Hx) as [g Hg].
    destruct (sync_from_google_outcome mongoEventsMap x v g)
      as [(ev & Hm & Hc & Hrun)|[(ev & Hm & Hc & Hrun)
         |[(Hm & k & Hfresh & Hrun)|(ev & e & Hm & Hc & Hrun)]]];
      [by eapply listed_no__id | done | | | |].
    - left. exists v, []. rewrite app_nil_r. split_and!; try done.
      unfold first_loop_requests. rewrite Hg. simpl. by rewrite Hm, Hc.
    - left. eexists _, _. split; [exact Hrun|]. split_and!; try done.
      unfold first_loop_requests. rewrite Hg. simpl. by rewrite Hm, Hc.
    - left. eexists _, _. split; [exact Hrun|]. split_and!; try done.
      unfold first_loop_requests. rewrite Hg. simpl. rewrite Hm.
      by exists k.
    - right. by exists e. }
  destruct Hend as [[-> ->]|(e & x & rest & -> & Hl & Hthrow)].
  - destruct (for_of_run (λ _, True) (second_loop_requests googleEvents)
                mongoEvents (sync_to_google googleEvents))
      with (w := w1) as (w2 & pass3 & Hrun2 & _ & Hcalls2 & Hpass3); [|done|].
    { intros x v Hx _.
      destruct (sync_to_google_step googleEvents x v)
        as (v' & cs & Hrun & Hcalls & _ & Hcs).
      exists v', cs. split_and!; try done.
      unfold second_loop_requests.
      destruct Hcs as [(-> & -> & _)|(-> & newId & -> & _)];
        [done | by exists newId]. }
    exists w2, googleEvents, pass2, pass3. split_and!.
    + by apply (syncEvents_run in_window w w1 w2).
    + rewrite Hcalls2, Hcalls1. unfold w0. simpl. by rewrite <- !app_assoc.
    + done.
    + by left.
  - exists w1, compared, pass2, []. split_and!.
    + by apply (syncEvents_aborted in_window w w1 e).
    + rewrite Hcalls1. unfold w0. simpl. by rewrite <- !app_assoc, app_nil_r.
    + done.
    + right. split; [done|].
      assert (x ∈ googleEvents) as Hx.
      { rewrite Hl. apply elem_of_app. right. by left. }
      destruct (listed_id _ _ _ Hx) as [g Hg].
      destruct (sync_from_google_outcome mongoEventsMap x w1 g)
        as [(ev & Hm & Hc & Hrun)|[(ev & Hm & Hc & Hrun)
           |[(Hm & k & Hfresh & Hrun)|(ev & e' & Hm & Hc & Hrun)]]];
        [by eapply listed_no__id | done | | | |]; try congruence.
      exists x, rest, ev, e. split_and!; [done | |].
      * rewrite Hg. simpl. exact Hm.
      * congruence.
Qed.

(** C8. A document without a usable [googleEventId] is the same after a
    run, and no request of the run writes to it, deletes it or sends it to
    the calendar. *)
Theorem syncEvents_skips_unlinked (in_window : EventObject → bool)
    (w : World) (key : N) (doc : EventObject) :
  events w !! key = Some doc →
  truthy (googleEventId doc) = false →
  ∃ w', syncEvents in_window w = (Return tt, w')
    ∧ events w' !! key = Some doc
    ∧ Forall (λ c, targets key doc c = false)
        (drop (length (calls w)) (calls w')).
Proof.
  intros Hdoc Hunlinked.
  set (googleEvents := GoogleCalendar.listed in_window w).
  set (mongoEvents := MongoCalendar.documents w).
  set (mongoEventsMap := index_by_googleEventId mongoEvents).
  set (w0 := record EventsFind (record GoogleList w)).
  (* a linked document of the snapshot is stored under another key *)
  assert (∀ x, x ∈ mongoEvents → truthy (googleEventId x) = true →
               _id x ≠ Some key ∧ x ≠ with__id key doc) as Hother.
  { intros x Hx Ht. apply documents_stored in Hx as (k & d & -> & Hd).
    assert (k ≠ key) as Hk.
    { intros ->. rewrite Hdoc in Hd. injection Hd as <-.
      simpl in Ht. congruence. }
    split; [simpl; congruence|]. intros Heq.
    apply (f_equal _id) in Heq. simpl in Heq. congruence. }
  set (I := λ v : World, events v !! key = Some doc).
  set (P := λ (_ : EventObject) (cs : list Call),
              Forall (λ c, targets key doc c = false) cs).
  destruct (for_of_trace (λ _, I) P googleEvents
              (sync_from_google mongoEventsMap))
    with (w := w0)
    as (r & w1 & compared & pass2 & Hrun1 & Hw1 & Hcalls1 & Hpass2 & Hend);
    [|done|].
  { intros seen x rest v Hl Hv.
    assert (x ∈ googleEvents) as Hx.
    { rewrite Hl. apply elem_of_app. right. by left. }
    destruct (listed_id _ _ _ Hx) as [g Hg].
    destruct (sync_from_google_outcome mongoEventsMap x v g)
      as [(ev & Hm & Hc & Hrun)|[(ev & Hm & Hc & Hrun)
         |[(Hm & k & Hfresh & Hrun)|(ev & e & Hm & Hc & Hrun)]]];
      [by eapply listed_no__id | done | | | |].
    - left. exists v, []. rewrite app_nil_r. unfold I, P in *.
      by split_and!.
    - left. eexists _, _. split; [exact Hrun|]. unfold I, P in *.
      apply index_by_googleEventId_lookup in Hm as [Hin Ht].
      destruct (Hother _ Hin Ht) as [Hne _].
      simpl. split_and!; try done.
      + destruct (_id ev) as [k|]; [|done].
        rewrite lookup_alter_ne; [done | congruence].
      + repeat constructor. simpl. by apply bool_decide_eq_false.
    - left. eexists _, _. split; [exact Hrun|]. unfold I, P in *.
      assert (k ≠ key) by congruence.
      simpl. rewrite lookup_insert_ne by done. split_and!; try done.
      repeat constructor. simpl. by apply bool_decide_eq_false.
    - right. by exists e. }
  assert (Forall (λ c, targets key doc c = false) (concat pass2)) as Hquiet2.
  { apply Forall_concat. clear -Hpass2. induction Hpass2; by constructor. }
  destruct Hend as [[-> ->]|(e & x & rest & -> & Hl & Hthrow)].
  - destruct (for_of_run I P mongoEvents (sync_to_google googleEvents))
      with (w := w1) as (w2 & pass3 & Hrun2 & Hw2 & Hcalls2 & Hpass3);
      [|done|].
    { intros x v Hx Hv.
      destruct (sync_to_google_step googleEvents x v)
        as (v' & cs & Hrun & Hcalls & _ & Hcs).
      exists v', cs. unfold I, P in *.
      destruct Hcs as [(_ & -> & ->)|(Hmiss & newId & -> & _ & _ & Hev)].
      - by split_and!.
      - unfold missing_in in Hmiss. apply andb_true_iff in Hmiss as [Ht _].
        destruct (Hother _ Hx Ht) as [Hne Hne'].
        split_and!; try done.
        + rewrite Hev. destruct (_id x) as [k|]; [|done].
          rewrite lookup_alter_ne; [done | congruence].
        + repeat constructor; simpl; by apply bool_decide_eq_false. }
    exists w2. split_and!.
    + by apply (syncEvents_run in_window w w1 w2).
    + done.
    + rewrite Hcalls2, Hcalls1. unfold w0. simpl.
      rewrite <- !app_assoc, drop_app_length.
      repeat constructor. apply Forall_app. split; [done|].
      apply Forall_concat. clear -Hpass3. induction Hpass3; by constructor.
  - exists w1. split_and!.
    + by apply (syncEvents_aborted in_window w w1 e).
    + done.
    + rewrite Hcalls1. unfold w0. simpl.
      rewrite <- !app_assoc, drop_app_length. by repeat constructor.
Qed.

Lemma syncEvents_skips_unlinked_witness :
  let doc := mkEventObject None None None (Some "Draft") (Some "2024-05-02T09:00:00Z")
               (Some "2024-05-02T10:00:00Z") None in
  let w := mkWorld
             {[ "g1"%string := mkDetails (Some "A") (Some "2024-05-01T10:00:00Z")
                         (Some "2024-05-01T11:00:00Z") None ]}
             {[ 1%N := doc;
                2%N := mkEventObject None None (Some "g7"%string) (Some "B")
                         (Some "2024-05-03T10:00:00Z")
                         (Some "2024-05-03T11:00:00Z") None ]}
             ∅ [] in
  ∃ w', syncEvents (λ _, true) w = (Return tt, w')
    ∧ events w' !! 1%N = Some doc
    ∧ Forall (λ c, targets 1%N doc c = false)
        (drop (length (calls w)) (calls w')).
Proof.
  intros doc w.
  apply (syncEvents_skips_unlinked (λ _, true) w 1%N doc); reflexivity.
Defined.

(** A linked document whose event lies outside the fetched window (here a
    document as [insertEvent] writes it, without the key [id]) is taken for
    missing: each run creates one more event for it in the calendar. *)
Example syncEvents_outside_window :
  let past := mkDetails (Some "A") (Some "2020-01-01T10:00:00Z")
                (Some "2020-01-01T11:00:00Z") None in
  let w := mkWorld {[ "g1"%string := past ]}
             {[ 1%N := mkEventObject None None (Some "g1"%string) (Some "A")
                         (Some "2020-01-01T10:00:00Z")
                         (Some "2020-01-01T11:00:00Z") None ]}
             ∅ [] in
  let w1 := (syncEvents (λ _, false) w).2 in
  let w2 := (syncEvents (λ _, false) w1).2 in
  size (google w) = 1%nat ∧ size (google w1) = 2%nat
  ∧ size (google w2) = 3%nat.
Proof. vm_compute. by split_and!. Qed.

(** A linked document without a [start] object stops the run: the
    comparison with its event throws once the summaries agree, the
    exception is caught, and the events listed after it get no document
    in this run. *)
Example syncEvents_stops_at_throw :
  let w := mkWorld
             {[ "g1"%string := mkDetails (Some "A") (Some "2024-05-01T10:00:00Z")
                         (Some "2024-05-01T11:00:00Z") None;
                "g2"%string := mkDetails (Some "B") (Some "2024-05-02T10:00:00Z")
                         (Some "2024-05-02T11:00:00Z") None ]}
             {[ 1%N := mkEventObject None None (Some "g1"%string) (Some "A")
                         None None None ]}
             ∅ [] in
  let r := syncEvents (λ _, true) w in
  GoogleCalendar.listed (λ _, true) w
  = [google_event "g1" (mkDetails (Some "A") (Some "2024-05-01T10:00:00Z")
                          (Some "2024-05-01T11:00:00Z") None);
     google_event "g2" (mkDetails (Some "B") (Some "2024-05-02T10:00:00Z")
                          (Some "2024-05-02T11:00:00Z") None)]
  ∧ r.1 = Return tt ∧ events r.2 = events w ∧ plan_of w r.2 = [].
Proof. vm_compute. by split_and!. Qed.

(** C3, on the code. The calendar event has no description and the linked
    document has one. The first run finds a difference and writes the
    event over the document, but [$set] writes only the keys the event
    carries, so the description stays; the second run, on the stores the
    first one left, finds the same difference and plans the same update. *)
Theorem syncEvents_second_run_not_empty :
  let patch := mkEventObject None (Some "g1") (Some "g1") (Some "A")
                 (Some "2024-05-01T10:00:00Z") (Some "2024-05-01T11:00:00Z")
                 None in
  let w := mkWorld
             {[ "g1"%string := mkDetails (Some "A") (Some "2024-05-01T10:00:00Z")
                         (Some "2024-05-01T11:00:00Z") None ]}
             {[ 1%N := mkEventObject None None (Some "g1"%string) (Some "A")
                         (Some "2024-05-01T10:00:00Z")
                         (Some "2024-05-01T11:00:00Z") (Some "notes") ]}
             ∅ [] in
  let w1 := (syncEvents (λ _, true) w).2 in
  let w2 := (syncEvents (λ _, true) w1).2 in
  plan_of w w1 = [EventsUpdateOne (Some 1%N) patch]
  ∧ google w1 = google w
  ∧ description <$> events w1 !! 1%N = Some (Some "notes")
  ∧ plan_of w1 w2 = [EventsUpdateOne (Some 1%N) patch].
Proof. vm_compute. by split_and!. Qed.

End SyncProps.

(** ** Task scheduling *)

Module SchedulingProps.
Import Js Stores JsProps SyncProps SchedulingInterface.

Lemma retrieveTaskById_invalid taskId w :
  ObjectId_isValid taskId = false →
  TasksData.retrieveTaskById taskId w = (Throw invalid_id, w).
Proof. intros H. unfold TasksData.retrieveTaskById. by rewrite H. Qed.

Lemma retrieveTaskById_valid taskId w :
  ObjectId_isValid taskId = true →
  TasksData.retrieveTaskById taskId w
  = (Return (pair (ObjectId taskId) <$> tasks w !! ObjectId taskId),
     record (TasksFindOne (ObjectId taskId)) w).
Proof. intros H. unfold TasksData.retrieveTaskById. by rewrite H. Qed.

Lemma updateTaskData_valid taskId patch w :
  ObjectId_isValid taskId = true →
  TasksData.updateTaskData taskId patch w
  = (Return tt,
     record (TasksUpdateOne (ObjectId taskId) patch)
       (mkWorld (google w) (events w)
          (alter (set_task_fields patch) (ObjectId taskId) (tasks w))
          (calls w))).
Proof. intros H. unfold TasksData.updateTaskData. by rewrite H. Qed.

Lemma insertEvent_fresh eventData w :
  _id eventData = None →
  MongoCalendar.insertEvent eventData w
  = (Return (MongoCalendar.new_ObjectId w),
     record (EventsInsertOne (MongoCalendar.new_ObjectId w) eventData)
       (mkWorld (google w)
          (<[MongoCalendar.new_ObjectId w
             := with__id (MongoCalendar.new_ObjectId w) eventData]> (events w))
          (tasks w) (calls w))).
Proof.
  intros Hid. unfold MongoCalendar.insertEvent, try_catch.
  rewrite Hid. simpl. by rewrite new_ObjectId_fresh.
Qed.

Lemma call_member_exported {A} object exports name (f : M A) :
  name ∈ exports → call_member object exports name f = f.
Proof. intros H. unfold call_member. by rewrite bool_decide_eq_true_2. Qed.

Lemma call_member_missing {A} object exports name (f : M A) :
  name ∉ exports →
  call_member object exports name f
  = throw (TypeError (object +:+ "." +:+ name +:+ " is not a function")).
Proof. intros H. unfold call_member. by rewrite bool_decide_eq_false_2. Qed.

Lemma known_ids_task w key task old :
  tasks w !! key = Some task → calendarEventId task = Some old →
  old ∈ GoogleCalendar.known_ids w.
Proof.
  intros Hk Hold. unfold GoogleCalendar.known_ids.
  apply elem_of_union_r, elem_of_list_to_set, list_elem_of_omap.
  exists (key, task). split; [by apply elem_of_map_to_list | done].
Qed.

(** C4 as stated fails: an identifier that [ObjectId.isValid] refuses
    (neither 24 hexadecimal digits nor 12 characters) names no task, and
    [scheduleTask] rejects it with the error of the identifier check, not
    with the not-found error. *)
Lemma scheduleTask_malformed_id_not_NotFound :
  ¬ (∀ (w : World) (taskId : string) (slot : TimeSlot) (timeZone : string),
       ¬ existing_task w taskId →
       (scheduleTask (λ t _, t) taskId slot timeZone w).1
       = Throw (not_found taskId)).
Proof.
  intros H.
  specialize (H (mkWorld ∅ ∅ ∅ []) "task-42"%string (mkTimeSlot "" "") ""%string).
  assert (¬ existing_task (mkWorld ∅ ∅ ∅ []) "task-42") as Hno.
  { intros [Hvalid _]. vm_compute in Hvalid. done. }
  specialize (H Hno). vm_compute in H. done.
Qed.

(** C4, amended. For an identifier that names no task, [scheduleTask]
    throws: the not-found error when [ObjectId.isValid] accepts the
    identifier (24 hexadecimal digits, or any 12 characters), the error of
    the identifier check when it does not. In both cases the calendar, the
    events and the tasks are as before, and the only request made is the
    lookup of the task (none for an identifier that the check refuses). *)
Theorem scheduleTask_unknown_task (utc_format : string → string → string)
    (w : World) (taskId : string) (slot : TimeSlot) (timeZone : string) :
  ¬ existing_task w taskId →
  ∃ w', scheduleTask utc_format taskId slot timeZone w
        = (Throw (if ObjectId_isValid taskId then not_found taskId
                  else invalid_id), w')
    ∧ google w' = google w ∧ events w' = events w ∧ tasks w' = tasks w
    ∧ calls w' = calls w ++ (if ObjectId_isValid taskId
                             then [TasksFindOne (ObjectId taskId)] else []).
Proof.
  intros Hno. unfold scheduleTask.
  destruct (ObjectId_isValid taskId) eqn:Hvalid.
  - assert (tasks w !! ObjectId taskId = None) as Hnone.
    { apply eq_None_not_Some. intros Hsome. by apply Hno. }
    eexists. split.
    + apply try_catch_rethrow. erewrite bind_run.
      2:{ by apply retrieveTaskById_valid. }
      rewrite Hnone. reflexivity.
    + done.
  - exists w. split.
    + apply try_catch_rethrow. apply bind_throw.
      by apply retrieveTaskById_invalid.
    + by rewrite app_nil_r.
Qed.

Lemma scheduleTask_unknown_task_witness :
  let w := mkWorld ∅ ∅ {[ 1%N := mkTask "Write report" 2 None None ]} [] in
  ∃ w', scheduleTask (λ t _, t) "000000000000000000000002"
          (mkTimeSlot "2024-05-01T10:00:00" "2024-05-01T12:00:00") "UTC" w
        = (Throw (not_found "000000000000000000000002"), w')
    ∧ google w' = google w ∧ events w' = events w ∧ tasks w' = tasks w
    ∧ calls w' = calls w ++ [TasksFindOne 2%N].
Proof.
  intros w.
  apply (scheduleTask_unknown_task (λ t _, t) w "000000000000000000000002").
  intros [_ [task Htask]]. vm_compute in Htask. discriminate Htask.
Defined.

(** An identifier of 12 characters passes the check whatever the
    characters are: the task is looked up under the [ObjectId] made of
    their 12 bytes, and the error is the not-found one. *)
Example scheduleTask_twelve_characters :
  let w := mkWorld ∅ ∅ {[ 1%N := mkTask "Write report" 2 None None ]} [] in
  ObjectId_isValid "task-42abcde" = true
  ∧ scheduleTask (λ t _, t) "task-42abcde"
      (mkTimeSlot "2024-05-01T10:00:00" "2024-05-01T12:00:00") "UTC" w
    = (Throw (not_found "task-42abcde"),
       record (TasksFindOne (ObjectId "task-42abcde")) w).
Proof. split; reflexivity. Qed.

(** C10. [scheduleTask] does not look at whether the task is scheduled.
    For every existing task the call returns, a new event [newId] enters
    the calendar and a new document the collection, every event and
    document that was there stays (so does the one the task was linked
    to), and the task's [calendarEventId] becomes [newId], which differs
    from the one it held. *)
Theorem scheduleTask_schedules_again (utc_format : string → string → string)
    (w : World) (taskId : string) (slot : TimeSlot) (timeZone : string)
    (task : Task) :
  ObjectId_isValid taskId = true →
  tasks w !! ObjectId taskId = Some task →
  ∃ newId mongoId details doc w',
    scheduleTask utc_format taskId slot timeZone w
    = (Return ("Task scheduled successfully. Calendar Event ID: " +:+ newId),
       w')
    ∧ google w !! newId = None
    ∧ calendarEventId task ≠ Some newId
    ∧ google w' = <[newId := details]> (google w)
    ∧ events w !! mongoId = None
    ∧ googleEventId doc = Some newId
    ∧ events w' = <[mongoId := doc]> (events w)
    ∧ google w ⊆ google w' ∧ events w ⊆ events w'
    ∧ tasks w'
      = <[ObjectId taskId := mkTask (title task) (duration task) (Some true)
                               (Some newId)]> (tasks w).
Proof.
  intros Hvalid Htask.
  set (eventData :=
         mkEventObject None None None (Some (title task))
           (Some (utc_format (slot_start slot) timeZone))
           (Some (utc_format (slot_end slot) timeZone))
           (Some ("Task ID: " +:+ taskId))).
  set (w0 := record (TasksFindOne (ObjectId taskId)) w).
  set (newId := fresh (GoogleCalendar.known_ids w0)).
  set (mongoId := MongoCalendar.new_ObjectId w0).
  exists newId, mongoId, (details_of eventData),
    (with__id mongoId (with_googleEventId (Some newId) eventData)).
  assert (events w !! mongoId = None) as Hfresh by apply (new_ObjectId_fresh w0).
  eexists. split_and!.
  - unfold scheduleTask. apply try_catch_return.
    erewrite bind_run by by apply retrieveTaskById_valid.
    rewrite Htask. simpl.
    rewrite call_member_exported by (unfold Time.exports; set_solver).
    erewrite bind_run.
    2:{ unfold Time.insertEvent. apply try_catch_return.
        unfold GoogleCalendar.authenticate.
        erewrite bind_run by reflexivity.
        erewrite bind_run by reflexivity.
        erewrite bind_run.
        2:{ by apply insertEvent_fresh. }
        reflexivity. }
    erewrite bind_run by by apply updateTaskData_valid.
    reflexivity.
  - apply (new_google_id_fresh w0).
  - intros Hold.
    apply (is_fresh (GoogleCalendar.known_ids w0)).
    by apply (known_ids_task w0 (ObjectId taskId) task).
  - done.
  - done.
  - done.
  - done.
  - simpl. apply insert_subseteq, (new_google_id_fresh w0).
  - simpl. by apply insert_subseteq.
  - simpl. apply map_eq. intros k. rewrite lookup_alter, lookup_insert.
    destruct (decide (ObjectId taskId = k)) as [<-|]; [|done].
    rewrite Htask. unfold set_task_fields. simpl.
    by destruct (scheduled task).
Qed.

Lemma scheduleTask_schedules_again_witness :
  let booked := mkDetails (Some "Write report") (Some "2024-05-01T10:00:00")
                  (Some "2024-05-01T12:00:00")
                  (Some "Task ID: 000000000000000000000001") in
  let w := mkWorld
             {[ "0"%string := booked ]}
             {[ 2%N := with_googleEventId (Some "0"%string)
                         (google_event "0" booked) ]}
             {[ 1%N := mkTask "Write report" 2 (Some true) (Some "0"%string) ]}
             [] in
  ∃ newId mongoId details doc w',
    scheduleTask (λ t _, t) "000000000000000000000001"
      (mkTimeSlot "2024-05-02T10:00:00" "2024-05-02T12:00:00") "UTC" w
    = (Return ("Task scheduled successfully. Calendar Event ID: " +:+ newId),
       w')
    ∧ google w !! newId = None
    ∧ Some "0"%string ≠ Some newId
    ∧ google w' = <[newId := details]> (google w)
    ∧ events w !! mongoId = None
    ∧ googleEventId doc = Some newId
    ∧ events w' = <[mongoId := doc]> (events w)
    ∧ google w ⊆ google w' ∧ events w ⊆ events w'
    ∧ tasks w'
      = <[1%N := mkTask "Write report" 2 (Some true) (Some newId)]> (tasks w).
Proof.
  intros booked w.
  apply (scheduleTask_schedules_again (λ t _, t) w "000000000000000000000001"
           (mkTimeSlot "2024-05-02T10:00:00" "2024-05-02T12:00:00") "UTC"
           (mkTask "Write report" 2 (Some true) (Some "0"%string)));
    reflexivity.
Defined.

(** [unscheduleTask] on a task without a linked event: one write to the
    task, nothing else. *)
Lemma unscheduleTask_not_scheduled (w : World) (taskId : string) (task : Task) :
  ObjectId_isValid taskId = true →
  tasks w !! ObjectId taskId = Some task →
  truthy (calendarEventId task) = false →
  ∃ w', unscheduleTask taskId w = (Return "Task unscheduled successfully.", w')
    ∧ google w' = google w ∧ events w' = events w
    ∧ tasks w'
      = <[ObjectId taskId := mkTask (title task) (duration task) (Some false)
                               None]> (tasks w)
    ∧ Time.plan_of w w'
      = [TasksUpdateOne (ObjectId taskId) (mkTaskPatch (Some false) (Some None))].
Proof.
  intros Hvalid Htask Hfree. eexists. split.
  - unfold unscheduleTask. apply try_catch_return.
    erewrite bind_run by by apply retrieveTaskById_valid.
    rewrite Htask. simpl.
    erewrite bind_run.
    2:{ revert Hfree. destruct (calendarEventId task) as [eventId|];
          [|reflexivity].
        simpl. intros ->. reflexivity. }
    erewrite bind_run by by apply updateTaskData_valid.
    reflexivity.
  - simpl. split_and!; try done.
    + apply map_eq. intros k. rewrite lookup_alter, lookup_insert.
      destruct (decide (ObjectId taskId = k)) as [<-|]; [|done].
      rewrite Htask. unfold set_task_fields. simpl.
      by destruct (scheduled task).
    + unfold Time.plan_of. simpl.
      rewrite <- app_assoc, drop_app_length. reflexivity.
Qed.

(** [unscheduleTask] on a task with a linked event: the event leaves the
    calendar, and the collection is asked to delete the document whose
    [_id] is the task's, so the documents stay as they are unless one of
    them has that [_id]. *)
Lemma unscheduleTask_linked (w : World) (taskId eventId : string) (task : Task)
    (details : Details) :
  ObjectId_isValid taskId = true →
  tasks w !! ObjectId taskId = Some task →
  calendarEventId task = Some eventId → eventId ≠ ""%string →
  google w !! eventId = Some details →
  ∃ w', unscheduleTask taskId w = (Return "Task unscheduled successfully.", w')
    ∧ google w' = delete eventId (google w)
    ∧ events w' = delete (ObjectId taskId) (events w)
    ∧ Time.plan_of w w'
      = [GoogleDelete eventId; EventsDeleteOne (ObjectId taskId);
         TasksUpdateOne (ObjectId taskId) (mkTaskPatch (Some false) (Some None))].
Proof.
  intros Hvalid Htask Hlink Hne Hthere. eexists. split.
  - unfold unscheduleTask. apply try_catch_return.
    erewrite bind_run by by apply retrieveTaskById_valid.
    rewrite Htask. simpl. rewrite Hlink.
    assert (negb (eventId =? "")%string = true) as ->.
    { apply negb_true_iff, String.eqb_neq. done. }
    rewrite call_member_exported by (unfold Time.exports; set_solver).
    erewrite bind_run.
    2:{ unfold Time.deleteEvent. apply try_catch_return.
        unfold GoogleCalendar.authenticate.
        erewrite bind_run by reflexivity.
        erewrite bind_run.
        2:{ unfold GoogleCalendar.deleteEvent. simpl. rewrite Hthere.
            reflexivity. }
        reflexivity. }
    erewrite bind_run by by apply updateTaskData_valid.
    reflexivity.
  - simpl. split_and!; try done.
    unfold Time.plan_of. simpl.
    rewrite <- !app_assoc, drop_app_length. reflexivity.
Qed.

(** C5, on the code. A task is scheduled and then unscheduled. The event
    leaves the calendar and the task is reset, but the request to the
    collection names the task's [_id], not the document's, and the document
    of the event is still there. *)
Theorem unscheduleTask_leaves_event_document :
  let taskId := "000000000000000000000001"%string in
  let w0 := mkWorld ∅ ∅ {[ 1%N := mkTask "Write report" 2 None None ]} [] in
  let w1 := (scheduleTask (λ t _, t) taskId
               (mkTimeSlot "2024-05-01T10:00:00" "2024-05-01T12:00:00")
               "UTC" w0).2 in
  let r := unscheduleTask taskId w1 in
  calendarEventId <$> tasks w1 !! 1%N = Some (Some "0"%string)
  ∧ is_Some (google w1 !! "0"%string)
  ∧ googleEventId <$> events w1 !! 2%N = Some (Some "0"%string)
  ∧ r.1 = Return "Task unscheduled successfully."%string
  ∧ google r.2 !! "0"%string = None
  ∧ tasks r.2 !! 1%N = Some (mkTask "Write report" 2 (Some false) None)
  ∧ Time.plan_of w1 r.2
    = [GoogleDelete "0"; EventsDeleteOne 1%N;
       TasksUpdateOne 1%N (mkTaskPatch (Some false) (Some None))]
  ∧ events r.2 = events w1
  ∧ googleEventId <$> events r.2 !! 2%N = Some (Some "0"%string).
Proof. vm_compute. split_and!; try done. by eexists. Qed.

Lemma suggestedTimeSlots_spec (task : Task)
    (freeTimeIntervals : list FreeTime.Interval) (interval : FreeTime.Interval) :
  interval ∈ suggestedTimeSlots task freeTimeIntervals
  ↔ interval ∈ freeTimeIntervals
    ∧ (duration task * 60 * 60 * 1000
       ≤ FreeTime.ivEnd interval - FreeTime.ivStart interval)%Z.
Proof.
  unfold suggestedTimeSlots, long_enough.
  rewrite !list_elem_of_In, filter_In, Z.leb_le. done.
Qed.

Lemma suggestedTimeSlots_in_order (task : Task)
    (freeTimeIntervals : list FreeTime.Interval) :
  sublist (suggestedTimeSlots task freeTimeIntervals) freeTimeIntervals.
Proof.
  unfold suggestedTimeSlots.
  induction freeTimeIntervals as [|iv l IH]; simpl; [done|].
  destruct (long_enough task iv); by constructor.
Qed.

Example suggestedTimeSlots_two_hours :
  let hour := (60 * 60 * 1000)%Z in
  suggestedTimeSlots (mkTask "Write report" 2 None None)
    [FreeTime.mkInterval (9 * hour) (10 * hour);
     FreeTime.mkInterval (9 * hour) (13 * hour)]
  = [FreeTime.mkInterval (9 * hour) (13 * hour)].
Proof. reflexivity. Qed.

(** [suggestTimeSlots] on an existing task: the call of
    [timeModule.fetchEvents] throws, whatever the calendar holds. *)
Lemma suggestTimeSlots_existing_task (zone_format : Z → string → string)
    (now endOfDay : Z) (Date_of : option string → Z)
    (fetchEvents_if_exported : M (list EventObject))
    (w : World) (taskId timeZone : string) (task : Task) :
  ObjectId_isValid taskId = true →
  tasks w !! ObjectId taskId = Some task →
  suggestTimeSlots zone_format now endOfDay Date_of fetchEvents_if_exported
    taskId timeZone w
  = (Throw (TypeError "timeModule.fetchEvents is not a function"),
     record (TasksFindOne (ObjectId taskId)) w).
Proof.
  intros Hvalid Htask. unfold suggestTimeSlots.
  apply try_catch_rethrow.
  erewrite bind_run by by apply retrieveTaskById_valid.
  rewrite Htask. simpl.
  apply bind_throw. rewrite call_member_missing; [done|].
  intros Hin. apply (bool_decide_pack _) in Hin. vm_compute in Hin. done.
Qed.

(** C7, on the code. For a two-hour task of the collection
    [suggestTimeSlots] throws a [TypeError] at [timeModule.fetchEvents],
    which [time/index.js] does not export: the filter on the free intervals
    is never reached and no slot is returned. *)
Theorem suggestTimeSlots_throws_before_filter
    (zone_format : Z → string → string) (now endOfDay : Z)
    (Date_of : option string → Z)
    (fetchEvents_if_exported : M (list EventObject)) (timeZone : string) :
  let w := mkWorld ∅ ∅ {[ 1%N := mkTask "Write report" 2 None None ]} [] in
  suggestTimeSlots zone_format now endOfDay Date_of fetchEvents_if_exported
    "000000000000000000000001" timeZone w
  = (Throw (TypeError "timeModule.fetchEvents is not a function"),
     record (TasksFindOne 1%N) w).
Proof.
  intros w.
  by apply (suggestTimeSlots_existing_task _ _ _ _ _ w
              "000000000000000000000001" timeZone
              (mkTask "Write report" 2 None None)).
Qed.

End SchedulingProps.

(** ** Language tracker *)

Module LanguageTrackerProps.
Import Js LanguageTracker.

(** C9. Whatever the arguments and the collection, [logWordsLearned]
    throws the [TypeError] of calling [storeProgressData] on the record it
    has just built, and [getMonthlyProgress] throws the [ReferenceError] of
    reading its own [progressData] before the declaration has run; neither
    returns, and the collection is untouched. *)
Theorem tracker_functions_always_throw (now : Z)
    (start_of_day start_of_month end_of_month : Z → Z)
    (matches : Value → Value → bool) :
  (∀ language wordCount collection,
     logWordsLearned now start_of_day matches language wordCount collection
     = (Throw (TypeError "progressData.storeProgressData is not a function"),
        collection))
  ∧ (∀ language collection,
       getMonthlyProgress now start_of_month end_of_month matches language
         collection
       = (Throw (ReferenceError
                   "Cannot access 'progressData' before initialization"),
          collection)).
Proof. split; intros; reflexivity. Qed.

(** The same model lets [setMonthlyGoals], which declares no local
    [progressData], reach the data module. *)
Example setMonthlyGoals_reaches_module :
  setMonthlyGoals 0 (λ t, t) (λ _ _, false) (VString "Swedish")
    (VNumber 300%Q) []
  = (Return (VString "Monthly goal set successfully."),
     [VObject [("_id", VObjectId 0); ("language", VString "Swedish");
               ("date", VDate 0); ("wordCount", VNumber 300%Q);
               ("type", VString "monthlyGoal")]%string]).
Proof. reflexivity. Qed.

End LanguageTrackerProps.

(** ** Generated identifiers *)

Module FreshProps.
Lemma pretty_N_go_nonempty x s : s ≠ ""%string → pretty_N_go x s ≠ ""%string.
Proof.
  revert s. induction (N.lt_wf_0 x) as [x _ IH]; intros s Hs.
  destruct (decide (x = 0)%N) as [->|Hx].
  - by rewrite pretty_N_go_0.
  - rewrite pretty_N_go_step by lia. apply IH; [|done].
    apply N.div_lt; lia.
Qed.

Lemma pretty_nat_nonempty (n : nat) : pretty n ≠ ""%string.
Proof.
  unfold pretty, pretty_nat, pretty, pretty_N.
  destruct (decide _); [done|].
  rewrite pretty_N_go_step by lia. by apply pretty_N_go_nonempty.
Qed.

Lemma search_string_nonempty (xs : list string) :
  ∀ n acc,
    @Fix_F nat _ (λ _, string) (search_infinite_go pretty xs) n acc
    ≠ ""%string.
Proof.
  fix FIX 2; intros n [?]; simpl; unfold search_infinite_go at 1; simpl.
  destruct (decide _); [apply FIX|]. apply pretty_nat_nonempty.
Qed.

Lemma fresh_string_nonempty (xs : list string) : fresh xs ≠ ""%string.
Proof. apply search_string_nonempty. Qed.

Lemma fresh_set_nonempty (X : gset string) : fresh X ≠ ""%string.
Proof. unfold fresh, set_fresh. apply fresh_string_nonempty. Qed.
End FreshProps.



(** ** More on the free-time calculator *)

Module FreeTimeMore.
Import FreeTime FreeTimeProps.

Lemma insert_by_start_elem_of ev ev' l :
  ev' ∈ insert_by_start ev l ↔ ev' = ev ∨ ev' ∈ l.
Proof.
  induction l as [|x l IH]; simpl.
  - rewrite list_elem_of_singleton, elem_of_nil. tauto.
  - destruct (start ev <=? start x).
    + by rewrite !elem_of_cons.
    + rewrite !elem_of_cons, IH. tauto.
Qed.

Lemma sort_by_start_elem_of ev events :
  ev ∈ sort_by_start events ↔ ev ∈ events.
Proof.
  unfold sort_by_start. induction events as [|x l IH]; simpl; [done|].
  by rewrite insert_by_start_elem_of, elem_of_cons, IH.
Qed.

Lemma disjoint_sym a b : disjoint a b → disjoint b a.
Proof. unfold disjoint. tauto. Qed.

Lemma insert_by_start_non_overlapping ev l :
  Forall (disjoint ev) l → non_overlapping l →
  non_overlapping (insert_by_start ev l).
Proof.
  unfold non_overlapping. intros Hev Hl. revert Hev.
  induction Hl as [|x l Hx Hl IH]; intros Hev; simpl.
  - repeat constructor.
  - apply Forall_cons in Hev as [Hevx Hev].
    destruct (start ev <=? start x).
    + constructor; [by constructor|by constructor].
    + constructor; [|by apply IH].
      apply insert_by_start_Forall; [by apply disjoint_sym | done].
Qed.

Lemma sort_by_start_non_overlapping events :
  non_overlapping events → non_overlapping (sort_by_start events).
Proof.
  unfold non_overlapping, sort_by_start.
  induction 1 as [|x l Hx Hl IH]; simpl; [constructor|].
  apply insert_by_start_non_overlapping; [|done].
  apply Forall_forall. intros y Hy. rewrite Forall_forall in Hx.
  apply Hx. by apply (sort_by_start_elem_of y l).
Qed.

Lemma gaps_clear_of_events endOfDay events : ∀ cursor,
  chained events →
  Forall (λ iv, Forall (λ ev, overlaps iv ev = false) events)
    (gaps cursor events
     ++ (if last_cursor cursor events <? endOfDay
         then [mkInterval (last_cursor cursor events) endOfDay] else [])).
Proof.
  induction events as [|ev rest IH]; intros cursor Hch; simpl.
  - destruct (_ <? _); by repeat constructor.
  - destruct Hch as (Hev & Hnext & Hch). unfold valid in Hev.
    rewrite <- app_assoc. apply Forall_app. split.
    + destruct (Z.ltb_spec cursor (start ev)); [|constructor].
      repeat constructor.
      * unfold overlaps. simpl. apply Z.ltb_ge. lia.
      * eapply Forall_impl; [exact Hnext|]. simpl. intros ev' Hle.
        unfold overlaps. simpl. apply Z.ltb_ge. lia.
    + pose proof (gaps_lower_bound (end_ ev) endOfDay rest (end_ ev)) as Hlow.
      specialize (IH (end_ ev) Hch).
      rewrite Forall_forall in IH, Hlow |- *.
      intros iv Hiv. constructor; [|by apply IH].
      unfold overlaps. apply Z.ltb_ge.
      assert (end_ ev ≤ ivStart iv); [|lia].
      apply Hlow; [lia | by apply chained_valid | | done].
      apply Forall_forall. rewrite Forall_forall in Hnext. done.
Qed.

(** When no two events overlap, whatever their order in the array, no
    returned interval overlaps any event. *)
Theorem free_intervals_clear_of_events (now endOfDay : Z)
    (events : list Event) (iv : Interval) (ev : Event) :
  Forall valid events → non_overlapping events →
  iv ∈ calculateFreeTimeIntervals now endOfDay events → ev ∈ events →
  overlaps iv ev = false.
Proof.
  intros Hv Hd Hiv Hev.
  rewrite calculateFreeTimeIntervals_unfold in Hiv. simpl in Hiv.
  assert (chained (sort_by_start events)) as Hch.
  { apply chained_intro.
    - by apply sort_by_start_Forall.
    - apply sort_by_start_is_sorted.
    - by apply sort_by_start_non_overlapping. }
  pose proof (gaps_clear_of_events endOfDay _ now Hch) as Hclear.
  rewrite Forall_forall in Hclear. specialize (Hclear _ Hiv).
  rewrite Forall_forall in Hclear. apply Hclear.
  by apply sort_by_start_elem_of.
Qed.

Lemma free_intervals_clear_of_events_witness :
  overlaps (mkInterval 11 13) (mkEvent 10 11) = false.
Proof.
  apply (free_intervals_clear_of_events 9 24 [mkEvent 13 15; mkEvent 10 11]).
  - repeat constructor.
  - constructor; [|repeat constructor].
    constructor; [unfold disjoint; simpl; lia | constructor].
  - vm_compute. set_solver.
  - set_solver.
Defined.

Lemma gaps_endpoints now endOfDay (events : list Event) : ∀ cursor,
  (cursor = now ∨ ∃ ev, ev ∈ events ∧ cursor = end_ ev) →
  ∀ l : list Event, (∀ ev, ev ∈ l → ev ∈ events) →
  Forall (λ iv, (ivStart iv = now ∨ ∃ ev, ev ∈ events ∧ ivStart iv = end_ ev)
                ∧ (ivEnd iv = endOfDay
                   ∨ ∃ ev, ev ∈ events ∧ ivEnd iv = start ev))
    (gaps cursor l
     ++ (if last_cursor cursor l <? endOfDay
         then [mkInterval (last_cursor cursor l) endOfDay] else [])).
Proof.
  intros cursor Hc l. revert cursor Hc.
  induction l as [|ev rest IH]; intros cursor Hc Hsub; simpl.
  - destruct (_ <? _); [|constructor].
    constructor; [|constructor]. split; [exact Hc | by left].
  - rewrite <- app_assoc. apply Forall_app. split.
    + destruct (_ <? _); [|constructor].
      constructor; [|constructor]. split; [exact Hc|].
      right. exists ev. split; [apply Hsub; by left | done].
    + apply IH.
      * right. exists ev. split; [apply Hsub; by left | done].
      * intros ev' Hin. apply Hsub. by right.
Qed.

(** The bounds of a free interval come from the input: it starts at the
    clock reading or where an event ends, and it ends where an event starts
    or at the end of the day. *)
Theorem free_intervals_endpoints (now endOfDay : Z) (events : list Event) :
  Forall (λ iv, (ivStart iv = now ∨ ∃ ev, ev ∈ events ∧ ivStart iv = end_ ev)
                ∧ (ivEnd iv = endOfDay
                   ∨ ∃ ev, ev ∈ events ∧ ivEnd iv = start ev))
    (calculateFreeTimeIntervals now endOfDay events).
Proof.
  rewrite calculateFreeTimeIntervals_unfold. simpl.
  pose proof (gaps_endpoints now endOfDay (sort_by_start events) now
                (or_introl eq_refl) (sort_by_start events) (λ _ H, H)) as H.
  eapply Forall_impl; [exact H|]. simpl.
  intros iv [Hs He]. split.
  - destruct Hs as [Hs|(ev & Hev & Hs)]; [by left|].
    right. exists ev. by rewrite <- sort_by_start_elem_of.
  - destruct He as [He|(ev & Hev & He)]; [by left|].
    right. exists ev. by rewrite <- sort_by_start_elem_of.
Qed.

(** An instance with nested events. *)
Lemma free_intervals_ordered_witness :
  StronglySorted (λ a b, ivEnd a ≤ ivStart b)
    (calculateFreeTimeIntervals 9 24
       [mkEvent 13 15; mkEvent 10 14; mkEvent 11 12]).
Proof.
  apply free_intervals_ordered.
  repeat constructor; unfold valid; simpl; lia.
Defined.

(** *** The order of the input *)

Lemma insert_by_start_Permutation ev l : insert_by_start ev l ≡ₚ ev :: l.
Proof.
  induction l as [|x l IH]; simpl; [done|].
  destruct (start ev <=? start x); [done|].
  rewrite IH. apply perm_swap.
Qed.

Lemma sort_by_start_Permutation events : sort_by_start events ≡ₚ events.
Proof.
  unfold sort_by_start. induction events as [|x l IH]; simpl; [done|].
  by rewrite insert_by_start_Permutation, IH.
Qed.

Lemma sorted_starts l :
  sorted_by_start l → StronglySorted Z.le (map start l).
Proof.
  induction 1 as [|x l _ IH Hx]; simpl; constructor; [done|].
  by apply Forall_fmap.
Qed.

Lemma same_starts_same_events (l1 l2 : list Event) :
  map start l1 = map start l2 →
  (∀ x y, x ∈ l1 → y ∈ l2 → start x = start y → x = y) →
  l1 = l2.
Proof.
  revert l2. induction l1 as [|x l1 IH]; intros [|y l2]; simpl; try done.
  intros [= Hxy Hrest] Hinj. f_equal.
  - apply Hinj; [by left | by left | done].
  - apply IH; [done|]. intros a b Ha Hb. apply Hinj; by right.
Qed.

Lemma distinct_starts (l : list Event) x y :
  NoDup (map start l) → x ∈ l → y ∈ l → start x = start y → x = y.
Proof.
  induction l as [|a l IH]; simpl; [by intros _ ?%elem_of_nil|].
  intros [Ha Hl]%NoDup_cons [->|Hx]%elem_of_cons [->|Hy]%elem_of_cons Hs.
  - done.
  - exfalso. apply Ha. rewrite Hs. by apply list_elem_of_fmap_2.
  - exfalso. apply Ha. rewrite <- Hs. by apply list_elem_of_fmap_2.
  - by apply IH.
Qed.

(** For events with valid dates (the values of [Event]), the order of the
    input does not matter as long as no two events start at the same
    instant: the sort brings every arrangement of the same events into the
    same order. *)
Theorem calculateFreeTimeIntervals_any_order (now endOfDay : Z)
    (events events' : list Event) :
  events ≡ₚ events' → NoDup (map start events) →
  calculateFreeTimeIntervals now endOfDay events
  = calculateFreeTimeIntervals now endOfDay events'.
Proof.
  intros Hperm Hdistinct.
  assert (sort_by_start events = sort_by_start events') as Hsort;
    [|unfold calculateFreeTimeIntervals; by rewrite Hsort].
  assert (sort_by_start events ≡ₚ sort_by_start events') as Hp.
  { by rewrite !sort_by_start_Permutation. }
  apply same_starts_same_events.
  - apply (StronglySorted_unique Z.le).
    + apply sorted_starts, sort_by_start_is_sorted.
    + apply sorted_starts, sort_by_start_is_sorted.
    + by apply fmap_Permutation.
  - intros x y Hx Hy Hstart.
    rewrite sort_by_start_elem_of in Hx.
    rewrite sort_by_start_elem_of in Hy.
    rewrite <- Hperm in Hy.
    by apply (distinct_starts events).
Qed.

Lemma calculateFreeTimeIntervals_any_order_witness :
  calculateFreeTimeIntervals 9 24 [mkEvent 13 15; mkEvent 10 12]
  = calculateFreeTimeIntervals 9 24 [mkEvent 10 12; mkEvent 13 15].
Proof.
  apply calculateFreeTimeIntervals_any_order.
  - apply perm_swap.
  - apply (bool_decide_unpack _). reflexivity.
Defined.

(** With two events that start together the order of the input shows in
    the result. *)
Example calculateFreeTimeIntervals_ties :
  calculateFreeTimeIntervals 9 24 [mkEvent 10 12; mkEvent 10 11]
  = [mkInterval 9 10; mkInterval 11 24]
  ∧ calculateFreeTimeIntervals 9 24 [mkEvent 10 11; mkEvent 10 12]
    = [mkInterval 9 10; mkInterval 12 24].
Proof. split; reflexivity. Qed.

End FreeTimeMore.

(** ** More on the reconciliation *)

Module SyncMore.
Import Js Stores Time JsProps SyncProps SchedulingProps SyncInvariants.

(** Case analysis on membership in a list that evaluates to a literal. *)
Ltac in_list H :=
  vm_compute in H;
  repeat (apply elem_of_cons in H as [->|H]);
  try (by apply elem_of_nil in H).

(** The [Map] associates an identifier with the last of the fetched
    documents that carry it, and with nothing when it is the empty string
    or no document carries it. *)
Lemma index_by_googleEventId_last (mongoEvents : list EventObject)
    (g : string) :
  index_by_googleEventId mongoEvents !! g
  = last (List.filter (linked_to g) mongoEvents).
Proof.
  unfold index_by_googleEventId.
  set (f := λ (mongoEventsMap : gmap string EventObject) event, _).
  assert (∀ l acc,
            foldl f acc l !! g
            = match last (List.filter (linked_to g) l) with
              | Some ev => Some ev
              | None => acc !! g
              end) as Hgen.
  { induction l as [|x l IH]; intros acc; simpl; [done|].
    rewrite IH. set (tail := List.filter (linked_to g) l).
    unfold f, linked_to.
    destruct (googleEventId x) as [gx|] eqn:Hgx; simpl.
    - destruct (decide (gx = g)) as [->|Hne].
      + rewrite bool_decide_eq_true_2 by done. simpl.
        destruct (negb (g =? "")%string) eqn:Ht.
        * rewrite last_cons. destruct (last tail); [done|].
          by rewrite lookup_insert_eq.
        * done.
      + rewrite bool_decide_eq_false_2 by congruence. simpl.
        destruct (negb (gx =? "")%string); [|done].
        destruct (last tail); [done|]. by rewrite lookup_insert_ne.
    - done. }
  rewrite Hgen, lookup_empty. by destruct (last _).
Qed.

Lemma last_filter_Some {A} (f : A → bool) l x :
  last (List.filter f l) = Some x → x ∈ l ∧ f x = true.
Proof.
  intros H. apply last_Some_elem_of, list_elem_of_In, filter_In in H.
  by rewrite list_elem_of_In.
Qed.

Lemma last_filter_is_Some {A} (f : A → bool) l x :
  x ∈ l → f x = true → is_Some (last (List.filter f l)).
Proof.
  intros Hin Hf.
  assert (x ∈ List.filter f l) as Hx.
  { apply list_elem_of_In, filter_In. by rewrite <- list_elem_of_In. }
  destruct (List.filter f l) as [|y l'] eqn:Hl; [by apply elem_of_nil in Hx|].
  rewrite last_is_Some. done.
Qed.

Lemma index_lookup_Some l g ev :
  index_by_googleEventId l !! g = Some ev →
  ev ∈ l ∧ googleEventId ev = Some g ∧ truthy (googleEventId ev) = true.
Proof.
  rewrite index_by_googleEventId_last. intros [Hin Hf]%last_filter_Some.
  unfold linked_to in Hf. apply andb_true_iff in Hf as [Hg Ht].
  apply bool_decide_eq_true in Hg. rewrite Hg. done.
Qed.

Lemma index_lookup_is_Some l g ev :
  ev ∈ l → googleEventId ev = Some g → truthy (googleEventId ev) = true →
  is_Some (index_by_googleEventId l !! g).
Proof.
  intros Hin Hg Ht. rewrite index_by_googleEventId_last.
  apply (last_filter_is_Some _ _ ev); [done|].
  unfold linked_to. rewrite Hg in Ht. rewrite Ht, andb_true_r.
  by apply bool_decide_eq_true.
Qed.

Lemma listed_same_id in_window w x y :
  x ∈ GoogleCalendar.listed in_window w →
  y ∈ GoogleCalendar.listed in_window w → id_ x = id_ y → x = y.
Proof.
  intros (k & d & -> & Hk)%listed_stored (k' & d' & -> & Hk')%listed_stored.
  simpl. intros [= <-]. congruence.
Qed.

Lemma for_of_unchanged {A} (l : list A) (body : A → M unit) w :
  (∀ x, x ∈ l → body x w = (Return tt, w)) →
  for_of l body w = (Return tt, w).
Proof.
  induction l as [|x l IH]; intros Hbody; simpl; [done|].
  rewrite (bind_run _ _ _ _ _ (Hbody x (list_elem_of_here _ _))).
  apply IH. intros y Hy. apply Hbody. by right.
Qed.

Lemma second_loop_idle (in_window : EventObject → bool) (w v : World) :
  (∀ m, m ∈ MongoCalendar.documents w → truthy (googleEventId m) = true →
     ∃ g, g ∈ GoogleCalendar.listed in_window w ∧ id_ g = googleEventId m) →
  for_of (MongoCalendar.documents w)
    (sync_to_google (GoogleCalendar.listed in_window w)) v = (Return tt, v).
Proof.
  intros Hlisted. apply for_of_unchanged. intros m Hm.
  unfold sync_to_google.
  destruct (truthy (googleEventId m)) eqn:Ht; [|done]. simpl.
  destruct (Hlisted m Hm Ht) as (g & Hg & Hid).
  destruct (List.find _ _) eqn:Hfind; [done|].
  apply find_none with (x := g) in Hfind.
  - by rewrite bool_decide_eq_true_2 in Hfind.
  - by apply list_elem_of_In.
Qed.

(** A loop over a list of which a prefix is gone through without a write,
    each iteration returning or throwing, and whose next element, if there
    is one, throws: the loop leaves the world as it is, and it returns only
    if the prefix is the whole list. *)
Lemma for_of_writes_nothing {A} (seen rest : list A) (body : A → M unit) v :
  (∀ x, x ∈ seen →
        body x v = (Return tt, v) ∨ ∃ e, body x v = (Throw e, v)) →
  (rest = [] ∨ ∃ x rest' e, rest = x :: rest' ∧ body x v = (Throw e, v)) →
  ∃ r, for_of (seen ++ rest) body v = (r, v) ∧ (r = Return tt → rest = []).
Proof.
  intros Hseen Hrest. induction seen as [|x seen IH]; simpl.
  - destruct Hrest as [->|(x & rest' & e & -> & Hthrow)].
    + by exists (Return tt).
    + exists (Throw e). simpl. by rewrite (bind_throw _ _ _ _ _ Hthrow).
  - destruct (Hseen x) as [Hrun|[e Hthrow]]; [by left| |].
    + rewrite (bind_run _ _ _ _ _ Hrun). apply IH.
      intros y Hy. apply Hseen. by right.
    + exists (Throw e). by rewrite (bind_throw _ _ _ _ _ Hthrow).
Qed.

Lemma first_loop_in_sync (in_window : EventObject → bool) (w : World) :
  let googleEvents := GoogleCalendar.listed in_window w in
  let mongoEvents := MongoCalendar.documents w in
  let w0 := record EventsFind (record GoogleList w) in
  (∀ g, g ∈ googleEvents →
     ∃ m, m ∈ mongoEvents ∧ googleEventId m = id_ g
          ∧ truthy (googleEventId m) = true) →
  (∀ m, m ∈ mongoEvents → truthy (googleEventId m) = true →
     ∃ g, g ∈ googleEvents ∧ id_ g = googleEventId m
          ∧ hasEventChanged g m ≠ Return true) →
  ∃ r, for_of googleEvents
         (sync_from_google (index_by_googleEventId mongoEvents)) w0
       = (r, w0).
Proof.
  intros googleEvents mongoEvents w0 Hcovered Hsame.
  destruct (for_of_writes_nothing googleEvents []
              (sync_from_google (index_by_googleEventId mongoEvents)) w0)
    as (r & Hrun & _).
  - intros g Hg.
    destruct (Hcovered g Hg) as (m & Hm & Hgid & Ht).
    destruct (listed_stored _ _ _ Hg) as (k & d & Hgk & _).
    assert (id_ g = Some k) as Hid by (by rewrite Hgk).
    destruct (index_lookup_is_Some mongoEvents k m) as [m' Hm'];
      [done | congruence | done |].
    apply index_lookup_Some in Hm' as Hm''.
    destruct Hm'' as (Hin & Hgid' & Ht').
    destruct (Hsame m' Hin Ht') as (g' & Hg' & Hid' & Hquiet).
    assert (g' = g) as ->.
    { apply (listed_same_id in_window w); [done | done | congruence]. }
    unfold sync_from_google. rewrite Hid. simpl.
    rewrite Hm'. unfold bind, eval.
    destruct (hasEventChanged g m') as [[]|e]; [done | by left |].
    right. by exists e.
  - by left.
  - exists r. by rewrite app_nil_r in Hrun.
Qed.

(** When every fetched calendar event has a document linked to it, and
    every linked document names a fetched event for which the comparison
    reports no difference, a run writes nothing: it only reads the two
    stores. The comparison reports no difference when it returns [false],
    and also when it throws, which ends the run. *)
Theorem syncEvents_in_sync (in_window : EventObject → bool) (w : World) :
  (∀ g, g ∈ GoogleCalendar.listed in_window w →
     ∃ m, m ∈ MongoCalendar.documents w ∧ googleEventId m = id_ g
          ∧ truthy (googleEventId m) = true) →
  (∀ m, m ∈ MongoCalendar.documents w → truthy (googleEventId m) = true →
     ∃ g, g ∈ GoogleCalendar.listed in_window w ∧ id_ g = googleEventId m
          ∧ hasEventChanged g m ≠ Return true) →
  syncEvents in_window w
  = (Return tt, record EventsFind (record GoogleList w)).
Proof.
  intros Hcovered Hsame.
  destruct (first_loop_in_sync in_window w Hcovered Hsame) as [[[]|e] Hrun1].
  - apply (syncEvents_run in_window w _ _ Hrun1).
    apply second_loop_idle. intros m Hm Ht.
    destruct (Hsame m Hm Ht) as (g & Hg & Hid & _). by exists g.
  - exact (syncEvents_aborted in_window w _ e Hrun1).
Qed.

Lemma syncEvents_in_sync_witness :
  let shared := mkDetails (Some "A") (Some "2024-05-01T10:00:00Z")
                  (Some "2024-05-01T11:00:00Z") None in
  let w := mkWorld {[ "g1"%string := shared ]}
             {[ 1%N := with_googleEventId (Some "g1"%string)
                         (google_event "g1" shared);
                2%N := mkEventObject None None None (Some "Draft") None None
                         None ]}
             ∅ [] in
  syncEvents (λ _, true) w
  = (Return tt, record EventsFind (record GoogleList w)).
Proof.
  intros shared w. apply syncEvents_in_sync.
  - intros g Hg. vm_compute in Hg.
    apply list_elem_of_singleton in Hg as ->.
    exists (with__id 1 (with_googleEventId (Some "g1"%string)
                          (google_event "g1" shared))).
    split_and!; [|reflexivity..]. vm_compute. by right; left.
  - intros m Hm Ht. vm_compute in Hm.
    apply elem_of_cons in Hm as [->|Hm]; [vm_compute in Ht; done|].
    apply list_elem_of_singleton in Hm as ->.
    exists (google_event "g1" shared).
    split_and!; [| reflexivity | intros H; vm_compute in H; discriminate H].
    vm_compute. by left.
Defined.

(** A run only adds: every event of the calendar is there afterwards with
    the same content, every document that was in the collection still is
    (possibly rewritten), and the tasks are as before. *)
Theorem syncEvents_only_adds (in_window : EventObject → bool) (w : World) :
  ∃ w', syncEvents in_window w = (Return tt, w')
    ∧ google w ⊆ google w'
    ∧ dom (events w) ⊆ dom (events w')
    ∧ tasks w' = tasks w.
Proof.
  set (googleEvents := GoogleCalendar.listed in_window w).
  set (mongoEvents := MongoCalendar.documents w).
  set (mongoEventsMap := index_by_googleEventId mongoEvents).
  set (w0 := record EventsFind (record GoogleList w)).
  set (I := λ v : World, google w ⊆ google v ∧ dom (events w) ⊆ dom (events v)
                         ∧ tasks v = tasks w).
  destruct (for_of_trace (λ _, I) (λ _ _, True) googleEvents
              (sync_from_google mongoEventsMap))
    with (w := w0) as (r & w1 & seen & css1 & Hrun1 & Hw1 & _ & _ & Hend);
    [|done|].
  { intros seen x rest v Hl (Hg & He & Ht).
    assert (x ∈ googleEvents) as Hx.
    { rewrite Hl. apply elem_of_app. right. by left. }
    destruct (listed_id _ _ _ Hx) as [g Hgx].
    destruct (sync_from_google_outcome mongoEventsMap x v g)
      as [(ev & Hm & Hc & Hrun)|[(ev & Hm & Hc & Hrun)
         |[(Hm & k & Hfresh & Hrun)|(ev & e & Hm & Hc & Hrun)]]];
      [by eapply listed_no__id | done | | | |].
    - left. exists v, []. rewrite app_nil_r. by split_and!.
    - left. eexists _, _. split; [exact Hrun|]. unfold I. simpl.
      split_and!; try done.
      destruct (_id ev); [|done]. by rewrite dom_alter_L.
    - left. eexists _, _. split; [exact Hrun|]. unfold I. simpl.
      split_and!; try done. rewrite dom_insert_L. set_solver.
    - right. by exists e. }
  destruct Hend as [[-> ->]|(e & x & rest & -> & Hl & Hthrow)].
  - destruct (for_of_run I (λ _ _, True) mongoEvents
                (sync_to_google googleEvents))
      with (w := w1) as (w2 & css2 & Hrun2 & Hw2 & _ & _); [|done|].
    { intros x v Hx (Hg & He & Ht).
      destruct (sync_to_google_step googleEvents x v)
        as (v' & cs & Hrun & Hcalls & Ht' & Hcs).
      exists v', cs. unfold I. rewrite Ht'. split_and!; try done.
      - destruct Hcs as [(_ & _ & ->)|(_ & newId & _ & Hnew & -> & _)];
          [done|].
        etrans; [exact Hg|]. by apply insert_subseteq.
      - destruct Hcs as [(_ & _ & ->)|(_ & newId & _ & _ & _ & ->)]; [done|].
        destruct (_id x); [|done]. by rewrite dom_alter_L. }
    exists w2. split; [by apply (syncEvents_run in_window w w1 w2) | done].
  - exists w1. split; [by apply (syncEvents_aborted in_window w w1 e) | done].
Qed.

Lemma for_of_progress {A} (I : World → Prop) (Q : A → World → Prop)
    (l : list A) (body : A → M unit) :
  (∀ x v, x ∈ l → I v →
     ∃ v', body x v = (Return tt, v') ∧ I v' ∧ Q x v'
           ∧ ∀ y, Q y v → Q y v') →
  ∀ v, I v →
    ∃ v', for_of l body v = (Return tt, v') ∧ I v'
          ∧ (∀ x, x ∈ l → Q x v') ∧ ∀ y, Q y v → Q y v'.
Proof.
  induction l as [|x l IH]; intros Hbody v Hv.
  - exists v. split_and!; try done. intros x Hx. by apply elem_of_nil in Hx.
  - destruct (Hbody x v) as (v1 & Hrun & Hv1 & Hx & Hkeep); [by left|done|].
    destruct (IH (λ y u Hy, Hbody y u (list_elem_of_further _ _ _ Hy)) v1 Hv1)
      as (v2 & Hrun' & Hv2 & Hl & Hkeep').
    exists v2. simpl. rewrite (bind_run _ _ _ _ _ Hrun). split_and!; try done.
    + intros y [->|Hy]%elem_of_cons; [by apply Hkeep' | by apply Hl].
    + intros y Hy. by apply Hkeep', Hkeep.
Qed.

(** The three ways one iteration of the first loop can go when the
    comparison does not throw. *)
Lemma sync_from_google_cases m x v :
  _id x = None →
  (∀ g ev, id_ x = Some g → m !! g = Some ev →
           ∃ changed, hasEventChanged x ev = Return changed) →
  let patch := with_googleEventId (id_ x) x in
  (∃ g ev, id_ x = Some g ∧ m !! g = Some ev
           ∧ sync_from_google m x v = (Return tt, v))
  ∨ (∃ g ev, id_ x = Some g ∧ m !! g = Some ev
             ∧ sync_from_google m x v
               = (Return tt,
                  record (EventsUpdateOne (_id ev) patch)
                    (mkWorld (google v)
                       (match _id ev with
                        | Some k => alter (set_fields patch) k (events v)
                        | None => events v
                        end) (tasks v) (calls v))))
  ∨ (∃ k, events v !! k = None
          ∧ sync_from_google m x v
            = (Return tt,
               record (EventsInsertOne k patch)
                 (mkWorld (google v) (<[k := with__id k patch]> (events v))
                    (tasks v) (calls v)))).
Proof.
  intros Hid Hcompare patch. unfold sync_from_google.
  destruct (id_ x) as [g|] eqn:Hg; simpl.
  - destruct (m !! g) as [ev|] eqn:Hm.
    + destruct (Hcompare g ev eq_refl Hm) as [changed Hc].
      unfold bind, eval. rewrite Hc. destruct changed.
      * right; left. by exists g, ev.
      * left. by exists g, ev.
    + right; right. exists (MongoCalendar.new_ObjectId v).
      split; [apply new_ObjectId_fresh|].
      erewrite bind_run; [reflexivity|].
      apply insertEvent_fresh. done.
  - right; right. exists (MongoCalendar.new_ObjectId v).
    split; [apply new_ObjectId_fresh|].
    erewrite bind_run; [reflexivity|].
    apply insertEvent_fresh. done.
Qed.

(** Two events or documents that have their [start] and [end] objects can
    be compared. *)
Lemma has_times_compare g m :
  has_times g → has_times m → ∃ changed, hasEventChanged g m = Return changed.
Proof.
  intros [[gs Hgs] [ge Hge]] [[ms Hms] [me Hme]]. unfold hasEventChanged.
  rewrite Hgs, Hge, Hms, Hme. simpl.
  repeat case_bool_decide; by eexists.
Qed.

Lemma names_event_mono v v' d :
  google v ⊆ google v' → names_event v d → names_event v' d.
Proof.
  intros Hsub Hd Ht. destruct (Hd Ht) as (n & Hn & [e He]).
  exists n. split; [done|]. exists e. by eapply lookup_weaken.
Qed.

Lemma documents_elem w k d :
  events w !! k = Some d → with__id k d ∈ MongoCalendar.documents w.
Proof.
  intros Hk. unfold MongoCalendar.documents. apply list_elem_of_fmap.
  exists (k, d). split; [done | by apply elem_of_map_to_list].
Qed.

Lemma missing_in_false gs x :
  truthy (googleEventId x) = true → missing_in gs x = false →
  ∃ g, g ∈ gs ∧ id_ g = googleEventId x.
Proof.
  unfold missing_in. intros -> Hm. simpl in Hm.
  apply negb_false_iff, existsb_exists in Hm as (g & Hg & Hid).
  exists g. split; [by apply list_elem_of_In | by apply bool_decide_eq_true in Hid].
Qed.

Lemma missing_in_true gs x g :
  missing_in gs x = true → g ∈ gs → id_ g ≠ googleEventId x.
Proof.
  unfold missing_in. intros [_ Hm]%andb_true_iff Hg Hid.
  apply negb_true_iff in Hm.
  assert (existsb (λ event, bool_decide (id_ event = googleEventId x)) gs = true)
    as Hex; [|congruence].
  apply existsb_exists. exists g.
  split; [by apply list_elem_of_In | by apply bool_decide_eq_true].
Qed.

(** After a first loop in which no comparison throws: the calendar is as
    it was, every document kept its link, the inserted documents name
    fetched events, and every fetched event has a document. *)
Lemma first_loop_post in_window w :
  let googleEvents := GoogleCalendar.listed in_window w in
  let mongoEvents := MongoCalendar.documents w in
  (∀ g, g ∈ googleEvents → has_times g) →
  (∀ m, m ∈ mongoEvents → truthy (googleEventId m) = true → has_times m) →
  ∃ w1,
    for_of googleEvents (sync_from_google (index_by_googleEventId mongoEvents))
      (record EventsFind (record GoogleList w)) = (Return tt, w1)
    ∧ google w1 = google w ∧ links_kept w w1 ∧ new_documents_named w w1
    ∧ ∀ g, g ∈ googleEvents → has_document g w1.
Proof.
  intros googleEvents mongoEvents Htimes_g Htimes_m.
  set (I := λ v : World, google v = google w ∧ links_kept w v
                         ∧ new_documents_named w v).
  destruct (for_of_progress I has_document googleEvents
              (sync_from_google (index_by_googleEventId mongoEvents)))
    with (v := record EventsFind (record GoogleList w))
    as (w1 & Hrun & (Hg & Hl & Hn) & Hq & _).
  - intros x v Hx (Hg & Hl & Hn).
    destruct (listed_stored _ _ _ Hx) as (kx & dx & Hxk & Hgx).
    assert (id_ x = Some kx) as Hidx by (by rewrite Hxk).
    destruct (sync_from_google_cases (index_by_googleEventId mongoEvents) x v)
      as [(g & ev & Hid & Hm & Hrun)
         |[(g & ev & Hid & Hm & Hrun)|(k & Hfresh & Hrun)]];
      [by eapply listed_no__id| | | |].
    { intros g ev _ [Hin Ht]%index_by_googleEventId_lookup.
      apply has_times_compare; [by apply Htimes_g | by apply Htimes_m]. }
    + (* nothing to do *)
      exists v. split_and!; try done.
      apply index_lookup_Some in Hm as (Hin & Hgid & _).
      apply documents_stored in Hin as (k & d0 & -> & Hk).
      destruct (Hl k d0 Hk) as (d' & Hd' & Hgd').
      exists k, d'. split; [done|]. simpl in Hgid. congruence.
    + (* the document is rewritten *)
      apply index_lookup_Some in Hm as (Hin & Hgid & _).
      apply documents_stored in Hin as (k & d0 & -> & Hk).
      simpl in Hgid, Hrun.
      destruct (Hl k d0 Hk) as (d' & Hd' & Hgd').
      assert (googleEventId
                (set_fields (with_googleEventId (id_ x) x) d') = Some g) as Hnew.
      { simpl. by rewrite Hid, union_Some_l. }
      eexists. split; [exact Hrun|].
      unfold I, links_kept, new_documents_named, has_document, record.
      simpl. split_and!.
      * done.
      * intros k2 d2 Hk2. destruct (Hl k2 d2 Hk2) as (d2' & Hd2' & Hgd2').
        destruct (decide (k2 = k)) as [->|Hne].
        -- eexists. rewrite lookup_alter_eq, Hd2'. split; [done|].
           rewrite Hk in Hk2. injection Hk2 as <-.
           simpl. rewrite Hid, union_Some_l. congruence.
        -- exists d2'. by rewrite lookup_alter_ne.
      * intros k2 d2 Hk2 Hnone.
        assert (k2 ≠ k) by congruence.
        rewrite lookup_alter_ne in Hk2 by done.
        apply (names_event_mono v); [simpl; reflexivity | exact (Hn k2 d2 Hk2 Hnone)].
      * exists k. eexists. rewrite lookup_alter_eq, Hd'. split; [done|].
        simpl. by rewrite Hid, union_Some_l.
      * intros y (k2 & d2 & Hk2 & Hgd2).
        destruct (decide (k2 = k)) as [->|Hne].
        -- exists k. eexists. rewrite lookup_alter_eq, Hd'.
           split; [done|]. rewrite Hd' in Hk2. injection Hk2 as <-.
           simpl. rewrite Hid, union_Some_l. congruence.
        -- exists k2, d2. by rewrite lookup_alter_ne.
    + (* a document is inserted *)
      eexists. split; [exact Hrun|].
      unfold I, links_kept, new_documents_named, has_document, record.
      simpl. split_and!.
      * done.
      * intros k2 d2 Hk2. destruct (Hl k2 d2 Hk2) as (d2' & Hd2' & Hgd2').
        exists d2'. rewrite lookup_insert_ne by congruence. done.
      * intros k2 d2 Hk2 Hnone.
        destruct (decide (k2 = k)) as [->|Hne].
        -- rewrite lookup_insert_eq in Hk2. injection Hk2 as <-.
           intros _. exists kx. simpl. split; [done|].
           rewrite Hg. by eexists.
        -- rewrite lookup_insert_ne in Hk2 by done.
           apply (names_event_mono v); [simpl; reflexivity | exact (Hn k2 d2 Hk2 Hnone)].
      * exists k. eexists. rewrite lookup_insert_eq. done.
      * intros y (k2 & d2 & Hk2 & Hgd2). exists k2, d2.
        rewrite lookup_insert_ne by congruence. done.
  - unfold I. simpl. split_and!; [done| |].
    + intros k d Hk. by exists d.
    + intros k d Hk Hnone. simpl in Hk. congruence.
  - exists w1. by split_and!.
Qed.

(** After the second loop, started where the first one ended. *)
Lemma second_loop_post in_window w w1 :
  let googleEvents := GoogleCalendar.listed in_window w in
  let mongoEvents := MongoCalendar.documents w in
  google w1 = google w → links_kept w w1 → new_documents_named w w1 →
  (∀ g, g ∈ googleEvents → has_document g w1) →
  ∃ w2,
    for_of mongoEvents (sync_to_google googleEvents) w1 = (Return tt, w2)
    ∧ (∀ g, g ∈ googleEvents → has_document g w2)
    ∧ ∀ k d, events w2 !! k = Some d → names_event w2 d.
Proof.
  intros googleEvents mongoEvents Hg1 Hl1 Hn1 Hq1.
  set (I := λ v : World, google w ⊆ google v ∧ links_kept_or_renewed w v
                         ∧ new_documents_named w v
                         ∧ ∀ g, g ∈ googleEvents → has_document g v).
  set (Q := λ (x : EventObject) (v : World),
              ∀ k, _id x = Some k →
                ∃ d, events v !! k = Some d ∧ names_event v d).
  destruct (for_of_progress I Q mongoEvents (sync_to_google googleEvents))
    with (v := w1) as (w2 & Hrun & (Hg & Hl & Hn & Hq) & Hdone & _).
  - intros x v Hx (Hg & Hl & Hn & Hq).
    apply documents_stored in Hx as (k0 & d0 & -> & Hk0).
    destruct (Hl k0 d0 Hk0) as (d' & Hd' & Hlink).
    destruct (sync_to_google_step googleEvents (with__id k0 d0) v)
      as (v' & cs & Hrun & _ & _ & [(Hmiss & _ & ->)
                                   |(Hmiss & newId & _ & Hnew & Hg' & He')]).
    + (* the document is left alone *)
      exists v. split_and!; try done.
      intros k [= <-]. exists d'. split; [done|].
      destruct Hlink as [Hsame|(n & Hn' & _ & Hthere)].
      * intros Ht. rewrite Hsame in Ht.
        destruct (missing_in_false googleEvents (with__id k0 d0) Ht Hmiss)
          as (g & Hgin & Hgid).
        apply listed_stored in Hgin as (kg & dg & -> & Hkg).
        exists kg. simpl in Hgid. split; [congruence|].
        exists dg. by eapply lookup_weaken.
      * intros _. by exists n.
    + (* an event is created and the document linked to it *)
      simpl in He'.
      assert (google v ⊆ google v') as Hgrow.
      { rewrite Hg'. by apply insert_subseteq. }
      assert (∀ k d, events v !! k = Some d → k ≠ k0 →
                     events v' !! k = Some d) as Hother.
      { intros k d Hk Hne. rewrite He'. by rewrite lookup_alter_ne. }
      assert (∃ d'', events v' !! k0 = Some d''
                     ∧ googleEventId d'' = Some newId) as (d'' & Hd'' & Hgd'').
      { eexists. rewrite He', lookup_alter_eq, Hd'. split; [done|].
        simpl. by rewrite union_Some_l. }
      assert (is_Some (google v' !! newId)) as Hthere.
      { rewrite Hg', lookup_insert_eq. by eexists. }
      exists v'. split; [done|]. split_and!.
      * split_and!.
        -- by etrans.
        -- intros k d Hk. destruct (decide (k = k0)) as [->|Hne].
           ++ exists d''. split; [done|]. right. exists newId.
              split_and!; [done | by eapply lookup_weaken_None | done].
           ++ destruct (Hl k d Hk) as (d2 & Hd2 & Hlink2).
              exists d2. split; [by apply Hother|].
              destruct Hlink2 as [?|(n & ? & ? & [e He])]; [by left|].
              right. exists n. split_and!; try done.
              exists e. by eapply lookup_weaken.
        -- intros k d Hk Hnone.
           assert (k ≠ k0) as Hne by congruence.
           rewrite He', lookup_alter_ne in Hk by done.
           apply (names_event_mono v); [done | exact (Hn k d Hk Hnone)].
        -- intros g Hgin. destruct (Hq g Hgin) as (k & d & Hk & Hgd).
           destruct (decide (k = k0)) as [->|Hne];
             [|exists k, d; split; [by apply Hother | done]].
           exfalso. rewrite Hd' in Hk. injection Hk as <-.
           destruct Hlink as [Hsame|(n & Hn' & Hfresh & _)].
           ++ apply (missing_in_true googleEvents (with__id k0 d0) g Hmiss Hgin).
              simpl. congruence.
           ++ apply listed_stored in Hgin as (kg & dg & -> & Hkg).
              simpl in Hgd. congruence.
      * intros k [= <-]. exists d''. split; [done|].
        intros _. by exists newId.
      * intros y Hy k Hk. destruct (Hy k Hk) as (d & Hd & Hnamed).
        destruct (decide (k = k0)) as [->|Hne].
        -- exists d''. split; [done|]. intros _. by exists newId.
        -- exists d. split; [by apply Hother | by apply (names_event_mono v)].
  - unfold I. split_and!; [by rewrite Hg1 | | done | done].
    intros k d Hk. destruct (Hl1 k d Hk) as (d' & Hd' & Hgd').
    exists d'. split; [done | by left].
  - exists w2. split_and!; [done | done |].
    intros k d Hk. destruct (events w !! k) as [d0|] eqn:Hk0.
    + destruct (Hdone (with__id k d0) (documents_elem w k d0 Hk0) k eq_refl)
        as (d' & Hd' & Hnamed).
      rewrite Hk in Hd'. by injection Hd' as <-.
    + by apply (Hn k d).
Qed.

(** After a run every calendar event that was fetched has a document
    linked to it, provided that the fetched events and the linked documents
    have their [start] and [end] objects, so that no comparison throws and
    stops the run. *)
Theorem syncEvents_covers_fetched (in_window : EventObject → bool)
    (w : World) :
  (∀ g, g ∈ GoogleCalendar.listed in_window w → has_times g) →
  (∀ m, m ∈ MongoCalendar.documents w → truthy (googleEventId m) = true →
     has_times m) →
  ∃ w', syncEvents in_window w = (Return tt, w')
    ∧ ∀ g, g ∈ GoogleCalendar.listed in_window w → has_document g w'.
Proof.
  intros Htimes_g Htimes_m.
  destruct (first_loop_post in_window w Htimes_g Htimes_m)
    as (w1 & Hrun1 & Hg & Hl & Hn & Hq).
  destruct (second_loop_post in_window w w1 Hg Hl Hn Hq)
    as (w2 & Hrun2 & Hq' & _).
  exists w2. split; [by apply (syncEvents_run in_window w w1 w2) | done].
Qed.

Lemma syncEvents_covers_fetched_witness :
  let w := mkWorld
             {[ "g1"%string := mkDetails (Some "A") (Some "2024-05-01T10:00:00Z")
                                 (Some "2024-05-01T11:00:00Z") None;
                "g2"%string := mkDetails (Some "B") (Some "2024-05-02T10:00:00Z")
                                 (Some "2024-05-02T11:00:00Z") None ]}
             {[ 1%N := mkEventObject None None (Some "g1"%string) (Some "A")
                         (Some "2024-05-01T09:00:00Z")
                         (Some "2024-05-01T11:00:00Z") None;
                2%N := mkEventObject None None None (Some "Draft") None None
                         None ]}
             ∅ [] in
  ∃ w', syncEvents (λ _, true) w = (Return tt, w')
    ∧ ∀ g, g ∈ GoogleCalendar.listed (λ _, true) w → has_document g w'.
Proof.
  intros w. apply syncEvents_covers_fetched.
  - intros g Hg. in_list Hg; split; by eexists.
  - intros m Hm Ht. in_list Hm; [done|]. split; by eexists.
Defined.

(** After a run no document is left with a dangling link: a
    [googleEventId] that is not empty is the identifier of an event of the
    calendar. This too is for fetched events and linked documents that
    have their [start] and [end] objects: a comparison that throws stops
    the run before the second loop, which is the one that repairs the
    links. *)
Theorem syncEvents_no_dangling_link (in_window : EventObject → bool)
    (w : World) :
  (∀ g, g ∈ GoogleCalendar.listed in_window w → has_times g) →
  (∀ m, m ∈ MongoCalendar.documents w → truthy (googleEventId m) = true →
     has_times m) →
  ∃ w', syncEvents in_window w = (Return tt, w')
    ∧ ∀ k d, events w' !! k = Some d → names_event w' d.
Proof.
  intros Htimes_g Htimes_m.
  destruct (first_loop_post in_window w Htimes_g Htimes_m)
    as (w1 & Hrun1 & Hg & Hl & Hn & Hq).
  destruct (second_loop_post in_window w w1 Hg Hl Hn Hq)
    as (w2 & Hrun2 & _ & Hnamed).
  exists w2. split; [by apply (syncEvents_run in_window w w1 w2) | done].
Qed.

Lemma syncEvents_no_dangling_link_witness :
  let w := mkWorld
             {[ "g1"%string := mkDetails (Some "A") (Some "2024-05-01T10:00:00Z")
                                 (Some "2024-05-01T11:00:00Z") None ]}
             {[ 1%N := mkEventObject None None (Some "g1"%string) (Some "A")
                         (Some "2024-05-01T10:00:00Z")
                         (Some "2024-05-01T11:00:00Z") None;
                2%N := mkEventObject None None (Some "gone"%string) (Some "B")
                         (Some "2024-05-03T10:00:00Z")
                         (Some "2024-05-03T11:00:00Z") None ]}
             ∅ [] in
  ∃ w', syncEvents (λ _, true) w = (Return tt, w')
    ∧ ∀ k d, events w' !! k = Some d → names_event w' d.
Proof.
  intros w. apply syncEvents_no_dangling_link.
  - intros g Hg. in_list Hg. split; by eexists.
  - intros m Hm Ht. in_list Hm; split; by eexists.
Defined.

(** When several fetched documents carry the same [googleEventId], the
    [Map] keeps the last of them: the earlier ones are not seen by the
    first loop. *)
Theorem index_by_googleEventId_duplicates (earlier later : list EventObject)
    (event : EventObject) (g : string) :
  googleEventId event = Some g → g ≠ ""%string →
  (∀ d, d ∈ later → googleEventId d ≠ Some g) →
  index_by_googleEventId (earlier ++ event :: later) !! g = Some event.
Proof.
  intros Hg Hne Hlater. rewrite index_by_googleEventId_last.
  rewrite List.filter_app. simpl.
  assert (linked_to g event = true) as ->.
  { unfold linked_to. rewrite bool_decide_eq_true_2 by done. simpl.
    by apply negb_true_iff, String.eqb_neq. }
  assert (List.filter (linked_to g) later = []) as ->.
  { induction later as [|d l IH]; simpl; [done|].
    assert (linked_to g d = false) as ->.
    { unfold linked_to. rewrite bool_decide_eq_false_2; [done|].
      apply Hlater. by left. }
    apply IH. intros d' Hd'. apply Hlater. by right. }
  by rewrite last_snoc.
Qed.

Lemma index_by_googleEventId_duplicates_witness :
  let first := mkEventObject (Some 1%N) None (Some "g1"%string) (Some "A"%string)
                 None None None in
  let second := mkEventObject (Some 2%N) None (Some "g1"%string)
                  (Some "B"%string) None None None in
  index_by_googleEventId ([first] ++ second :: []) !! "g1"%string = Some second.
Proof.
  intros first second.
  apply (index_by_googleEventId_duplicates [first] [] second "g1");
    [done | done |].
  intros d Hd. by apply elem_of_nil in Hd.
Defined.

(** *** Two runs in a row *)

Lemma NoDup_List_filter {A} (f : A → bool) (l : list A) :
  NoDup l → NoDup (List.filter f l).
Proof.
  induction 1 as [|x l Hx _ IH]; simpl; [constructor|].
  destruct (f x); [|done]. constructor; [|done].
  intros Hin. apply Hx.
  by apply list_elem_of_In, filter_In in Hin as [Hin%list_elem_of_In _].
Qed.

(** The calendar lists an event once. *)
Lemma listed_NoDup in_window w : NoDup (GoogleCalendar.listed in_window w).
Proof.
  unfold GoogleCalendar.listed. apply NoDup_List_filter.
  apply NoDup_fmap_2_strong; [|apply NoDup_map_to_list].
  intros [k d] [k' d'] _ _ Heq. simpl in Heq.
  injection Heq as -> Hs Hst Hen Hde.
  destruct d, d'. simpl in *. congruence.
Qed.

Lemma union_covered {A} (x y : option A) : (x = None → y = None) → x ∪ y = x.
Proof. destruct x, y; try done. intros H. by specialize (H eq_refl). Qed.

(** The copy of an event that the first loop inserts is quiet with it. *)
Lemma copy_quiet x k link : quiet x (with__id k (with_googleEventId link x)).
Proof.
  unfold quiet, hasEventChanged. simpl.
  rewrite bool_decide_eq_false_2 by (by intros ?).
  destruct (start x) as [xs|]; simpl; [|done].
  rewrite bool_decide_eq_false_2 by (by intros ?).
  destruct (end_ x) as [xe|]; simpl; [|done].
  rewrite bool_decide_eq_false_2 by (by intros ?).
  rewrite bool_decide_eq_false_2 by (by intros ?). done.
Qed.

(** What [$set] of the event leaves in a document that the event covers is
    quiet with it. *)
Lemma set_fields_quiet x d :
  covers x d → quiet x (set_fields (with_googleEventId (id_ x) x) d).
Proof.
  intros (Hsummary & _ & _ & Hdescription).
  unfold quiet, hasEventChanged. simpl.
  rewrite (union_covered _ _ Hsummary), (union_covered _ _ Hdescription).
  rewrite bool_decide_eq_false_2 by (by intros ?).
  destruct (start x) as [xs|]; simpl; [|done].
  rewrite union_Some_l. simpl.
  rewrite bool_decide_eq_false_2 by (by intros ?).
  destruct (end_ x) as [xe|]; simpl; [|done].
  rewrite union_Some_l. simpl.
  rewrite bool_decide_eq_false_2 by (by intros ?).
  rewrite bool_decide_eq_false_2 by (by intros ?). done.
Qed.

Section two_runs.

Variable in_window : EventObject → bool.
Variable w : World.

Local Abbreviation googleEvents := (GoogleCalendar.listed in_window w).
Local Abbreviation mongoEvents := (MongoCalendar.documents w).
Local Abbreviation mongoEventsMap := (index_by_googleEventId mongoEvents).

Hypothesis Hids : ∀ g, g ∈ googleEvents → id_ g ≠ Some ""%string.

Hypothesis Hunique :
  ∀ m m', m ∈ mongoEvents → m' ∈ mongoEvents →
          truthy (googleEventId m) = true →
          googleEventId m = googleEventId m' → m = m'.

Hypothesis Hcovers :
  ∀ g m, g ∈ googleEvents → m ∈ mongoEvents → googleEventId m = id_ g →
         covers g m.

Lemma listed_truthy x : x ∈ googleEvents → truthy (id_ x) = true.
Proof.
  intros Hx. destruct (listed_id _ _ _ Hx) as [g Hg]. rewrite Hg. simpl.
  apply negb_true_iff, String.eqb_neq. intros ->. by apply (Hids x).
Qed.

(** A document linked to an event that the loop has not come to is as it
    was in the snapshot. *)
Lemma settled_untouched seen v x k d :
  settled seen w v → (∀ g, g ∈ seen → g ∈ googleEvents) →
  x ∈ googleEvents → x ∉ seen →
  events v !! k = Some d → googleEventId d = id_ x →
  events w !! k = Some d.
Proof.
  intros (_ & _ & _ & _ & Hold & Hnew) Hsub Hx Hfresh Hk Hlink.
  assert (∀ g, g ∈ seen → googleEventId d = id_ g → False) as Hno.
  { intros g Hg Hgd. apply Hfresh.
    assert (g = x) as <-; [|done].
    apply (listed_same_id in_window w); [by apply Hsub | done | congruence]. }
  destruct (events w !! k) as [d0|] eqn:Hk0.
  - destruct (Hold k d0 Hk0) as (d' & Hd' & _ & [->|(g & Hg & Hgd)]);
      rewrite Hk in Hd'; injection Hd' as <-; [done|].
    by destruct (Hno g Hg Hgd).
  - destruct (Hnew k d Hk Hk0) as (g & Hg & Hgd). by destruct (Hno g Hg Hgd).
Qed.

(** The document of the snapshot that carries the identifier of a fetched
    event is the one the [Map] has for it. *)
Lemma linked_is_indexed x g k d0 ev :
  x ∈ googleEvents → id_ x = Some g →
  events w !! k = Some d0 → googleEventId d0 = Some g →
  mongoEventsMap !! g = Some ev → ev = with__id k d0.
Proof.
  intros Hx Hg Hk Hlink Hev.
  apply index_lookup_Some in Hev as (Hin & Hgid & _).
  symmetry. apply Hunique; [by apply documents_elem | done | |].
  - simpl. rewrite Hlink, <- Hg. by apply listed_truthy.
  - simpl. congruence.
Qed.

Lemma first_loop_step seen x rest v :
  googleEvents = seen ++ x :: rest → settled seen w v →
  (∃ v' cs, sync_from_google mongoEventsMap x v = (Return tt, v')
            ∧ settled (seen ++ [x]) w v'
            ∧ calls v' = calls v ++ cs ∧ True)
  ∨ (∃ e, sync_from_google mongoEventsMap x v = (Throw e, v)).
Proof.
  intros Hl Hv.
  assert (x ∈ googleEvents) as Hx.
  { rewrite Hl. apply elem_of_app. right. by left. }
  assert (∀ g, g ∈ seen → g ∈ googleEvents) as Hsub.
  { intros g Hg. rewrite Hl. apply elem_of_app. by left. }
  assert (x ∉ seen) as Hfresh.
  { pose proof (listed_NoDup in_window w) as Hnodup. rewrite Hl in Hnodup.
    apply NoDup_app in Hnodup as (_ & Hdisj & _).
    intros Hin. apply (Hdisj x Hin). by left. }
  assert (∀ g, g ∈ seen ++ [x] → g ∈ seen ∨ g = x) as Hsplit.
  { intros g [?|?%list_elem_of_singleton]%elem_of_app; [by left|by right]. }
  assert (∀ k d, events v !! k = Some d → googleEventId d = id_ x →
                 events w !! k = Some d) as Huntouched.
  { intros k d. by apply (settled_untouched seen v x). }
  destruct Hv as (Hg & Ht & Hquiet & Hhas & Hold & Hnew).
  destruct (listed_id _ _ _ Hx) as [kx Hidx].
  assert (∀ k d ev, events v !! k = Some d → googleEventId d = id_ x →
            mongoEventsMap !! kx = Some ev → ev = with__id k d) as Hindexed.
  { intros k d ev Hk Hlink Hev.
    apply (linked_is_indexed x kx); [done | done | | congruence | done].
    by apply Huntouched. }
  destruct (sync_from_google_outcome mongoEventsMap x v kx)
    as [(ev & Hm & Hc & Hrun)|[(ev & Hm & Hc & Hrun)
       |[(Hm & kn & Hnone & Hrun)|(ev & e & Hm & Hc & Hrun)]]];
    [by eapply listed_no__id | done | | | |].
  - (* nothing to do *)
    left. exists v, []. rewrite app_nil_r. split_and!; try done.
    apply index_lookup_Some in Hm as Hev. destruct Hev as (Hin & Hgid & _).
    apply documents_stored in Hin as (k & d0 & Hev & Hk).
    unfold settled. split_and!; try done.
    + intros k2 d2 g Hk2 [Hgin| ->]%Hsplit Hlink; [by eapply Hquiet|].
      rewrite (Hindexed k2 d2 ev Hk2 Hlink Hm) in Hc.
      unfold quiet. change (hasEventChanged x d2) with
        (hasEventChanged x (with__id k2 d2)). by rewrite Hc.
    + intros g [Hgin| ->]%Hsplit; [by apply Hhas|].
      destruct (Hold k d0 Hk) as (d & Hd & Hlink & _).
      exists k, d. split; [done|]. rewrite Hlink, Hidx.
      rewrite Hev in Hgid. exact Hgid.
    + intros k2 d2 Hk2. destruct (Hold k2 d2 Hk2) as (d & Hd & Hlink & Hcase).
      exists d. split_and!; [done | done |].
      destruct Hcase as [?|(g & Hgin & Hgd)]; [by left|].
      right. exists g. split; [|done]. apply elem_of_app. by left.
    + intros k2 d2 Hk2 Hnone. destruct (Hnew k2 d2 Hk2 Hnone) as (g & Hgin & ?).
      exists g. split; [|done]. apply elem_of_app. by left.
  - (* the document is rewritten *)
    left. apply index_lookup_Some in Hm as Hev.
    destruct Hev as (Hin & Hgid & _).
    apply documents_stored in Hin as (k & d0 & Hev & Hk).
    rewrite Hev in Hgid, Hrun. simpl in Hgid, Hrun.
    destruct (Hold k d0 Hk) as (d & Hd & Hlink & _).
    assert (d = d0) as ->.
    { assert (events w !! k = Some d) as Hk'.
      { apply Huntouched; [done | congruence]. }
      congruence. }
    set (copy := with_googleEventId (id_ x) x) in *.
    assert (quiet x (set_fields copy d0)) as Hnow.
    { apply set_fields_quiet.
      apply (Hcovers x (with__id k d0)); [done | by apply documents_elem |].
      simpl. congruence. }
    assert (googleEventId (set_fields copy d0) = id_ x) as Hlinked.
    { simpl. by rewrite Hidx, union_Some_l. }
    eexists _, _. split; [exact Hrun|]. split_and!; [|done|done].
    unfold settled, record. simpl. split_and!; try done.
    + intros k2 d2 g Hk2 Hgin Hlink2.
      destruct (decide (k2 = k)) as [->|Hne].
      * rewrite lookup_alter_eq, Hd in Hk2. injection Hk2 as <-.
        assert (g = x) as ->; [|done].
        destruct (Hsplit g Hgin) as [Hgs|]; [|done].
        apply (listed_same_id in_window w);
          [by apply Hsub | done | congruence].
      * rewrite lookup_alter_ne in Hk2 by done.
        destruct (Hsplit g Hgin) as [Hgs| ->]; [by eapply Hquiet|].
        pose proof (Hindexed k2 d2 ev Hk2 Hlink2 Hm) as Heq.
        rewrite Hev in Heq. apply (f_equal _id) in Heq. simpl in Heq.
        congruence.
    + intros g [Hgin| ->]%Hsplit.
      * destruct (Hhas g Hgin) as (k2 & d2 & Hk2 & Hlink2).
        exists k2, d2. split; [|done].
        rewrite lookup_alter_ne; [done|]. intros <-.
        rewrite Hd in Hk2. injection Hk2 as <-.
        apply Hfresh. assert (g = x) as <-; [|done].
        apply (listed_same_id in_window w);
          [by apply Hsub | done | congruence].
      * exists k. eexists. by rewrite lookup_alter_eq, Hd.
    + intros k2 d2 Hk2. destruct (decide (k2 = k)) as [->|Hne].
      * eexists. rewrite lookup_alter_eq, Hd. split; [done|].
        rewrite Hk in Hk2. injection Hk2 as <-. split; [congruence|].
        right. exists x. split; [|done]. apply elem_of_app. right. by left.
      * destruct (Hold k2 d2 Hk2) as (d & Hd2 & Hlink2 & Hcase).
        exists d. rewrite lookup_alter_ne by done.
        split_and!; [done | done |].
        destruct Hcase as [?|(g & Hgin & Hgd)]; [by left|].
        right. exists g. split; [|done]. apply elem_of_app. by left.
    + intros k2 d2 Hk2 Hnone.
      assert (k2 ≠ k) as Hne by congruence.
      rewrite lookup_alter_ne in Hk2 by done.
      destruct (Hnew k2 d2 Hk2 Hnone) as (g & Hgin & ?).
      exists g. split; [|done]. apply elem_of_app. by left.
  - (* a document is inserted *)
    left. set (copy := with_googleEventId (id_ x) x) in *.
    assert (events w !! kn = None) as Hnone0.
    { destruct (events w !! kn) as [d0|] eqn:Hk0; [|done].
      destruct (Hold kn d0 Hk0) as (d & Hd & _). congruence. }
    eexists _, _. split; [exact Hrun|]. split_and!; [|done|done].
    unfold settled, record. simpl. split_and!; try done.
    + intros k2 d2 g Hk2 Hgin Hlink2.
      destruct (decide (k2 = kn)) as [->|Hne].
      * rewrite lookup_insert_eq in Hk2. injection Hk2 as <-.
        assert (g = x) as ->; [|apply copy_quiet].
        destruct (Hsplit g Hgin) as [Hgs|]; [|done].
        apply (listed_same_id in_window w);
          [by apply Hsub | done | simpl in Hlink2; congruence].
      * rewrite lookup_insert_ne in Hk2 by done.
        destruct (Hsplit g Hgin) as [Hgs| ->]; [by eapply Hquiet|].
        exfalso.
        destruct (index_lookup_is_Some mongoEvents kx (with__id k2 d2))
          as [ev Hev]; [| simpl; congruence | | congruence].
        -- apply documents_elem. by apply Huntouched.
        -- simpl. rewrite Hlink2. by apply listed_truthy.
    + intros g [Hgin| ->]%Hsplit.
      * destruct (Hhas g Hgin) as (k2 & d2 & Hk2 & Hlink2).
        exists k2, d2. split; [|done].
        rewrite lookup_insert_ne; [done | congruence].
      * exists kn. eexists. by rewrite lookup_insert_eq.
    + intros k2 d2 Hk2. destruct (Hold k2 d2 Hk2) as (d & Hd & Hlink2 & Hcase).
      exists d. rewrite lookup_insert_ne by congruence.
      split_and!; [done | done |].
      destruct Hcase as [?|(g & Hgin & Hgd)]; [by left|].
      right. exists g. split; [|done]. apply elem_of_app. by left.
    + intros k2 d2 Hk2 Hnone2. destruct (decide (k2 = kn)) as [->|Hne].
      * rewrite lookup_insert_eq in Hk2. injection Hk2 as <-.
        exists x. split; [|done]. apply elem_of_app. right. by left.
      * rewrite lookup_insert_ne in Hk2 by done.
        destruct (Hnew k2 d2 Hk2 Hnone2) as (g & Hgin & ?).
        exists g. split; [|done]. apply elem_of_app. by left.
  - right. by exists e.
Qed.

(** The first loop of the first run. *)
Lemma first_loop_settles :
  ∃ r w1 seen,
    for_of googleEvents (sync_from_google mongoEventsMap)
      (record EventsFind (record GoogleList w)) = (r, w1)
    ∧ settled seen w w1
    ∧ ((r = Return tt ∧ seen = googleEvents)
       ∨ (∃ e x rest, r = Throw e ∧ googleEvents = seen ++ x :: rest
            ∧ sync_from_google mongoEventsMap x w1 = (Throw e, w1))).
Proof.
  destruct (for_of_trace (λ seen v, settled seen w v) (λ _ _, True)
              googleEvents (sync_from_google mongoEventsMap))
    with (w := record EventsFind (record GoogleList w))
    as (r & w1 & seen & css & Hrun & Hset & _ & _ & Hend).
  - intros seen x rest v. apply first_loop_step.
  - unfold settled. simpl. split_and!; try done.
    + intros k d g _ Hg. by apply elem_of_nil in Hg.
    + intros g Hg. by apply elem_of_nil in Hg.
    + intros k d0 Hk. exists d0. split_and!; [done | done | by left].
    + intros k d Hk Hnone. congruence.
  - by exists r, w1, seen.
Qed.

(** On what the first loop left, the first loop of a second run writes
    nothing. *)
Lemma second_run_first_loop seen tail (w1 v : World) :
  googleEvents = seen ++ tail → settled seen w w1 → events v = events w1 →
  (tail = []
   ∨ ∃ x rest e, tail = x :: rest
       ∧ sync_from_google mongoEventsMap x w1 = (Throw e, w1)) →
  ∃ r, for_of googleEvents
         (sync_from_google (index_by_googleEventId (MongoCalendar.documents w1)))
         v = (r, v)
       ∧ (r = Return tt → tail = []).
Proof.
  intros Hl Hset Hev Htail. rewrite Hl.
  set (map1 := index_by_googleEventId (MongoCalendar.documents w1)).
  assert (∀ g, g ∈ seen → g ∈ googleEvents) as Hsub.
  { intros g Hg. rewrite Hl. apply elem_of_app. by left. }
  pose proof Hset as (Hg & Ht & Hquiet & Hhas & Hold & Hnew).
  (* what the second [Map] has for a fetched event that has a document *)
  assert (∀ x kx k d, x ∈ googleEvents → id_ x = Some kx →
            events w1 !! k = Some d → googleEventId d = id_ x →
            ∃ k1 d1, map1 !! kx = Some (with__id k1 d1)
                     ∧ events w1 !! k1 = Some d1
                     ∧ googleEventId d1 = id_ x) as Hmap1.
  { intros x kx k d Hx Hidx Hk Hlink.
    destruct (index_lookup_is_Some (MongoCalendar.documents w1) kx
                (with__id k d)) as [ev Hev1].
    - by apply documents_elem.
    - simpl. congruence.
    - simpl. rewrite Hlink. by apply listed_truthy.
    - apply index_lookup_Some in Hev1 as Hin.
      destruct Hin as (Hin & Hgid & _).
      apply documents_stored in Hin as (k1 & d1 & -> & Hk1).
      exists k1, d1. split_and!; [done | done |]. simpl in Hgid. congruence. }
  apply for_of_writes_nothing.
  - intros x Hxs.
    assert (x ∈ googleEvents) as Hx by (by apply Hsub).
    destruct (listed_id _ _ _ Hx) as [kx Hidx].
    destruct (Hhas x Hxs) as (k & d & Hk & Hlink).
    destruct (Hmap1 x kx k d Hx Hidx Hk Hlink) as (k1 & d1 & Hm1 & Hk1 & Hl1).
    pose proof (Hquiet k1 d1 x Hk1 Hxs Hl1) as Hq.
    destruct (sync_from_google_outcome map1 x v kx)
      as [(ev & Hm & Hc & Hrun)|[(ev & Hm & Hc & Hrun)
         |[(Hm & kn & Hnone & Hrun)|(ev & e & Hm & Hc & Hrun)]]];
      [by eapply listed_no__id | done | | | |].
    + by left.
    + exfalso. rewrite Hm1 in Hm. injection Hm as <-. by apply Hq.
    + congruence.
    + right. by exists e.
  - destruct Htail as [->|(x & rest & e & -> & Hthrow)]; [by left|].
    right. exists x, rest.
    assert (x ∈ googleEvents) as Hx.
    { rewrite Hl. apply elem_of_app. right. by left. }
    assert (x ∉ seen) as Hfresh.
    { pose proof (listed_NoDup in_window w) as Hnodup. rewrite Hl in Hnodup.
      apply NoDup_app in Hnodup as (_ & Hdisj & _).
      intros Hin. apply (Hdisj x Hin). by left. }
    destruct (listed_id _ _ _ Hx) as [kx Hidx].
    (* the document that made the first run throw *)
    destruct (sync_from_google_outcome mongoEventsMap x w1 kx)
      as [(ev & Hm & Hc & Hrun)|[(ev & Hm & Hc & Hrun)
         |[(Hm & kn & Hnone & Hrun)|(ev & e' & Hm & Hc & Hrun)]]];
      [by eapply listed_no__id | done | | | |]; try congruence.
    apply index_lookup_Some in Hm as Hin. destruct Hin as (Hin & Hgid & _).
    apply documents_stored in Hin as (k & d0 & Hev0 & Hk).
    rewrite Hev0 in Hgid. simpl in Hgid.
    destruct (Hold k d0 Hk) as (d & Hd & Hlink & _).
    destruct (Hmap1 x kx k d Hx Hidx Hd) as (k1 & d1 & Hm1 & Hk1 & Hl1);
      [congruence|].
    assert (events w !! k1 = Some d1) as Hk1w.
    { by apply (settled_untouched seen w1 x). }
    assert (ev = with__id k1 d1) as Hsame.
    { apply (linked_is_indexed x kx); [done | done | done | congruence | done]. }
    destruct (sync_from_google_outcome map1 x v kx)
      as [(ev2 & Hm2 & Hc2 & Hrun2)|[(ev2 & Hm2 & Hc2 & Hrun2)
         |[(Hm2 & kn & Hnone & Hrun2)|(ev2 & e2 & Hm2 & Hc2 & Hrun2)]]];
      [by eapply listed_no__id | done | | | |]; try congruence.
    by exists e2.
Qed.

End two_runs.



End SyncMore.

(** ** More on task scheduling *)

Module SchedulingMore.
Import Js Stores JsProps SyncProps SchedulingInterface SchedulingProps FreshProps.

(** [insertEvent] of data without an [_id]: the event is afterwards in the
    calendar under the returned [googleEventId] and in the collection under
    the returned [mongoEventId], the document carries that [googleEventId]
    and the same four properties, and nothing else moved. *)
Theorem insertEvent_in_both_stores (eventData : EventObject) (w : World) :
  _id eventData = None →
  ∃ newId key doc w',
    Time.insertEvent eventData w = (Return (Some newId, key), w')
    ∧ google w !! newId = None ∧ events w !! key = None
    ∧ google w' = <[newId := details_of eventData]> (google w)
    ∧ events w' = <[key := doc]> (events w)
    ∧ googleEventId doc = Some newId
    ∧ details_of doc = details_of eventData
    ∧ tasks w' = tasks w.
Proof.
  intros Hid.
  set (newId := fresh (GoogleCalendar.known_ids w)).
  set (key := MongoCalendar.new_ObjectId w).
  exists newId, key, (with__id key (with_googleEventId (Some newId) eventData)).
  eexists. split_and!.
  - unfold Time.insertEvent. apply try_catch_return.
    unfold GoogleCalendar.authenticate.
    erewrite bind_run by reflexivity.
    erewrite bind_run by reflexivity.
    erewrite bind_run by by apply insertEvent_fresh.
    reflexivity.
  - apply new_google_id_fresh.
  - apply new_ObjectId_fresh.
  - done.
  - done.
  - done.
  - done.
  - done.
Qed.

Lemma insertEvent_in_both_stores_witness :
  let eventData := mkEventObject None None None (Some "Dentist")
                     (Some "2024-05-01T10:00:00Z")
                     (Some "2024-05-01T11:00:00Z") None in
  let w := mkWorld ∅ ∅ ∅ [] in
  ∃ newId key doc w',
    Time.insertEvent eventData w = (Return (Some newId, key), w')
    ∧ google w !! newId = None ∧ events w !! key = None
    ∧ google w' = <[newId := details_of eventData]> (google w)
    ∧ events w' = <[key := doc]> (events w)
    ∧ googleEventId doc = Some newId
    ∧ details_of doc = details_of eventData
    ∧ tasks w' = tasks w.
Proof. intros eventData w. by apply insertEvent_in_both_stores. Defined.

(** [insertEvent] is not atomic: when the data bring the [_id] of a
    document that exists, the insert into the collection is refused and the
    call throws, but the event it has just created stays in the calendar. *)
Theorem insertEvent_duplicate_id (eventData : EventObject) (w : World) (k : N) :
  _id eventData = Some k → is_Some (events w !! k) →
  ∃ e newId w',
    Time.insertEvent eventData w = (Throw e, w')
    ∧ google w !! newId = None
    ∧ google w' = <[newId := details_of eventData]> (google w)
    ∧ events w' = events w ∧ tasks w' = tasks w.
Proof.
  intros Hid [d Hd].
  exists (Error "E11000 duplicate key error collection"),
    (fresh (GoogleCalendar.known_ids w)).
  eexists. split_and!.
  - unfold Time.insertEvent. apply try_catch_rethrow.
    unfold GoogleCalendar.authenticate.
    erewrite bind_run by reflexivity.
    erewrite bind_run by reflexivity.
    apply bind_throw.
    unfold MongoCalendar.insertEvent. apply try_catch_rethrow.
    simpl. rewrite Hid. simpl. rewrite Hd. reflexivity.
  - apply new_google_id_fresh.
  - done.
  - done.
  - done.
Qed.

Lemma insertEvent_duplicate_id_witness :
  let stored := mkEventObject None None None (Some "Dentist") None None None in
  let w := mkWorld ∅ {[ 7%N := stored ]} ∅ [] in
  ∃ e newId w',
    Time.insertEvent (with__id 7 stored) w = (Throw e, w')
    ∧ google w !! newId = None
    ∧ google w' = <[newId := details_of (with__id 7 stored)]> (google w)
    ∧ events w' = events w ∧ tasks w' = tasks w.
Proof.
  intros stored w.
  apply (insertEvent_duplicate_id (with__id 7 stored) w 7%N); [done|].
  by exists stored.
Defined.

(** [unscheduleTask] for an identifier that names no task: it throws and
    changes nothing, like [scheduleTask]; the error is the not-found one
    when [ObjectId.isValid] accepts the identifier (24 hexadecimal digits,
    or any 12 characters) and that of the identifier check otherwise. *)
Theorem unscheduleTask_unknown_task (w : World) (taskId : string) :
  ¬ existing_task w taskId →
  ∃ w', unscheduleTask taskId w
        = (Throw (if ObjectId_isValid taskId then not_found taskId
                  else invalid_id), w')
    ∧ google w' = google w ∧ events w' = events w ∧ tasks w' = tasks w
    ∧ Time.plan_of w w' = [].
Proof.
  intros Hno. unfold unscheduleTask.
  destruct (ObjectId_isValid taskId) eqn:Hvalid.
  - assert (tasks w !! ObjectId taskId = None) as Hnone.
    { apply eq_None_not_Some. intros Hsome. by apply Hno. }
    eexists. split.
    + apply try_catch_rethrow. erewrite bind_run.
      2:{ by apply retrieveTaskById_valid. }
      rewrite Hnone. reflexivity.
    + simpl. split_and!; try done.
      unfold Time.plan_of. simpl. by rewrite drop_app_length.
  - exists w. split.
    + apply try_catch_rethrow. apply bind_throw.
      by apply retrieveTaskById_invalid.
    + split_and!; try done. unfold Time.plan_of. by rewrite drop_all.
Qed.

Lemma unscheduleTask_unknown_task_witness :
  let w := mkWorld ∅ ∅ {[ 1%N := mkTask "Write report" 2 None None ]} [] in
  ∃ w', unscheduleTask "not an id" w = (Throw invalid_id, w')
    ∧ google w' = google w ∧ events w' = events w ∧ tasks w' = tasks w
    ∧ Time.plan_of w w' = [].
Proof.
  intros w. apply (unscheduleTask_unknown_task w "not an id").
  intros [Hvalid _]. vm_compute in Hvalid. discriminate Hvalid.
Defined.

(** With an identifier of 12 characters the task is looked up and not
    found. *)
Example unscheduleTask_twelve_characters :
  let w := mkWorld ∅ ∅ {[ 1%N := mkTask "Write report" 2 None None ]} [] in
  unscheduleTask "task-42abcde" w
  = (Throw (not_found "task-42abcde"),
     record (TasksFindOne (ObjectId "task-42abcde")) w).
Proof. reflexivity. Qed.

(** A task whose linked event is no longer in the calendar cannot be
    unscheduled: the calendar refuses the deletion, [unscheduleTask] throws
    and the task keeps its [scheduled] and [calendarEventId]. *)
Theorem unscheduleTask_stale_link (w : World) (taskId eventId : string)
    (task : Task) :
  ObjectId_isValid taskId = true →
  tasks w !! ObjectId taskId = Some task →
  calendarEventId task = Some eventId → eventId ≠ ""%string →
  google w !! eventId = None →
  ∃ e w', unscheduleTask taskId w = (Throw e, w')
    ∧ google w' = google w ∧ events w' = events w ∧ tasks w' = tasks w.
Proof.
  intros Hvalid Htask Hlink Hne Hgone.
  exists (Error "Not Found"). eexists. split.
  - unfold unscheduleTask. apply try_catch_rethrow.
    erewrite bind_run by by apply retrieveTaskById_valid.
    rewrite Htask. simpl. rewrite Hlink.
    assert (negb (eventId =? "")%string = true) as ->.
    { apply negb_true_iff, String.eqb_neq. done. }
    rewrite call_member_exported by (unfold Time.exports; set_solver).
    apply bind_throw.
    unfold Time.deleteEvent. apply try_catch_rethrow.
    unfold GoogleCalendar.authenticate.
    erewrite bind_run by reflexivity.
    apply bind_throw.
    unfold GoogleCalendar.deleteEvent. simpl. rewrite Hgone. reflexivity.
  - done.
Qed.

Lemma unscheduleTask_stale_link_witness :
  let task := mkTask "Write report" 2 (Some true) (Some "gone"%string) in
  let w := mkWorld ∅ ∅ {[ 1%N := task ]} [] in
  ∃ e w', unscheduleTask "000000000000000000000001" w = (Throw e, w')
    ∧ google w' = google w ∧ events w' = events w ∧ tasks w' = tasks w.
Proof.
  intros task w.
  by apply (unscheduleTask_stale_link w "000000000000000000000001" "gone" task).
Defined.

(** What [scheduleTask] leaves for an existing task. *)
Lemma scheduleTask_result (utc_format : string → string → string)
    (w : World) (taskId : string) (slot : TimeSlot) (timeZone : string)
    (task : Task) :
  ObjectId_isValid taskId = true →
  tasks w !! ObjectId taskId = Some task →
  ∃ newId mongoId details doc w1,
    scheduleTask utc_format taskId slot timeZone w
    = (Return ("Task scheduled successfully. Calendar Event ID: " +:+ newId),
       w1)
    ∧ newId ≠ ""%string ∧ google w !! newId = None
    ∧ mongoId ≠ ObjectId taskId ∧ events w !! mongoId = None
    ∧ googleEventId doc = Some newId
    ∧ google w1 = <[newId := details]> (google w)
    ∧ events w1 = <[mongoId := doc]> (events w)
    ∧ tasks w1
      = <[ObjectId taskId := mkTask (title task) (duration task) (Some true)
                               (Some newId)]> (tasks w).
Proof.
  intros Hvalid Htask.
  set (eventData :=
         mkEventObject None None None (Some (title task))
           (Some (utc_format (slot_start slot) timeZone))
           (Some (utc_format (slot_end slot) timeZone))
           (Some ("Task ID: " +:+ taskId))).
  set (w0 := record (TasksFindOne (ObjectId taskId)) w).
  set (newId := fresh (GoogleCalendar.known_ids w0)).
  set (mongoId := MongoCalendar.new_ObjectId w0).
  exists newId, mongoId, (details_of eventData),
    (with__id mongoId (with_googleEventId (Some newId) eventData)).
  eexists. split_and!.
  - unfold scheduleTask. apply try_catch_return.
    erewrite bind_run by by apply retrieveTaskById_valid.
    rewrite Htask. simpl.
    rewrite call_member_exported by (unfold Time.exports; set_solver).
    erewrite bind_run.
    2:{ unfold Time.insertEvent. apply try_catch_return.
        unfold GoogleCalendar.authenticate.
        erewrite bind_run by reflexivity.
        erewrite bind_run by reflexivity.
        erewrite bind_run by by apply insertEvent_fresh.
        reflexivity. }
    erewrite bind_run by by apply updateTaskData_valid.
    reflexivity.
  - apply fresh_set_nonempty.
  - apply (new_google_id_fresh w0).
  - intros Heq.
    pose proof (is_fresh (dom (events w0) ∪ dom (tasks w0))) as Hfr.
    apply Hfr. fold (MongoCalendar.new_ObjectId w0). fold mongoId.
    rewrite Heq. apply elem_of_union_r, elem_of_dom. by eexists.
  - apply (new_ObjectId_fresh w0).
  - done.
  - done.
  - done.
  - simpl. apply map_eq. intros k. rewrite lookup_alter, lookup_insert.
    destruct (decide (ObjectId taskId = k)) as [<-|]; [|done].
    rewrite Htask. unfold set_task_fields. simpl.
    by destruct (scheduled task).
Qed.

(** What [unscheduleTask] leaves for a task linked to an event of the
    calendar. *)
Lemma unscheduleTask_result (w : World) (taskId eventId : string) (task : Task)
    (details : Details) :
  ObjectId_isValid taskId = true →
  tasks w !! ObjectId taskId = Some task →
  calendarEventId task = Some eventId → eventId ≠ ""%string →
  google w !! eventId = Some details →
  ∃ w', unscheduleTask taskId w = (Return "Task unscheduled successfully.", w')
    ∧ google w' = delete eventId (google w)
    ∧ events w' = delete (ObjectId taskId) (events w)
    ∧ tasks w'
      = <[ObjectId taskId := mkTask (title task) (duration task) (Some false)
                               None]> (tasks w).
Proof.
  intros Hvalid Htask Hlink Hne Hthere. eexists. split.
  - unfold unscheduleTask. apply try_catch_return.
    erewrite bind_run by by apply retrieveTaskById_valid.
    rewrite Htask. simpl. rewrite Hlink.
    assert (negb (eventId =? "")%string = true) as ->.
    { apply negb_true_iff, String.eqb_neq. done. }
    rewrite call_member_exported by (unfold Time.exports; set_solver).
    erewrite bind_run.
    2:{ unfold Time.deleteEvent. apply try_catch_return.
        unfold GoogleCalendar.authenticate.
        erewrite bind_run by reflexivity.
        erewrite bind_run.
        2:{ unfold GoogleCalendar.deleteEvent. simpl. rewrite Hthere.
            reflexivity. }
        reflexivity. }
    erewrite bind_run by by apply updateTaskData_valid.
    reflexivity.
  - simpl. split_and!; try done.
    apply map_eq. intros k. rewrite lookup_alter, lookup_insert.
    destruct (decide (ObjectId taskId = k)) as [<-|]; [|done].
    rewrite Htask. unfold set_task_fields. simpl.
    by destruct (scheduled task).
Qed.

(** Scheduling a task and unscheduling it again: the calendar is back to
    what it was and the task is marked unscheduled with no link, but the
    collection has kept the document that [scheduleTask] inserted. *)
Theorem schedule_then_unschedule (utc_format : string → string → string)
    (w : World) (taskId : string) (slot : TimeSlot) (timeZone : string)
    (task : Task) :
  ObjectId_isValid taskId = true →
  tasks w !! ObjectId taskId = Some task →
  events w !! ObjectId taskId = None →
  ∃ message mongoId doc w1 w2,
    scheduleTask utc_format taskId slot timeZone w = (Return message, w1)
    ∧ unscheduleTask taskId w1 = (Return "Task unscheduled successfully.", w2)
    ∧ google w2 = google w
    ∧ events w !! mongoId = None
    ∧ is_Some (googleEventId doc)
    ∧ events w2 = <[mongoId := doc]> (events w)
    ∧ tasks w2
      = <[ObjectId taskId := mkTask (title task) (duration task) (Some false)
                               None]> (tasks w).
Proof.
  intros Hvalid Htask Hkey.
  destruct (scheduleTask_result utc_format w taskId slot timeZone task
              Hvalid Htask)
    as (newId & mongoId & details & doc & w1 & Hrun1 & Hnonempty & Hnew
        & Hmongo & Hfresh & Hgd & Hg1 & He1 & Ht1).
  destruct (unscheduleTask_result w1 taskId newId
              (mkTask (title task) (duration task) (Some true) (Some newId))
              details)
    as (w2 & Hrun2 & Hg2 & He2 & Ht2); try done.
  { by rewrite Ht1, lookup_insert_eq. }
  { by rewrite Hg1, lookup_insert_eq. }
  exists ("Task scheduled successfully. Calendar Event ID: " +:+ newId),
    mongoId, doc, w1, w2.
  split_and!.
  - done.
  - done.
  - rewrite Hg2, Hg1, delete_insert_eq. by apply delete_id.
  - done.
  - by rewrite Hgd.
  - rewrite He2, He1. apply delete_id.
    by rewrite lookup_insert_ne.
  - rewrite Ht2, Ht1. simpl. by rewrite insert_insert_eq.
Qed.

Lemma schedule_then_unschedule_witness :
  let w := mkWorld ∅ ∅ {[ 1%N := mkTask "Write report" 2 None None ]} [] in
  ∃ message mongoId doc w1 w2,
    scheduleTask (λ t _, t) "000000000000000000000001"
      (mkTimeSlot "2024-05-01T10:00:00" "2024-05-01T12:00:00") "UTC" w
    = (Return message, w1)
    ∧ unscheduleTask "000000000000000000000001" w1
      = (Return "Task unscheduled successfully.", w2)
    ∧ google w2 = google w
    ∧ events w !! mongoId = None
    ∧ is_Some (googleEventId doc)
    ∧ events w2 = <[mongoId := doc]> (events w)
    ∧ tasks w2
      = <[1%N := mkTask "Write report" 2 (Some false) None]> (tasks w).
Proof.
  intros w.
  by apply (schedule_then_unschedule (λ t _, t) w "000000000000000000000001"
              (mkTimeSlot "2024-05-01T10:00:00" "2024-05-01T12:00:00") "UTC"
              (mkTask "Write report" 2 None None)).
Defined.

(** [suggestTimeSlots] never returns: whatever the identifier, the stores
    and the time zone, it throws, and it writes nothing. *)
Theorem suggestTimeSlots_never_returns (zone_format : Z → string → string)
    (now endOfDay : Z) (Date_of : option string → Z)
    (fetchEvents_if_exported : M (list EventObject))
    (w : World) (taskId timeZone : string) :
  ∃ e w',
    suggestTimeSlots zone_format now endOfDay Date_of fetchEvents_if_exported
      taskId timeZone w = (Throw e, w')
    ∧ google w' = google w ∧ events w' = events w ∧ tasks w' = tasks w.
Proof.
  unfold suggestTimeSlots.
  destruct (ObjectId_isValid taskId) eqn:Hvalid.
  - destruct (tasks w !! ObjectId taskId) as [task|] eqn:Htask.
    + eexists _, _. split.
      * apply try_catch_rethrow.
        erewrite bind_run by by apply retrieveTaskById_valid.
        rewrite Htask. simpl. apply bind_throw.
        rewrite call_member_missing; [done|].
        intros Hin. apply (bool_decide_pack _) in Hin. vm_compute in Hin. done.
      * done.
    + eexists _, _. split.
      * apply try_catch_rethrow.
        erewrite bind_run by by apply retrieveTaskById_valid.
        rewrite Htask. reflexivity.
      * done.
  - eexists _, _. split.
    + apply try_catch_rethrow. apply bind_throw.
      by apply retrieveTaskById_invalid.
    + done.
Qed.

(** [updateTaskData] never creates a task: for a well-formed identifier
    that names no task it returns normally and the tasks are as before. *)
Theorem updateTaskData_unknown_task (w : World) (taskId : string)
    (patch : TaskPatch) :
  ObjectId_isValid taskId = true → tasks w !! ObjectId taskId = None →
  ∃ w', TasksData.updateTaskData taskId patch w = (Return tt, w')
    ∧ tasks w' = tasks w ∧ google w' = google w ∧ events w' = events w.
Proof.
  intros Hvalid Hnone. eexists. split; [by apply updateTaskData_valid|].
  simpl. split_and!; try done.
  apply map_eq. intros k. rewrite lookup_alter.
  destruct (decide (ObjectId taskId = k)) as [<-|]; [|done].
  by rewrite Hnone.
Qed.

Lemma updateTaskData_unknown_task_witness :
  let w := mkWorld ∅ ∅ {[ 1%N := mkTask "Write report" 2 None None ]} [] in
  ∃ w', TasksData.updateTaskData "000000000000000000000002"
          (mkTaskPatch (Some true) None) w = (Return tt, w')
    ∧ tasks w' = tasks w ∧ google w' = google w ∧ events w' = events w.
Proof.
  intros w. by apply updateTaskData_unknown_task.
Defined.

(** What [updateTaskData] writes is what [retrieveTaskById] reads back:
    the keys of the patch have their new values, the other properties of
    the task are as before. *)
Theorem updateTaskData_then_retrieve (w : World) (taskId : string)
    (patch : TaskPatch) (task : Task) :
  ObjectId_isValid taskId = true → tasks w !! ObjectId taskId = Some task →
  ∃ w1 w2,
    TasksData.updateTaskData taskId patch w = (Return tt, w1)
    ∧ TasksData.retrieveTaskById taskId w1
      = (Return (Some (ObjectId taskId,
                       mkTask (title task) (duration task)
                         (match p_scheduled patch with
                          | Some b => Some b
                          | None => scheduled task
                          end)
                         (match p_calendarEventId patch with
                          | Some link => link
                          | None => calendarEventId task
                          end))), w2)
    ∧ ∀ k, k ≠ ObjectId taskId → tasks w2 !! k = tasks w !! k.
Proof.
  intros Hvalid Htask.
  set (w1 := record (TasksUpdateOne (ObjectId taskId) patch)
               (mkWorld (google w) (events w)
                  (alter (set_task_fields patch) (ObjectId taskId) (tasks w))
                  (calls w))).
  exists w1, (record (TasksFindOne (ObjectId taskId)) w1). split_and!.
  - by apply updateTaskData_valid.
  - rewrite retrieveTaskById_valid by done. simpl.
    rewrite lookup_alter_eq, Htask. simpl. unfold set_task_fields.
    destruct (p_scheduled patch), (scheduled task),
      (p_calendarEventId patch); reflexivity.
  - intros k Hk. simpl. by rewrite lookup_alter_ne.
Qed.

Lemma updateTaskData_then_retrieve_witness :
  let task := mkTask "Write report" 2 None (Some "g1"%string) in
  let w := mkWorld ∅ ∅ {[ 1%N := task ]} [] in
  ∃ w1 w2,
    TasksData.updateTaskData "000000000000000000000001"
      (mkTaskPatch (Some false) (Some None)) w = (Return tt, w1)
    ∧ TasksData.retrieveTaskById "000000000000000000000001" w1
      = (Return (Some (1%N, mkTask "Write report" 2 (Some false) None)), w2)
    ∧ ∀ k, k ≠ 1%N → tasks w2 !! k = tasks w !! k.
Proof.
  intros task w.
  by apply (updateTaskData_then_retrieve w "000000000000000000000001"
              (mkTaskPatch (Some false) (Some None)) task).
Defined.

(** An instance: a task that was never scheduled. *)
Lemma unscheduleTask_not_scheduled_witness :
  let task := mkTask "Write report" 2 None None in
  let w := mkWorld ∅ ∅ {[ 1%N := task ]} [] in
  ∃ w', unscheduleTask "000000000000000000000001" w
        = (Return "Task unscheduled successfully.", w')
    ∧ google w' = google w ∧ events w' = events w
    ∧ tasks w'
      = <[1%N := mkTask "Write report" 2 (Some false) None]> (tasks w)
    ∧ Time.plan_of w w'
      = [TasksUpdateOne 1%N (mkTaskPatch (Some false) (Some None))].
Proof.
  intros task w.
  by apply (unscheduleTask_not_scheduled w "000000000000000000000001" task).
Defined.

(** [deleteEvent] asks the calendar first and the collection only after
    the calendar has answered: for an event the calendar holds, the event
    and the document stored under [mongoEventId] are both gone afterwards;
    for one it does not hold, the call throws the calendar's error and the
    collection is as before, the document included. *)
Theorem deleteEvent_calendar_first (googleEventId : string) (mongoEventId : N)
    (w : World) :
  ∃ w',
    match google w !! googleEventId with
    | Some _ =>
        Time.deleteEvent googleEventId mongoEventId w = (Return tt, w')
        ∧ google w' = delete googleEventId (google w)
        ∧ events w' = delete mongoEventId (events w)
    | None =>
        Time.deleteEvent googleEventId mongoEventId w
        = (Throw (Error "Not Found"), w')
        ∧ google w' = google w ∧ events w' = events w
    end
    ∧ tasks w' = tasks w.
Proof.
  unfold Time.deleteEvent, GoogleCalendar.authenticate.
  destruct (google w !! googleEventId) as [d|] eqn:Hd.
  - eexists. split; [split_and!|].
    + apply try_catch_return.
      erewrite bind_run by reflexivity.
      erewrite bind_run.
      2:{ unfold GoogleCalendar.deleteEvent. rewrite Hd. reflexivity. }
      reflexivity.
    + done.
    + done.
    + done.
  - eexists. split; [split_and!|].
    + apply try_catch_rethrow.
      erewrite bind_run by reflexivity.
      apply bind_throw.
      unfold GoogleCalendar.deleteEvent. rewrite Hd. reflexivity.
    + done.
    + done.
    + done.
Qed.

End SchedulingMore.

(** ** Fitbit access token *)

Module FitbitProps.
Import Js Fitbit.

Lemma token_no_ampersand s : contains "&"%char (token s) = false.
Proof.
  induction s as [|c s IH]; cbn [token contains]; [done|].
  destruct (Ascii.eqb c "&"%char) eqn:Hc; cbn [contains]; [done|].
  rewrite IH, orb_false_r. rewrite Ascii.eqb_sym. done.
Qed.

Lemma token_split s : ∃ post, s = token s +:+ post ∧ token post = ""%string.
Proof.
  induction s as [|c s (post & Hs & Hpost)]; cbn [token].
  - by exists ""%string.
  - destruct (Ascii.eqb c "&"%char) eqn:Hc.
    + exists (String c s). cbn [token]. by rewrite Hc.
    + exists post. split; [|done].
      change (String c s = String c (token s +:+ post)). by f_equal.
Qed.

Lemma strip_prefix_Some p s rest :
  strip_prefix p s = Some rest → s = p +:+ rest.
Proof.
  revert s. induction p as [|a p IH]; intros s; simpl.
  - by intros [= ->].
  - destruct s as [|b s]; [done|].
    destruct (Ascii.eqb_spec a b) as [->|]; [|done].
    intros H. by rewrite (IH _ H).
Qed.

Lemma strip_prefix_app p rest : strip_prefix p (p +:+ rest) = Some rest.
Proof.
  induction p as [|a p IH]; simpl; [done|]. by rewrite Ascii.eqb_refl.
Qed.

Lemma token_app t post :
  contains "&"%char t = false → token post = ""%string → token (t +:+ post) = t.
Proof.
  intros Ht Hpost. induction t as [|c t IH]; [done|].
  cbn [contains] in Ht. apply orb_false_iff in Ht as [Hc Ht].
  rewrite Ascii.eqb_sym in Hc.
  change (String c t +:+ post) with (String c (t +:+ post)).
  cbn [token]. rewrite Hc. by rewrite IH.
Qed.

Lemma match_here_nonempty (s tok : string) :
  match_here s = Some tok → tok ≠ ""%string.
Proof.
  unfold match_here. destruct (strip_prefix _ s) as [rest|]; [|done].
  destruct (String.eqb_spec (token rest) ""); [done|]. by intros [= <-].
Qed.

Lemma extractAccessToken_nonempty (redirectUrl tok : string) :
  extractAccessToken redirectUrl = Some tok → tok ≠ ""%string.
Proof.
  induction redirectUrl as [|c url IH]; cbn [extractAccessToken].
  - destruct (match_here "") as [t|] eqn:Hm; [|done].
    intros [= <-]. by eapply match_here_nonempty.
  - destruct (match_here (String c url)) as [t|] eqn:Hm; [|exact IH].
    intros [= <-]. by eapply match_here_nonempty.
Qed.

(** A token that [extractAccessToken] returns is not empty, holds no [&],
    and stands in the URL right after [#access_token=], up to the next [&]
    or the end. *)
Theorem extractAccessToken_sound (redirectUrl tok : string) :
  extractAccessToken redirectUrl = Some tok →
  tok ≠ ""%string ∧ contains "&"%char tok = false
  ∧ ∃ pre post, redirectUrl = pre +:+ "#access_token=" +:+ tok +:+ post
                ∧ token post = ""%string.
Proof.
  induction redirectUrl as [|c url IH].
  - simpl. unfold match_here. simpl. done.
  - simpl. destruct (match_here (String c url)) as [t|] eqn:Hm.
    + intros [= ->]. unfold match_here in Hm.
      destruct (strip_prefix _ _) as [rest|] eqn:Hrest; [|done].
      destruct (String.eqb_spec (token rest) "") as [|Hne]; [done|].
      injection Hm as <-. split_and!; [done | apply token_no_ampersand |].
      apply strip_prefix_Some in Hrest.
      destruct (token_split rest) as (post & Hsplit & Hpost).
      exists ""%string, post. simpl. split; [|done].
      rewrite Hrest. simpl. by rewrite <- Hsplit.
    + intros H. destruct (IH H) as (Hne & Hamp & pre & post & -> & Hpost).
      split_and!; [done | done |].
      by exists (String c pre), post.
Qed.

Lemma extractAccessToken_sound_witness :
  "abc"%string ≠ ""%string ∧ contains "&"%char "abc" = false
  ∧ ∃ pre post,
      "https://app/cb#access_token=abc&user_id=7"%string
      = pre +:+ "#access_token=" +:+ "abc" +:+ post
      ∧ token post = ""%string.
Proof.
  apply (extractAccessToken_sound "https://app/cb#access_token=abc&user_id=7").
  reflexivity.
Defined.

(** Round trip: from a URL made of a part without [#], then
    [#access_token=], a non-empty token without [&], and either nothing or
    [&...], [extractAccessToken] gives back the token. *)
Theorem extractAccessToken_round_trip (pre tok post : string) :
  contains "#"%char pre = false → tok ≠ ""%string → contains "&"%char tok = false →
  token post = ""%string →
  extractAccessToken (pre +:+ "#access_token=" +:+ tok +:+ post) = Some tok.
Proof.
  intros Hpre Hne Hamp Hpost. induction pre as [|c pre IH].
  - change (""%string +:+ ?x) with x.
    assert (match_here ("#access_token=" +:+ tok +:+ post) = Some tok) as Hm.
    { unfold match_here. rewrite strip_prefix_app, token_app by done.
      by destruct (String.eqb_spec tok ""). }
    remember ("#access_token=" +:+ tok +:+ post) as url.
    destruct url; cbn [extractAccessToken]; by rewrite Hm.
  - simpl in Hpre. apply orb_false_iff in Hpre as [Hc Hpre].
    simpl. unfold match_here at 1. simpl. rewrite Hc. by apply IH.
Qed.

Lemma extractAccessToken_round_trip_witness :
  extractAccessToken
    ("https://app/cb" +:+ "#access_token=" +:+ "eyJhbGciOi" +:+ "&user_id=7")
  = Some "eyJhbGciOi"%string.
Proof. by apply extractAccessToken_round_trip. Defined.

(** A URL without [#] carries no token. *)
Theorem extractAccessToken_none (redirectUrl : string) :
  contains "#"%char redirectUrl = false → extractAccessToken redirectUrl = None.
Proof.
  induction redirectUrl as [|c url IH]; simpl; [done|].
  intros [Hc Hurl]%orb_false_iff.
  unfold match_here at 1. simpl. rewrite Hc. by apply IH.
Qed.

Lemma extractAccessToken_none_witness :
  extractAccessToken "https://app/cb?error=access_denied" = None.
Proof. by apply extractAccessToken_none. Defined.

(** The token taken from a redirect URL decides what [fetchSleepData]
    does next: with a token in the URL exactly one request is sent, to the
    sleep path of the date and with that token; without one the call throws
    "not authenticated" and no request is sent. *)
Theorem fetchSleepData_after_redirect (Response : Type)
    (client_get : string → string → Completion (list Response))
    (redirectUrl date : string) (st : State) :
  let st1 := (setAccessToken (extractAccessToken redirectUrl) st).2 in
  let r := fetchSleepData Response client_get date st1 in
  match extractAccessToken redirectUrl with
  | Some tok =>
      requests r.2
      = requests st ++ [("/1.2/user/-/sleep/date/" +:+ date +:+ ".json", tok)]
      ∧ accessToken r.2 = Some tok
  | None => r = (Throw not_authenticated, st1) ∧ requests st1 = requests st
  end.
Proof.
  intros st1 r. subst st1 r.
  destruct (extractAccessToken redirectUrl) as [tok|] eqn:Htok; [|done].
  apply extractAccessToken_nonempty in Htok as Hne.
  unfold fetchSleepData, try_catch, setAccessToken. simpl.
  apply String.eqb_neq in Hne. rewrite Hne. simpl.
  by destruct (client_get _ tok).
Qed.

End FitbitProps.

(** ** Monthly goals *)

Module ProgressProps.
Import Js LanguageTracker ProgressStore.

Section goals.

Variable now : Z.
Variable start_of_month : Z → Z.
Variable matches : Value → Value → bool.

Lemma setMonthlyGoals_run (language wordCount : Value) (c : Collection) :
  setMonthlyGoals now start_of_month matches language wordCount c
  = match List.filter (matches (goal_query language (start_of_month now))) c with
    | first :: _ =>
        match get first "_id" with
        | Return recordId =>
            (Return (VString "Monthly goal updated successfully."),
             map (updated recordId wordCount) c)
        | Throw e => (Throw e, c)
        end
    | [] =>
        (Return (VString "Monthly goal set successfully."),
         c ++ [VObject [("_id", VObjectId (length c)); ("language", language);
                        ("date", VDate (start_of_month now));
                        ("wordCount", wordCount);
                        ("type", VString "monthlyGoal")]%string])
    end.
Proof.
  unfold setMonthlyGoals, goal_query, try_catch, bind, eval, call, ret. simpl.
  destruct (List.filter _ c) as [|first rest]; [reflexivity|].
  simpl. destruct (get first "_id"); reflexivity.
Qed.

Lemma set_wordCount (wordCount : Value) (properties : list (string * Value)) :
  ∃ properties',
    set_properties (VObject [("wordCount", wordCount)]%string)
      (VObject properties) = VObject properties'
    ∧ assoc "wordCount" properties' = Some wordCount
    ∧ ∀ k, k ≠ "wordCount"%string → assoc k properties' = assoc k properties.
Proof.
  eexists. split; [reflexivity|]. split; [reflexivity|].
  intros k Hk. simpl.
  destruct (String.eqb_spec k "wordCount"); [done|].
  induction properties as [|[k' v] l IH]; simpl in *; [done|].
  destruct (String.eqb_spec k' "wordCount") as [->|Hk'].
  - rewrite bool_decide_eq_true_2 by by eexists. simpl.
    destruct (String.eqb_spec k "wordCount"); [done|]. exact IH.
  - rewrite bool_decide_eq_false_2 by (by intros [? ?]). simpl.
    by rewrite IH.
Qed.

Lemma updated_get (recordId wordCount doc : Value) (k : string) :
  k ≠ "wordCount"%string → get (updated recordId wordCount doc) k = get doc k.
Proof.
  intros Hk. unfold updated. destruct (same_id recordId doc); [|done].
  destruct doc as [| | | | | | |properties| |]; try done.
  destruct (set_wordCount wordCount properties) as (p' & -> & _ & Hother).
  simpl. by rewrite Hother.
Qed.

Lemma updated_is_document (recordId wordCount doc : Value) :
  is_document (updated recordId wordCount doc) = is_document doc.
Proof.
  unfold updated. destruct (same_id recordId doc); [|done].
  destruct doc as [| | | | | | |properties| |]; try done.
  destruct (set_wordCount wordCount properties) as (p' & -> & _ & Hother).
  simpl. by rewrite Hother.
Qed.

Lemma updated_still_found (language recordId wordCount doc : Value) :
  looks_at_query_keys now start_of_month matches →
  matches (goal_query language (start_of_month now))
    (updated recordId wordCount doc)
  = matches (goal_query language (start_of_month now)) doc.
Proof. intros H. apply H; by apply updated_get. Qed.

Lemma filter_updated (language recordId wordCount : Value) (c : Collection) :
  looks_at_query_keys now start_of_month matches →
  List.filter (matches (goal_query language (start_of_month now)))
    (map (updated recordId wordCount) c)
  = map (updated recordId wordCount)
      (List.filter (matches (goal_query language (start_of_month now))) c).
Proof.
  intros H. induction c as [|doc c IH]; simpl; [done|].
  rewrite updated_still_found by done.
  destruct (matches _ doc); simpl; by rewrite IH.
Qed.

Lemma is_document_id (doc : Value) :
  is_document doc = true →
  ∃ n, get doc "_id" = Return (VObjectId n) ∧ same_id (VObjectId n) doc = true.
Proof.
  destruct doc as [| | | | | | |properties| |]; try done. simpl.
  unfold same_id. simpl.
  destruct (assoc "_id" properties) as [[]|] eqn:Hid; try done.
  intros _. eexists. split; [done|]. simpl. apply Nat.eqb_refl.
Qed.

Lemma filter_head_elem {A} (f : A → bool) (l : list A) x rest :
  List.filter f l = x :: rest → x ∈ l.
Proof.
  intros H. assert (In x (List.filter f l)) as Hin by (rewrite H; by left).
  apply filter_In in Hin as [Hin _]. by apply list_elem_of_In.
Qed.

(** What a call leaves: a message, documents only, at most one more than
    before, and a goal among them. *)
Lemma setMonthlyGoals_first (language : string) (wordCount : Value)
    (c : Collection) :
  finds_goals now start_of_month matches →
  looks_at_query_keys now start_of_month matches →
  Forall (λ doc, is_document doc = true) c →
  ∃ message c1,
    setMonthlyGoals now start_of_month matches (VString language) wordCount c
    = (Return (VString message), c1)
    ∧ Forall (λ doc, is_document doc = true) c1
    ∧ (length c ≤ length c1 ≤ S (length c))%nat
    ∧ List.filter (matches (goal_query (VString language) (start_of_month now)))
        c1 ≠ [].
Proof.
  intros Hfound Hkeys Hdocs. rewrite setMonthlyGoals_run.
  destruct (List.filter _ c) as [|first rest] eqn:Hfilter.
  - eexists _, _. split; [reflexivity|]. split_and!.
    + apply Forall_app. split; [done|]. by repeat constructor.
    + rewrite length_app. simpl. lia.
    + rewrite length_app. simpl. lia.
    + rewrite List.filter_app, Hfilter. simpl.
      rewrite Hfound by reflexivity. done.
  - assert (is_document first = true) as Hfirst.
    { eapply Forall_forall in Hdocs; [done|]. by eapply filter_head_elem. }
    apply is_document_id in Hfirst as (n & -> & _).
    eexists _, _. split; [reflexivity|]. split_and!.
    + apply Forall_fmap. eapply Forall_impl; [exact Hdocs|].
      intros doc Hdoc. simpl. by rewrite updated_is_document.
    + rewrite length_map. lia.
    + rewrite length_map. lia.
    + rewrite filter_updated, Hfilter by done. done.
Qed.

(** Setting the goal of a month twice leaves one goal, with the second
    value: whatever the collection held, the second call finds the goal
    that the first call stored or updated, writes the new word count into
    it and adds no document. *)
Theorem setMonthlyGoals_second_call_updates (language : string)
    (first second : Value) (c : Collection) :
  finds_goals now start_of_month matches →
  looks_at_query_keys now start_of_month matches →
  Forall (λ doc, is_document doc = true) c →
  ∃ message c1 c2 goal others,
    setMonthlyGoals now start_of_month matches (VString language) first c
    = (Return (VString message), c1)
    ∧ setMonthlyGoals now start_of_month matches (VString language) second c1
      = (Return (VString "Monthly goal updated successfully."), c2)
    ∧ (length c1 ≤ S (length c))%nat ∧ length c2 = length c1
    ∧ List.filter (matches (goal_query (VString language) (start_of_month now)))
        c2 = goal :: others
    ∧ get goal "wordCount" = Return second.
Proof.
  intros Hfound Hkeys Hdocs.
  destruct (setMonthlyGoals_first language first c Hfound Hkeys Hdocs)
    as (message & c1 & Hrun & Hdocs1 & [_ Hlen] & Hgoal).
  destruct (List.filter _ c1) as [|goal others] eqn:Hfilter; [done|].
  assert (is_document goal = true) as Hdoc.
  { eapply Forall_forall in Hdocs1; [done|]. by eapply filter_head_elem. }
  destruct (is_document_id goal Hdoc) as (n & Hid & Hsame).
  exists message, c1, (map (updated (VObjectId n) second) c1),
    (updated (VObjectId n) second goal),
    (map (updated (VObjectId n) second) others).
  split_and!.
  - done.
  - rewrite setMonthlyGoals_run, Hfilter, Hid. done.
  - done.
  - by rewrite length_map.
  - rewrite filter_updated, Hfilter by done. done.
  - unfold updated. rewrite Hsame.
    by destruct goal as [| | | | | | |properties| |].
Qed.

End goals.

Lemma equal_fields_finds_goals (now : Z) (start_of_month : Z → Z) :
  finds_goals now start_of_month equal_fields.
Proof.
  intros language doc Hl Hd Ht. unfold equal_fields, goal_query. simpl.
  rewrite Hl, Hd, Ht. simpl.
  by rewrite String.eqb_refl, Z.eqb_refl.
Qed.

Lemma equal_fields_looks_at_query_keys (now : Z) (start_of_month : Z → Z) :
  looks_at_query_keys now start_of_month equal_fields.
Proof.
  intros language doc doc' Hl Hd Ht. unfold equal_fields, goal_query. simpl.
  by rewrite Hl, Hd, Ht.
Qed.

Lemma setMonthlyGoals_second_call_updates_witness :
  let logged := VObject [("_id", VObjectId 0); ("language", VString "Swedish");
                         ("date", VDate 5); ("wordCount", VNumber 12%Q)]%string in
  ∃ message c1 c2 goal others,
    setMonthlyGoals 17 (λ _, 0) equal_fields (VString "Swedish")
      (VNumber 300%Q) [logged]
    = (Return (VString message), c1)
    ∧ setMonthlyGoals 17 (λ _, 0) equal_fields (VString "Swedish")
        (VNumber 450%Q) c1
      = (Return (VString "Monthly goal updated successfully."), c2)
    ∧ (length c1 ≤ S (length [logged]))%nat ∧ length c2 = length c1
    ∧ List.filter (equal_fields (goal_query (VString "Swedish") 0)) c2
      = goal :: others
    ∧ get goal "wordCount" = Return (VNumber 450%Q).
Proof.
  intros logged.
  apply (setMonthlyGoals_second_call_updates 17 (λ _, 0) equal_fields "Swedish"
           (VNumber 300%Q) (VNumber 450%Q) [logged]).
  - apply equal_fields_finds_goals.
  - apply equal_fields_looks_at_query_keys.
  - by repeat constructor.
Defined.

End ProgressProps.

(** ** Unscheduled items *)

Module QueriesProps.
Import Js Stores JsProps SchedulingInterface SchedulingMore SchedulingQueries.

Lemma getUnscheduledTasks_spec {ToDo Study} (todos : list ToDo)
    (studies : list Study) (w : World) (k : N) (t : Task) :
  ∃ items,
    getUnscheduledTasks ToDo Study todos studies w = (Return items, w)
    ∧ (TaskItem (k, t) ∈ items
       ↔ tasks w !! k = Some t ∧ scheduled t = Some false).
Proof.
  eexists. split; [reflexivity|].
  rewrite !elem_of_app, !list_elem_of_fmap. split.
  - intros [([k' t'] & [= <- <-] & Hin)|[(? & [=] & _)|(? & [=] & _)]].
    apply list_elem_of_In, filter_In in Hin as [Hin Hq].
    apply list_elem_of_In, elem_of_map_to_list in Hin.
    split; [done|]. by apply bool_decide_eq_true in Hq.
  - intros [Hk Hs]. left. exists (k, t). split; [done|].
    apply list_elem_of_In, filter_In. split.
    + by apply list_elem_of_In, elem_of_map_to_list.
    + by apply bool_decide_eq_true.
Qed.

(** [getUnscheduledTasks] follows the scheduling calls: once
    [scheduleTask] has returned for a task, the task is not among the
    unscheduled items, and once [unscheduleTask] has returned for it, it is
    among them again, with [scheduled] false and no [calendarEventId]. *)
Theorem getUnscheduledTasks_follows_scheduling {ToDo Study}
    (todos : list ToDo) (studies : list Study)
    (utc_format : string → string → string)
    (w : World) (taskId : string) (slot : TimeSlot) (timeZone : string)
    (task : Task) :
  ObjectId_isValid taskId = true →
  tasks w !! ObjectId taskId = Some task →
  ∃ message w1 items1 w2 items2,
    scheduleTask utc_format taskId slot timeZone w = (Return message, w1)
    ∧ getUnscheduledTasks ToDo Study todos studies w1 = (Return items1, w1)
    ∧ (∀ t, TaskItem (ObjectId taskId, t) ∉ items1)
    ∧ unscheduleTask taskId w1 = (Return "Task unscheduled successfully.", w2)
    ∧ getUnscheduledTasks ToDo Study todos studies w2 = (Return items2, w2)
    ∧ TaskItem (ObjectId taskId,
                mkTask (title task) (duration task) (Some false) None)
      ∈ items2.
Proof.
  intros Hvalid Htask.
  destruct (scheduleTask_result utc_format w taskId slot timeZone task
              Hvalid Htask)
    as (newId & mongoId & details & doc & w1 & Hrun1 & Hnonempty & Hnew
        & Hmongo & Hfresh & Hgd & Hg1 & He1 & Ht1).
  destruct (unscheduleTask_result w1 taskId newId
              (mkTask (title task) (duration task) (Some true) (Some newId))
              details)
    as (w2 & Hrun2 & Hg2 & He2 & Ht2); try done.
  { by rewrite Ht1, lookup_insert_eq. }
  { by rewrite Hg1, lookup_insert_eq. }
  set (after := mkTask (title task) (duration task) (Some false) None).
  destruct (getUnscheduledTasks_spec todos studies w2 (ObjectId taskId) after)
    as (items2 & Hitems2 & Hin2).
  eexists _, w1, _, w2, items2. split_and!.
  - exact Hrun1.
  - reflexivity.
  - intros t Hin.
    destruct (getUnscheduledTasks_spec todos studies w1 (ObjectId taskId) t)
      as (items1 & Hitems1 & Hin1).
    injection Hitems1 as <-. apply Hin1 in Hin as [Hk Hs].
    rewrite Ht1, lookup_insert_eq in Hk. injection Hk as <-. done.
  - exact Hrun2.
  - exact Hitems2.
  - apply Hin2. split; [|done].
    rewrite Ht2. simpl. by rewrite lookup_insert_eq.
Qed.

Lemma getUnscheduledTasks_follows_scheduling_witness :
  let w := mkWorld ∅ ∅ {[ 1%N := mkTask "Write report" 2 None None ]} [] in
  ∃ message w1 items1 w2 items2,
    scheduleTask (λ t _, t) "000000000000000000000001"
      (mkTimeSlot "2024-05-01T10:00:00" "2024-05-01T12:00:00") "UTC" w
    = (Return message, w1)
    ∧ getUnscheduledTasks unit unit [tt] [] w1 = (Return items1, w1)
    ∧ (∀ t, TaskItem (1%N, t) ∉ items1)
    ∧ unscheduleTask "000000000000000000000001" w1
      = (Return "Task unscheduled successfully.", w2)
    ∧ getUnscheduledTasks unit unit [tt] [] w2 = (Return items2, w2)
    ∧ TaskItem (1%N, mkTask "Write report" 2 (Some false) None) ∈ items2.
Proof.
  intros w.
  by apply (getUnscheduledTasks_follows_scheduling [tt] [] (λ t _, t) w
              "000000000000000000000001"
              (mkTimeSlot "2024-05-01T10:00:00" "2024-05-01T12:00:00") "UTC"
              (mkTask "Write report" 2 None None)).
Defined.

End QueriesProps.
